(** * A fixed-arena pool of FIFO byte queues

    Shallow embedding of [Custom_Memory_Pool_Alloc.cpp] and
    [Model/byte_queue.h].

    The two globals of the program, the slot table [queues] and the byte
    arena [data], form the state.  A pointer into [data] is its offset from
    [data] ([None] is [nullptr]); a pointer into [queues] (a queue handle)
    is its index.  Every function of the source is a computation in a small
    state-and-failure monad with three outcomes: normal return, termination
    by one of the two signal handlers, and undefined behaviour (an access
    outside [data] or [queues], or arithmetic on [nullptr]).

    Conventions taken from the source and its target:
    - [unsigned int] fields are integers with the wrap-around modulo 2^32
      written at every arithmetic operation of the source;
    - pointer differences are signed 64-bit values, so that comparing one
      with an [unsigned int] is a signed comparison;
    - [std::sort] leaves open in which order it returns slots that its
      comparison does not order.  [reorganize_byte_queues] is an insertion
      sort that keeps such slots in table order: one of the sorts
      [std::sort] may be.  On a table on which any two slots that differ
      are ordered by the comparison every sort returns the same list;
      [sorts_by_comparison] states what all of them have in common, and
      [try_organize_memory_with] is compaction for any of them;
    - [get_first_queue] returns the address of an element of its own local
      array; the model passes that element by value, as it was when the
      function returned;
    - no handler is installed for [SIGABRT] or [SIGILL], so that [raise]
      ends the program;
    - a byte is an integer in [[0, 256)]; the program only copies bytes.

    The state carries, beside the two globals, a log of the accesses to
    the arena.  The log belongs to the model, not to the program: no
    function reads it. *)

From stdpp Require Import base list.
From Stdlib Require Import ZArith Lia Permutation Sorted.

Local Open Scope Z_scope.

(** ** Constants *)

Definition DEFAULT_ALLOC_SIZE : Z := 32.
Definition MAX_QUEUE_COUNT : nat := 64.
Definition MEMORY_ALLOC_SIZE : Z := 2048.

(** ** Data model *)

(** Offset from [data]; [None] is [nullptr]. *)
Definition pointer : Type := option Z.

Record byte_queue : Type := mk_queue {
  MemoryBlockPtr : pointer;
  AllocatedSize : Z;
  Size : Z;
  bIs_Active : bool
}.

(** The member initialisers of the struct. *)
Definition empty_queue : byte_queue := mk_queue None 0 0 false.

Definition pointer_eqb (p q : pointer) : bool :=
  match p, q with
  | None, None => true
  | Some a, Some b => a =? b
  | _, _ => false
  end.

(** [nullptr] lies below every address of [data]. *)
Definition pointer_ltb (p q : pointer) : bool :=
  match p, q with
  | None, Some _ => true
  | Some a, Some b => a <? b
  | _, None => false
  end.

Definition pointer_leb (p q : pointer) : bool :=
  match p, q with
  | None, _ => true
  | Some a, Some b => a <=? b
  | Some _, None => false
  end.

(** [byte_queue::operator==]. *)
Definition queue_eqb (a b : byte_queue) : bool :=
  pointer_eqb (MemoryBlockPtr a) (MemoryBlockPtr b)
  && (AllocatedSize a =? AllocatedSize b)
  && (Size a =? Size b)
  && Bool.eqb (bIs_Active a) (bIs_Active b).

(** Arithmetic of [unsigned int]. *)
Definition uint (x : Z) : Z := x mod 2 ^ 32.

(** An access to the arena: an element read, an element written, a
    block moved by [std::memmove]. *)
Inductive event : Type :=
| Load (i : Z)
| Store (i : Z)
| Move (dst src n : Z).

(** The globals [queues] and [data], and the log of accesses, newest
    first. *)
Record state : Type := mk_state {
  queues : list byte_queue;
  data : list Z;
  trace : list event
}.

Definition initial_state : state :=
  mk_state (replicate MAX_QUEUE_COUNT empty_queue)
           (replicate (Z.to_nat MEMORY_ALLOC_SIZE) 0)
           [].

(** ** The monad *)

(** The signal raised by a handler. [SIGABRT] is the out-of-memory
    termination, [SIGILL] the illegal-operation termination. *)
Inductive signal : Type := SIGABRT | SIGILL.

Inductive outcome (A : Type) : Type :=
| Done (a : A) (s : state)
| Abort (k : signal)
| Undef.
Arguments Done {A} a s.
Arguments Abort {A} k.
Arguments Undef {A}.

Definition M (A : Type) : Type := state -> outcome A.

Definition ret {A} (a : A) : M A := fun s => Done a s.

Definition bind {A B} (m : M A) (f : A -> M B) : M B :=
  fun s =>
    match m s with
    | Done a s' => f a s'
    | Abort k => Abort k
    | Undef => Undef
    end.

Notation "'let*' x ':=' m 'in' k" := (bind m (fun x => k))
  (at level 10, x pattern, m at level 100, k at level 200).

Definition undefined {A} : M A := fun _ => Undef.

Definition on_out_of_memory {A} : M A := fun _ => Abort SIGABRT.
Definition on_illegal_operation {A} : M A := fun _ => Abort SIGILL.

(** ** Access to the two globals *)

Definition get_queues : M (list byte_queue) := fun s => Done (queues s) s.

(** [queues[i]] read through a pointer into the table. *)
Definition read_queue (i : nat) : M byte_queue :=
  fun s =>
    match queues s !! i with
    | Some q => Done q s
    | None => Undef
    end.

Definition write_queue (i : nat) (q : byte_queue) : M unit :=
  fun s =>
    match queues s !! i with
    | Some _ => Done tt (mk_state (<[i:=q]> (queues s)) (data s) (trace s))
    | None => Undef
    end.

Definition in_arena (a : Z) : bool := (0 <=? a) && (a <? MEMORY_ALLOC_SIZE).

(** [p[i]] as an rvalue. *)
Definition load (p : pointer) (i : Z) : M Z :=
  fun s =>
    match p with
    | None => Undef
    | Some a =>
        if in_arena (a + i) then
          match data s !! Z.to_nat (a + i) with
          | Some v =>
              Done v (mk_state (queues s) (data s) (Load (a + i) :: trace s))
          | None => Undef
          end
        else Undef
    end.

(** [p[i] = v]. *)
Definition store (p : pointer) (i : Z) (v : Z) : M unit :=
  fun s =>
    match p with
    | None => Undef
    | Some a =>
        if in_arena (a + i) then
          Done tt (mk_state (queues s)
                            (<[Z.to_nat (a + i) := v]> (data s))
                            (Store (a + i) :: trace s))
        else Undef
    end.

(** [std::memmove(dst, src, n)]: the source block is read whole before
    the destination is written. *)
Definition memmove (dst src : pointer) (n : Z) : M unit :=
  fun s =>
    match dst, src with
    | Some d, Some a =>
        if (0 <=? a) && (a + n <=? MEMORY_ALLOC_SIZE)
           && (0 <=? d) && (d + n <=? MEMORY_ALLOC_SIZE) then
          let block := take (Z.to_nat n) (drop (Z.to_nat a) (data s)) in
          Done tt (mk_state (queues s)
                            (take (Z.to_nat d) (data s) ++ block
                               ++ drop (Z.to_nat (d + n)) (data s))
                            (Move d a n :: trace s))
        else Undef
    | _, _ => Undef
    end.

(** [p + n] on a pointer into [data]. *)
Definition pointer_add (p : pointer) (n : Z) : M pointer :=
  match p with
  | None => undefined
  | Some a => ret (Some (a + n))
  end.

(** [p - q], a [ptrdiff_t]. *)
Definition pointer_diff (p q : pointer) : M Z :=
  match p, q with
  | Some a, Some b => ret (a - b)
  | _, _ => undefined
  end.

(** [for (unsigned int i = from; i < from + count; i++) body(i)]. *)
Fixpoint for_loop (count : nat) (from : Z) (body : Z -> M unit) : M unit :=
  match count with
  | O => ret tt
  | S c => let* _ := body from in for_loop c (from + 1) body
  end.

(** ** Ordering the table *)

(** The comparison passed to [std::sort]: active slots first, then by
    memory location. *)
Definition queue_before (q1 q2 : byte_queue) : bool :=
  if negb (Bool.eqb (bIs_Active q1) (bIs_Active q2))
  then bIs_Active q1 && negb (bIs_Active q2)
  else pointer_ltb (MemoryBlockPtr q1) (MemoryBlockPtr q2).

(** [q] goes before the first slot of [l] that the comparison does not
    put before it. *)
Fixpoint insert_queue (q : byte_queue) (l : list byte_queue)
    : list byte_queue :=
  match l with
  | [] => [q]
  | x :: r => if queue_before x q then x :: insert_queue q r else q :: x :: r
  end.

(** The sorted copy.  Slots that the comparison does not order keep their
    table order; [std::sort] may return them in any order. *)
Fixpoint reorganize_byte_queues (entry : list byte_queue) : list byte_queue :=
  match entry with
  | [] => []
  | q :: r => insert_queue q (reorganize_byte_queues r)
  end.

(** [std::find(std::begin(queues), std::end(queues), q) - queues]; the
    length of the table when no slot equals [q]. *)
Fixpoint find_queue (q : byte_queue) (l : list byte_queue) : nat :=
  match l with
  | [] => O
  | x :: r => if queue_eqb x q then O else S (find_queue q r)
  end.

(** ** Queries *)

Definition get_first_queue : M (option byte_queue) :=
  let* qs := get_queues in
  let temp := reorganize_byte_queues qs in
  ret (List.find bIs_Active temp).

Fixpoint next_queue_from (p : pointer) (foundQueue : bool) (i : nat)
    (l : list byte_queue) : option nat :=
  match l with
  | [] => None
  | x :: r =>
      if negb foundQueue && pointer_eqb (MemoryBlockPtr x) p
      then next_queue_from p true (S i) r
      else if foundQueue && bIs_Active x then Some i
      else next_queue_from p foundQueue (S i) r
  end.

(** Only the memory location of the argument is inspected. *)
Definition get_next_queue (p : pointer) : M (option nat) :=
  let* qs := get_queues in
  ret (next_queue_from p false O qs).

(** The test [it != std::end(temp)] compares an address inside the global
    table with one inside a local array and always holds, so the first
    active slot met from the end of the sorted copy decides the result. *)
Definition get_last_queue : M (option nat) :=
  let* qs := get_queues in
  let temp := reorganize_byte_queues qs in
  match List.find bIs_Active (rev temp) with
  | Some q => ret (Some (find_queue q qs))
  | None => ret None
  end.

(** ** Moving bytes *)

Definition relocate_bytes (old_location location : pointer) (size : Z)
    (clear : bool) : M unit :=
  if pointer_eqb location old_location then ret tt
  else
    let* _ := memmove location old_location size in
    if clear
    then for_loop (Z.to_nat size) 0 (fun i => store old_location i 0)
    else ret tt.

(** ** The slot table *)

Fixpoint first_inactive (i : nat) (l : list byte_queue) : option nat :=
  match l with
  | [] => None
  | x :: r => if negb (bIs_Active x) then Some i else first_inactive (S i) r
  end.

Definition add_byte_queue (ptr : pointer) (allocSize : Z) : M (option nat) :=
  match ptr with
  | None => ret None
  | Some _ =>
      let* qs := get_queues in
      match first_inactive O qs with
      | Some i =>
          let* _ := write_queue i (mk_queue ptr allocSize 0 true) in
          ret (Some i)
      | None => ret None
      end
  end.

(** ** Compaction *)

Definition with_location (q : byte_queue) (p : pointer) : byte_queue :=
  mk_queue p (AllocatedSize q) (Size q) (bIs_Active q).

(** [queues[it - queues].MemoryBlockPtr = p] for the slot [it] found by
    [std::find]; writing through the end iterator is outside the table. *)
Definition set_location (q : byte_queue) (p : pointer) : M unit :=
  let* qs := get_queues in
  let it := find_queue q qs in
  let* cur := read_queue it in
  write_queue it (with_location cur p).

(** The body of the [while] loop, for the element [next] of the sorted
    copy; [previous] is carried by value. *)
Definition organize_step (next : byte_queue) (acc : byte_queue * bool)
    : M (byte_queue * bool) :=
  let '(previous, memory_organized) := acc in
  if bIs_Active next then
    let* start :=
      pointer_add (MemoryBlockPtr previous) (AllocatedSize previous) in
    if negb (pointer_eqb start (MemoryBlockPtr next)) then
      let* _ := relocate_bytes (MemoryBlockPtr next) start
                               (AllocatedSize next) false in
      let* _ := set_location next start in
      ret (with_location next start, true)
    else ret (next, memory_organized)
  else ret (previous, memory_organized).

Fixpoint organize_loop (l : list byte_queue) (acc : byte_queue * bool)
    : M (byte_queue * bool) :=
  match l with
  | [] => ret acc
  | next :: r => let* acc' := organize_step next acc in organize_loop r acc'
  end.

(** [try_organize_memory] once its copy [temp] of the table is sorted. *)
Definition organize_sorted (temp : list byte_queue) : M bool :=
  match temp with
  | [] => undefined
  | first :: rest =>
      if negb (bIs_Active first) then ret false
      else
        let* acc :=
          (if negb (pointer_eqb (MemoryBlockPtr first) (Some 0)) then
             let* _ := relocate_bytes (MemoryBlockPtr first) (Some 0)
                                      (Size first) true in
             let* _ := set_location first (Some 0) in
             ret (with_location first (Some 0), true)
           else ret (first, false)) in
        let* res := organize_loop rest acc in
        ret (snd res)
  end.

Definition try_organize_memory : M bool :=
  let* qs := get_queues in
  organize_sorted (reorganize_byte_queues qs).

(** ** Placement *)

(** [h->...] on a pointer into the table. *)
Definition deref_queue (h : option nat) : M byte_queue :=
  match h with
  | None => undefined
  | Some i => read_queue i
  end.

(** [p + size <= data + MEMORY_ALLOC_SIZE]. *)
Definition ends_in_arena (p : pointer) (size : Z) : M bool :=
  let* e := pointer_add p size in
  ret (pointer_leb e (Some MEMORY_ALLOC_SIZE)).

(** The [for] loop over [temp[1]], [temp[2]], ... looking for a gap after
    [queue]; [None] when the loop ends without returning. *)
Fixpoint gap_scan (requested_size : Z) (queue : byte_queue)
    (l : list byte_queue) : M (option pointer) :=
  match l with
  | [] => ret None
  | t :: r =>
      if negb (bIs_Active t) then ret None
      else
        let* e := pointer_add (MemoryBlockPtr queue) (AllocatedSize queue) in
        let* gap := pointer_diff (MemoryBlockPtr t) e in
        if gap >=? requested_size then ret (Some e)
        else gap_scan requested_size t r
  end.

Definition first_free_memory (requested_size : Z) : M pointer :=
  let* first := get_first_queue in
  match first with
  | None => ret (Some 0)
  | Some queue =>
      if negb (pointer_eqb (Some 0) (MemoryBlockPtr queue)) then
        if pointer_leb (Some (0 + requested_size)) (MemoryBlockPtr queue)
        then ret (Some 0)
        else
          let* organized := try_organize_memory in
          if negb organized then ret None
          else
            let* last := get_last_queue in
            let* queue := deref_queue last in
            let* mem_block_start :=
              pointer_add (MemoryBlockPtr queue) (AllocatedSize queue) in
            let* fits := ends_in_arena mem_block_start requested_size in
            if fits then ret mem_block_start else ret None
      else
        let* node := get_next_queue (MemoryBlockPtr queue) in
        match node with
        | None => pointer_add (MemoryBlockPtr queue) (AllocatedSize queue)
        | Some _ =>
            let* qs := get_queues in
            let temp := reorganize_byte_queues qs in
            let* gap := gap_scan requested_size queue (drop 1 temp) in
            match gap with
            | Some p => ret p
            | None =>
                let* last := get_last_queue in
                let* last_queue := deref_queue last in
                let* ptr_to_first :=
                  pointer_add (MemoryBlockPtr last_queue)
                              (AllocatedSize last_queue) in
                let* fits := ends_in_arena ptr_to_first requested_size in
                if fits then ret ptr_to_first
                else
                  let* organized := try_organize_memory in
                  if negb organized then ret None
                  else
                    let* last := get_last_queue in
                    let* last_queue := deref_queue last in
                    let* ptr_to_first :=
                      pointer_add (MemoryBlockPtr last_queue)
                                  (AllocatedSize last_queue) in
                    let* fits := ends_in_arena ptr_to_first requested_size in
                    if fits then ret ptr_to_first else ret None
            end
        end
  end.

(** [queue] is the table slot [h], passed by reference. *)
Definition get_available_memory_start (h : nat) (size : Z) : M pointer :=
  let* queue := read_queue h in
  let* node := get_next_queue (MemoryBlockPtr queue) in
  match node with
  | None => ret (Some 0)
  | Some n =>
      let* next := read_queue n in
      let* gap := pointer_diff (MemoryBlockPtr next) (MemoryBlockPtr queue) in
      if gap >=? size then ret (MemoryBlockPtr queue)
      else
        let* node := get_last_queue in
        match node with
        | None => ret (Some 0)
        | Some l =>
            let* last := read_queue l in
            let* memory_start :=
              pointer_add (MemoryBlockPtr last) (AllocatedSize last) in
            let* fits := ends_in_arena memory_start size in
            if negb fits then
              let* organized := try_organize_memory in
              let* _ := (if negb organized then on_out_of_memory else ret tt) in
              let* node := get_last_queue in
              let* last := deref_queue node in
              let* memory_start :=
                pointer_add (MemoryBlockPtr last) (AllocatedSize last) in
              let* fits := ends_in_arena memory_start size in
              let* _ := (if negb fits then on_out_of_memory else ret tt) in
              ret memory_start
            else ret memory_start
        end
  end.

(** ** The public operations *)

Definition create_queue : M nat :=
  let* start := first_free_memory DEFAULT_ALLOC_SIZE in
  let* _ := (match start with
             | None => on_out_of_memory
             | Some _ => ret tt
             end) in
  let* result := add_byte_queue start DEFAULT_ALLOC_SIZE in
  match result with
  | None => on_out_of_memory
  | Some r =>
      let* _ := write_queue r (mk_queue start DEFAULT_ALLOC_SIZE 0 true) in
      ret r
  end.

Definition destroy_queue (h : nat) (clear : bool) : M unit :=
  let* queue := read_queue h in
  let* _ := (if clear
             then for_loop (Z.to_nat (AllocatedSize queue)) 0
                    (fun i => store (MemoryBlockPtr queue) i 0)
             else ret tt) in
  write_queue h empty_queue.

Definition enqueue_byte (h : nat) (byte : Z) : M unit :=
  let* queue := read_queue h in
  let* _ :=
    (if uint (Size queue + 1) >? AllocatedSize queue then
       let lastPosition := MemoryBlockPtr queue in
       let lastSize := AllocatedSize queue in
       let grown := uint (AllocatedSize queue + DEFAULT_ALLOC_SIZE) in
       let* _ := write_queue h (mk_queue (MemoryBlockPtr queue) grown
                                         (Size queue) (bIs_Active queue)) in
       let* p := get_available_memory_start h grown in
       let* moved := read_queue h in
       let* _ := write_queue h (with_location moved p) in
       relocate_bytes lastPosition p lastSize true
     else ret tt) in
  let* queue := read_queue h in
  let* _ := store (MemoryBlockPtr queue) (Size queue) byte in
  write_queue h (mk_queue (MemoryBlockPtr queue) (AllocatedSize queue)
                          (uint (Size queue + 1)) (bIs_Active queue)).

Definition dequeue_byte (h : nat) : M Z :=
  let* queue := read_queue h in
  let* _ := (if Size queue =? 0 then on_illegal_operation else ret tt) in
  let ptr := MemoryBlockPtr queue in
  let* removed_byte := load ptr 0 in
  let* _ := for_loop (Z.to_nat (Size queue)) 0
              (fun i => let* v := load ptr (uint (i + 1)) in store ptr i v) in
  let size := uint (Size queue - 1) in
  let* _ := store ptr size 0 in
  let shrunk := uint (AllocatedSize queue - DEFAULT_ALLOC_SIZE) in
  let allocated := if size <=? shrunk then shrunk else AllocatedSize queue in
  let* _ := write_queue h (mk_queue ptr allocated size (bIs_Active queue)) in
  ret removed_byte.

(** ** Sequences of calls *)

Inductive op : Type :=
| Create
| Destroy (h : nat) (clear : bool)
| Enqueue (h : nat) (byte : Z)
| Dequeue (h : nat)
| Compact.

(** What a call hands back to its caller. *)
Inductive reply : Type :=
| Handle (h : nat)
| Byte (b : Z)
| Flag (b : bool)
| Nothing.

Definition step (o : op) : M reply :=
  match o with
  | Create => let* h := create_queue in ret (Handle h)
  | Destroy h clear => let* _ := destroy_queue h clear in ret Nothing
  | Enqueue h b => let* _ := enqueue_byte h b in ret Nothing
  | Dequeue h => let* b := dequeue_byte h in ret (Byte b)
  | Compact => let* b := try_organize_memory in ret (Flag b)
  end.

Fixpoint run (ops : list op) : M (list reply) :=
  match ops with
  | [] => ret []
  | o :: r =>
      let* x := step o in
      let* xs := run r in
      ret (x :: xs)
  end.

(** The handle a call receives designates a slot that is in use. *)
Definition handle_of (o : op) : option nat :=
  match o with
  | Destroy h _ | Enqueue h _ | Dequeue h => Some h
  | Create | Compact => None
  end.

Definition is_active (h : nat) (s : state) : bool :=
  match queues s !! h with
  | Some q => bIs_Active q
  | None => false
  end.

Definition op_ok (o : op) (s : state) : bool :=
  match handle_of o with
  | Some h => is_active h s
  | None => true
  end.

(** Every call of the sequence that is reached is given a live handle. *)
Fixpoint handles_live (ops : list op) (s : state) : bool :=
  match ops with
  | [] => true
  | o :: r =>
      op_ok o s &&
      match step o s with
      | Done _ s' => handles_live r s'
      | _ => true
      end
  end.

Definition state_after (ops : list op) : option state :=
  match run ops initial_state with
  | Done _ s => Some s
  | _ => None
  end.


(** ** Observations on a state *)

Definition active_queues (s : state) : list byte_queue :=
  List.filter bIs_Active (queues s).

(** The [Size] bytes stored for the slot [h], oldest first. *)
Definition contents (h : nat) (s : state) : option (list Z) :=
  match queues s !! h with
  | Some q =>
      match MemoryBlockPtr q with
      | Some a => Some (take (Z.to_nat (Size q)) (drop (Z.to_nat a) (data s)))
      | None => None
      end
  | None => None
  end.

(** The byte ranges [[address, address + allocated)] of two slots share
    a byte. *)
Definition ranges_overlap (q1 q2 : byte_queue) : bool :=
  match MemoryBlockPtr q1, MemoryBlockPtr q2 with
  | Some a1, Some a2 =>
      Z.max a1 a2 <? Z.min (a1 + AllocatedSize q1) (a2 + AllocatedSize q2)
  | _, _ => false
  end.

Fixpoint pairwise {A} (r : A -> A -> bool) (l : list A) : bool :=
  match l with
  | [] => true
  | x :: l' => forallb (r x) l' && pairwise r l'
  end.

(** I1, non-overlap of the active slots. *)
Definition I1 (s : state) : bool :=
  pairwise (fun q1 q2 => negb (ranges_overlap q1 q2)) (active_queues s).

(** I2, every active slot lies in the arena. *)
Definition I2 (s : state) : bool :=
  forallb (fun q =>
             match MemoryBlockPtr q with
             | Some a =>
                 (0 <=? a) && (a + AllocatedSize q <=? MEMORY_ALLOC_SIZE)
             | None => false
             end)
          (active_queues s).

(** I3, capacity discipline. *)
Definition I3 (s : state) : bool :=
  forallb (fun q =>
             (AllocatedSize q mod DEFAULT_ALLOC_SIZE =? 0)
             && (0 <=? AllocatedSize q)
             && (0 <=? Size q) && (Size q <=? AllocatedSize q))
          (queues s).

(** I4, an inactive slot is blank. *)
Definition I4 (s : state) : bool :=
  forallb (fun q => bIs_Active q || queue_eqb q empty_queue) (queues s).

(** I5, at most [MAX_QUEUE_COUNT] slots are active. *)
Definition I5 (s : state) : bool :=
  (length (active_queues s) <=? MAX_QUEUE_COUNT)%nat.

(** The bytes handed to [enqueue_byte] for the handle [h], in call order. *)
Fixpoint enqueued (h : nat) (ops : list op) : list Z :=
  match ops with
  | [] => []
  | Enqueue h' b :: r =>
      if (h' =? h)%nat then b :: enqueued h r else enqueued h r
  | _ :: r => enqueued h r
  end.

(** The bytes [dequeue_byte] returned for the handle [h], in call order. *)
Fixpoint dequeued (h : nat) (ops : list op) (replies : list reply) : list Z :=
  match ops, replies with
  | Dequeue h' :: r, Byte b :: rs =>
      if (h' =? h)%nat then b :: dequeued h r rs else dequeued h r rs
  | _ :: r, _ :: rs => dequeued h r rs
  | _, _ => []
  end.

(** The log holds a read of index [i]. *)
Definition reads (i : Z) (t : list event) : bool :=
  existsb (fun e => match e with Load j => j =? i | _ => false end) t.

Fixpoint moves (t : list event) : list (Z * Z * Z) :=
  match t with
  | [] => []
  | Move d a n :: r => moves r ++ [(d, a, n)]
  | _ :: r => moves r
  end.

Definition forget_trace (s : state) : state := mk_state (queues s) (data s) [].

(** ** Call sequences used below *)

(** [enqueue_byte(h, from)], ..., [enqueue_byte(h, from + n - 1)]. *)
Definition enqueue_run (h : nat) (from n : nat) : list op :=
  map (fun i => Enqueue h (Z.of_nat i)) (seq from n).

(** [Test_FillQueues]: 64 queues of 32 bytes each. *)
Definition Test_FillQueues : list op :=
  flat_map (fun i => Create :: enqueue_run i 1 32) (seq 0 MAX_QUEUE_COUNT).

(** The first section of [Test_Reallocation_3] and what follows it. *)
Definition interleaved (hs : list nat) : list op :=
  flat_map (fun i => map (fun h => Enqueue h (Z.of_nat i)) hs) (seq 1 32).

Definition Test_Reallocation_3 : list op :=
  [Create; Create; Create; Create; Create; Enqueue 4 0; Create]
    ++ interleaved [0; 1; 2; 3; 4; 5]%nat
    ++ [Destroy 2 false; Destroy 3 false; Create; Create; Create; Create]
    ++ interleaved [2; 3; 6; 7]%nat.

Definition Test_Organization : list op :=
  [Create; Create; Create; Create; Create; Create]
    ++ interleaved [0; 1; 2; 3; 4; 5]%nat
    ++ [Destroy 0 true; Destroy 4 true; Destroy 3 true; Compact].

Definition layout (s : state) : list (pointer * Z * Z) :=
  map (fun q => (MemoryBlockPtr q, AllocatedSize q, Size q)) (active_queues s).

Definition layout_after (ops : list op) : option (list (pointer * Z * Z)) :=
  option_map layout (state_after ops).

Definition outcome_kind {A} (o : outcome A) : option (option signal) :=
  match o with
  | Done _ _ => Some None
  | Abort k => Some (Some k)
  | Undef => None
  end.


(** Two queues, the second one filled and then given a 33rd byte. *)
Definition grow_last_slot : list op :=
  [Create; Create] ++ enqueue_run 0 1 32 ++ enqueue_run 1 101 33.

(** One byte in the first queue, 33 bytes in the second, then the first
    queue is read. *)
Definition read_after_neighbour_grew : list op :=
  [Create; Create; Enqueue 0 7] ++ enqueue_run 1 101 33 ++ [Dequeue 0].

(** Four queues; the third is destroyed, the second grows in place to 40
    bytes, the first is destroyed: the lowest slot is at offset 32 and
    holds more than 32 bytes. *)
Definition long_queue_behind_gap : list op :=
  [Create; Create; Create; Create; Destroy 2 false]
    ++ enqueue_run 1 1 40 ++ [Destroy 0 false].

(** Three queues; the second grows and is moved behind the third. *)
Definition second_moved_to_tail : list op :=
  [Create; Create; Create] ++ enqueue_run 1 1 33.

(** Three queues, the third filled, the second destroyed. *)
Definition gap_before_third : list op :=
  [Create; Create; Create] ++ enqueue_run 2 1 32 ++ [Destroy 1 false].

(** One queue filled to its capacity. *)
Definition one_full_queue : list op := Create :: enqueue_run 0 1 32.

(** The first queue grows and is moved behind the second; the second is
    emptied to capacity 0 by one enqueue and one dequeue. *)
Definition empty_slot_below : list op :=
  [Create; Create] ++ enqueue_run 0 1 33 ++ [Enqueue 1 1; Dequeue 1].

(** Two queues; the first is emptied to capacity 0 by one enqueue and
    one dequeue. *)
Definition empty_slot_first : list op :=
  [Create; Create; Enqueue 0 1; Dequeue 0].

(** Three queues; the second grows and is moved to the tail, a fourth
    queue takes its place, then the first queue grows. *)
Definition grow_towards_later_slot : list op :=
  [Create; Create; Create] ++ enqueue_run 1 1 33 ++ [Create]
    ++ enqueue_run 0 101 33.

(** One queue grown to the size of the arena, then a second queue. *)
Definition create_behind_full_arena : list op :=
  Create :: enqueue_run 0 1 2017 ++ [Create].

(** 64 queues, queue [i] filled with 32 bytes of value [i + 1]; three
    queues are destroyed, the first queue gets a 33rd byte (no room at the
    tail: the table is compacted), and the third queue is read. *)
Definition grow_with_compaction : list op :=
  flat_map (fun i => Create :: map (fun _ => Enqueue i (Z.of_nat (i + 1)))
                                   (seq 0 32))
           (seq 0 MAX_QUEUE_COUNT)
    ++ [Destroy 10 false; Destroy 11 false; Destroy 12 false;
        Enqueue 0 77; Dequeue 2].

Definition in_range (q : byte_queue) (i : Z) : bool :=
  match MemoryBlockPtr q with
  | Some a => (a <=? i) && (i <? a + AllocatedSize q)
  | None => false
  end.

Definition sum_allocated (s : state) : Z :=
  fold_right Z.add 0 (map AllocatedSize (active_queues s)).

(** ** Well-formed tables *)

(** Capacity and length of a slot, and whether it is in use: what
    compaction and placement leave alone. *)
Definition meta (q : byte_queue) : Z * Z * bool :=
  (AllocatedSize q, Size q, bIs_Active q).

(** A slot as the public operations keep it: a slot in use has a location
    in or above the arena base, a capacity that is a multiple of the growth
    unit and at most one unit above its length; a slot not in use is blank. *)
Definition slot_ok (q : byte_queue) : Prop :=
  if bIs_Active q then
    (exists a, MemoryBlockPtr q = Some a /\ 0 <= a)
    /\ (DEFAULT_ALLOC_SIZE | AllocatedSize q)
    /\ 0 <= Size q
    /\ AllocatedSize q - DEFAULT_ALLOC_SIZE <= Size q <= AllocatedSize q
    /\ Size q <= MEMORY_ALLOC_SIZE
  else q = empty_queue.

Definition table_ok (s : state) : Prop := Forall slot_ok (queues s).

(** [alloc] is the smallest multiple of the growth unit that is at least
    [size]. *)
Definition smallest_capacity_for (size alloc : Z) : Prop :=
  (DEFAULT_ALLOC_SIZE | alloc)
  /\ size <= alloc
  /\ forall m, (DEFAULT_ALLOC_SIZE | m) -> size <= m -> alloc <= m.

(** ** Packed tables *)

(** The sorted copy as compaction leaves it: every active slot placed at
    the end of the active slot before it, the first one at offset [a]. *)
Fixpoint pack_from (a : Z) (l : list byte_queue) : list byte_queue :=
  match l with
  | [] => []
  | q :: r =>
      if bIs_Active q
      then with_location q (Some a) :: pack_from (a + AllocatedSize q) r
      else q :: pack_from a r
  end.

(** The active slots of [l], in the order of [l], lie one after the other
    from offset [a] on, without gaps. *)
Fixpoint packed_from (a : Z) (l : list byte_queue) : Prop :=
  match l with
  | [] => True
  | q :: r =>
      if bIs_Active q
      then MemoryBlockPtr q = Some a /\ packed_from (a + AllocatedSize q) r
      else packed_from a r
  end.

(** The order [std::sort] establishes: [y] is not before [x]. *)
Definition not_after (x y : byte_queue) : Prop := queue_before y x = false.

(** [x] lies at a lower address than [y]. *)
Definition below (x y : byte_queue) : Prop :=
  pointer_ltb (MemoryBlockPtr x) (MemoryBlockPtr y) = true.

(** ** Notions used in the proofs *)

(** The slot the next one is packed against. *)
Definition anchor_ok (q : byte_queue) : Prop :=
  exists a, MemoryBlockPtr q = Some a /\ 0 <= a /\ 0 <= AllocatedSize q.

(** A placement is either [nullptr] or an offset at or above the base. *)
Definition placement_ok (p : pointer) : Prop :=
  match p with
  | Some a => 0 <= a
  | None => True
  end.

(** The number of block moves a state has seen. *)
Definition move_count (s : state) : nat := length (moves (trace s)).

(** Either nothing happened, or a block was moved and the flag is set. *)
Definition quiet_or_moved (flag : bool) (s : state) (flag' : bool) (s' : state)
    : Prop :=
  (s' = s /\ flag' = flag)
  \/ (flag' = true /\ (move_count s < move_count s')%nat).

(** Every active slot of [l] has a capacity above zero. *)
Definition positive_capacities (l : list byte_queue) : bool :=
  forallb (fun q => negb (bIs_Active q) || (0 <? AllocatedSize q)) l.

(** A computation that never ends in a signal handler. *)
Definition never_aborts {A} (m : M A) : Prop := forall s k, m s <> Abort k.

(** A computation that ends in no signal handler but the one of [sig]. *)
Definition aborts_only {A} (sig : signal) (m : M A) : Prop :=
  forall s k, m s = Abort k -> k = sig.

(** A computation that leaves the number of slots of the table alone. *)
Definition keeps_length {A} (m : M A) : Prop :=
  forall s a s', m s = Done a s' -> length (queues s') = length (queues s).

(** ** Compaction for any outcome of [std::sort] *)

(** [std::sort] leaves open in which order it returns two slots that the
    comparison does not order: two active slots at one memory location.
    [reorganize_byte_queues] above keeps them in table order.  What every
    implementation does is fixed by three facts: the result holds the
    slots it was given, it is ordered by the comparison, and the slots are
    looked at through the comparison only, which reads their memory
    location and their activity and nothing else. *)
Definition sorts_by_comparison (sort : list byte_queue -> list byte_queue)
    : Prop :=
  (forall l, Permutation (sort l) l)
  /\ (forall l, StronglySorted not_after (sort l))
  /\ (forall f l,
        (forall q, MemoryBlockPtr (f q) = MemoryBlockPtr q
                   /\ bIs_Active (f q) = bIs_Active q) ->
        sort (map f l) = map f (sort l)).

(** [try_organize_memory] with [sort] in the place of [std::sort]. *)
Definition try_organize_memory_with
    (sort : list byte_queue -> list byte_queue) : M bool :=
  let* qs := get_queues in
  organize_sorted (sort qs).

(** No two slots of [l] that differ are left unordered by the
    comparison. *)
Definition no_ties (l : list byte_queue) : bool :=
  pairwise (fun x y => queue_before x y || queue_before y x || queue_eqb x y)
           l.

(** ** Notions used for the single functions *)

(** [x] lies at an address that is not above the one of [y]. *)
Definition not_above (x y : byte_queue) : Prop :=
  pointer_leb (MemoryBlockPtr x) (MemoryBlockPtr y) = true.

(** The index [k] lies in the block of [n] bytes at offset [a]. *)
Definition in_block (a n k : Z) : bool := (a <=? k) && (k <? a + n).


(** A computation that, whenever it returns, leaves the state it started
    from and the state it ends in related by [R]. *)
Definition preserves {A} (R : state -> state -> Prop) (m : M A) : Prop :=
  forall s a s', m s = Done a s' -> R s s'.

(** Capacity, length and activity of every slot are the same in both
    states. *)
Definition same_meta (s s' : state) : Prop :=
  map meta (queues s') = map meta (queues s).

(** A call that adds a byte to the queue of the first slot or takes one
    from it. *)
Definition on_first_queue (o : op) : bool :=
  match o with
  | Enqueue 0%nat _ | Dequeue 0%nat => true
  | _ => false
  end.

(** The first slot holds the only queue; it lies at the arena base and
    holds the bytes [pending]. *)
Definition single_queue (s : state) (pending : list Z) : Prop :=
  (exists capacity,
     queues s = mk_queue (Some 0) capacity (Z.of_nat (length pending)) true
                  :: replicate 63 empty_queue)
  /\ length (data s) = Z.to_nat MEMORY_ALLOC_SIZE
  /\ contents 0 s = Some pending.
(** ** The layouts written down in the tests of the source *)

(** The final result stated at the end of [Test_Reallocation_3]: the
    slots of q1, q2, q11, q12, q5, q6, q13, q14 in table order. *)
Example Test_Reallocation_3_layout :
  layout_after Test_Reallocation_3
  = Some [(Some 0, 32, 32); (Some 32, 32, 32); (Some 64, 32, 32);
          (Some 96, 32, 32); (Some 192, 64, 33); (Some 160, 32, 32);
          (Some 128, 32, 32); (Some 256, 32, 32)].
Proof. vm_compute. reflexivity. Qed.

(** The final result stated at the end of [Test_Organization]. *)
Example Test_Organization_layout :
  layout_after Test_Organization
  = Some [(Some 0, 32, 32); (Some 32, 32, 32); (Some 64, 32, 32)].
Proof. vm_compute. reflexivity. Qed.

(** [Test_SCSTest] prints 0 1, 2 5 and 3 4 6. *)
Example Test_SCSTest_output :
  let ops := [Create; Enqueue 0 0; Enqueue 0 1; Create; Enqueue 1 3;
              Enqueue 0 2; Enqueue 1 4; Dequeue 0; Dequeue 0; Enqueue 0 5;
              Enqueue 1 6; Dequeue 0; Dequeue 0; Destroy 0 false;
              Dequeue 1; Dequeue 1; Dequeue 1; Destroy 1 false]%nat in
  exists r s, run ops initial_state = Done r s
              /\ dequeued 0 ops r = [0; 1; 2; 5]
              /\ dequeued 1 ops r = [3; 4; 6].
Proof. do 2 eexists. split; [vm_compute; reflexivity|]. split; reflexivity. Qed.

(** [Test_OutOfMemory_2]: the 65th [create_queue] ends in [SIGABRT]. *)
Example Test_OutOfMemory_2_aborts :
  outcome_kind (run (Test_FillQueues ++ [Create]) initial_state)
  = Some (Some SIGABRT).
Proof. vm_compute. reflexivity. Qed.

(** [Test_OutOfMemory]: the 33rd byte for the first of the 64 queues
    makes [get_available_memory_start] compact the table; the capacity of
    the first slot is already 64 then, every other slot is moved up by 32
    bytes, and the move of the last one writes past the end of [data]. *)
Example Test_OutOfMemory_overruns :
  outcome_kind (run (Test_FillQueues ++ [Enqueue 0 5]) initial_state) = None.
Proof. vm_compute. reflexivity. Qed.

(** [Test_InvalidOperation]: [dequeue_byte] on a fresh queue ends in
    [SIGILL]. *)
Example Test_InvalidOperation_aborts :
  outcome_kind (run [Create; Dequeue 0] initial_state) = Some (Some SIGILL).
Proof. vm_compute. reflexivity. Qed.


(** ** Reading a computation that returned *)

Lemma bind_Done {A B} (m : M A) (f : A -> M B) s b s' :
  bind m f s = Done b s' ->
  exists a s1, m s = Done a s1 /\ f a s1 = Done b s'.
Proof.
  unfold bind. destruct (m s) as [a s1| |]; try discriminate. eauto.
Qed.

Lemma ret_Done {A} (a b : A) s s' : ret a s = Done b s' -> b = a /\ s' = s.
Proof. unfold ret. intros H. injection H as -> ->. auto. Qed.

Lemma get_queues_Done s qs s' :
  get_queues s = Done qs s' -> qs = queues s /\ s' = s.
Proof. unfold get_queues. intros H. injection H as <- <-. auto. Qed.

Lemma read_queue_Done i s q s' :
  read_queue i s = Done q s' -> queues s !! i = Some q /\ s' = s.
Proof.
  unfold read_queue. destruct (queues s !! i); try discriminate.
  intros H. injection H as -> ->. auto.
Qed.

Lemma write_queue_Done i q s u s' :
  write_queue i q s = Done u s' ->
  is_Some (queues s !! i)
  /\ s' = mk_state (<[i:=q]> (queues s)) (data s) (trace s).
Proof.
  unfold write_queue. destruct (queues s !! i); try discriminate.
  intros H. injection H as _ <-. eauto.
Qed.

Lemma pointer_add_Done p n s r s' :
  pointer_add p n s = Done r s' ->
  s' = s /\ exists a, p = Some a /\ r = Some (a + n).
Proof.
  destruct p as [a|]; simpl; [|discriminate].
  intros H. apply ret_Done in H as [-> ->]. eauto.
Qed.

Lemma pointer_diff_Done p q s r s' :
  pointer_diff p q s = Done r s' ->
  s' = s /\ exists a b, p = Some a /\ q = Some b /\ r = a - b.
Proof.
  destruct p as [a|], q as [b|]; simpl; try discriminate.
  intros H. apply ret_Done in H as [-> ->]. split; [reflexivity|].
  exists a, b. auto.
Qed.

Lemma store_Done p i v s u s' :
  store p i v s = Done u s' ->
  exists a, p = Some a /\ in_arena (a + i) = true
    /\ s' = mk_state (queues s) (<[Z.to_nat (a + i) := v]> (data s))
                     (Store (a + i) :: trace s).
Proof.
  unfold store. destruct p as [a|]; [|discriminate].
  destruct (in_arena (a + i)) eqn:E; [|discriminate].
  intros H. injection H as _ <-. eauto.
Qed.

Lemma load_Done p i s v s' :
  load p i s = Done v s' ->
  exists a, p = Some a /\ in_arena (a + i) = true
    /\ data s !! Z.to_nat (a + i) = Some v
    /\ s' = mk_state (queues s) (data s) (Load (a + i) :: trace s).
Proof.
  unfold load. destruct p as [a|]; [|discriminate].
  destruct (in_arena (a + i)) eqn:E; [|discriminate].
  destruct (data s !! Z.to_nat (a + i)) eqn:L; [|discriminate].
  intros H. injection H as <- <-. eauto.
Qed.

Lemma memmove_Done dst src n s u s' :
  memmove dst src n s = Done u s' ->
  exists d a, dst = Some d /\ src = Some a
    /\ queues s' = queues s
    /\ trace s' = Move d a n :: trace s.
Proof.
  unfold memmove. destruct dst as [d|], src as [a|]; try discriminate.
  destruct (_ && _); [|discriminate].
  intros H. injection H as _ <-. exists d, a. auto.
Qed.

(** [H : (let* x := m in k) s = Done r s'] is split into the run of [m]
    and the run of [k]. *)
Tactic Notation "bind_inv" hyp(H) "as" ident(x) ident(s) ident(E) :=
  apply bind_Done in H as (x & s & E & H).

(** Closes or simplifies [H : m s = Done r s'] for a computation [m] that
    does not change the state. *)
Ltac done_inv H :=
  lazymatch type of H with
  | ret _ _ = Done _ _ => apply ret_Done in H as [? ?]; subst
  | get_queues _ = Done _ _ => apply get_queues_Done in H as [? ?]; subst
  | read_queue _ _ = Done _ _ => apply read_queue_Done in H as [H ?]; subst
  | undefined _ = Done _ _ => discriminate H
  | on_out_of_memory _ = Done _ _ => discriminate H
  | on_illegal_operation _ = Done _ _ => discriminate H
  end.

(** ** Calls that leave the table alone *)

Lemma for_loop_queues body n :
  (forall i s u s', body i s = Done u s' -> queues s' = queues s) ->
  forall from s u s',
    for_loop n from body s = Done u s' -> queues s' = queues s.
Proof.
  intros Hbody. induction n as [|n IH]; intros from s u s' H; simpl in H.
  - done_inv H. reflexivity.
  - bind_inv H as x s1 E. apply IH in H. apply Hbody in E. congruence.
Qed.

Lemma store_queues p i v s u s' :
  store p i v s = Done u s' -> queues s' = queues s.
Proof. intros H. apply store_Done in H as (a & _ & _ & ->). reflexivity. Qed.

Lemma load_queues p i s v s' :
  load p i s = Done v s' -> queues s' = queues s.
Proof. intros H. apply load_Done in H as (a & _ & _ & _ & ->). reflexivity. Qed.

Lemma relocate_bytes_queues old new n clear s u s' :
  relocate_bytes old new n clear s = Done u s' -> queues s' = queues s.
Proof.
  unfold relocate_bytes. destruct (pointer_eqb new old).
  - intros H. done_inv H. reflexivity.
  - intros H. bind_inv H as x s1 E.
    apply memmove_Done in E as (d & a & _ & _ & Hq & _).
    destruct clear.
    + apply for_loop_queues in H; [congruence|].
      intros. eapply store_queues; eauto.
    + done_inv H. exact Hq.
Qed.

(** ** Equality of slots and the search in the table *)

Lemma pointer_eqb_eq p q : pointer_eqb p q = true <-> p = q.
Proof.
  destruct p as [a|], q as [b|]; simpl; split; intros H;
    try discriminate; try reflexivity.
  - apply Z.eqb_eq in H. congruence.
  - injection H as ->. apply Z.eqb_refl.
Qed.

Lemma queue_eqb_eq a b : queue_eqb a b = true <-> a = b.
Proof.
  unfold queue_eqb. destruct a as [p1 a1 s1 b1], b as [p2 a2 s2 b2]; simpl.
  rewrite !andb_true_iff, pointer_eqb_eq, !Z.eqb_eq, Bool.eqb_true_iff.
  split.
  - intros [[[-> ->] ->] ->]. reflexivity.
  - intros H. injection H as -> -> -> ->. auto.
Qed.

Lemma find_queue_lookup q qs cur :
  qs !! find_queue q qs = Some cur -> cur = q.
Proof.
  induction qs as [|x r IH]; simpl; [discriminate|].
  destruct (queue_eqb x q) eqn:E.
  - simpl. intros H. injection H as <-. apply queue_eqb_eq. exact E.
  - simpl. exact IH.
Qed.

(** ** The sorted copy holds the slots of the table *)

Lemma insert_queue_perm q l : Permutation (insert_queue q l) (q :: l).
Proof.
  induction l as [|x r IH]; simpl; [reflexivity|].
  destruct (queue_before x q); [|reflexivity].
  rewrite IH. apply perm_swap.
Qed.

Lemma reorganize_byte_queues_perm l :
  Permutation (reorganize_byte_queues l) l.
Proof.
  induction l as [|q r IH]; simpl; [reflexivity|].
  rewrite insert_queue_perm. constructor. exact IH.
Qed.

Lemma find_active_elem l q :
  List.find bIs_Active l = Some q -> q ∈ l /\ bIs_Active q = true.
Proof.
  intros H. apply find_some in H as [H1 H2]. split; [|exact H2].
  apply list_elem_of_In. exact H1.
Qed.

(** ** Writing the new location of a slot *)

Lemma set_location_Done q p s u s' :
  set_location q p s = Done u s' ->
  queues s !! find_queue q (queues s) = Some q
  /\ s' = mk_state (<[find_queue q (queues s) := with_location q p]> (queues s))
                   (data s) (trace s).
Proof.
  unfold set_location. intros H.
  bind_inv H as qs s1 E. done_inv E.
  bind_inv H as cur s2 E. done_inv E.
  pose proof (find_queue_lookup _ _ _ E) as ->.
  apply write_queue_Done in H as [_ ->]. auto.
Qed.

(** ** Slots that only change their location *)

Lemma slot_ok_with_location q a :
  slot_ok q -> bIs_Active q = true -> 0 <= a ->
  slot_ok (with_location q (Some a)).
Proof.
  unfold slot_ok, with_location. simpl. intros H Ha Hle.
  rewrite Ha in *. destruct H as (_ & H). split; [eauto|exact H].
Qed.

Lemma table_ok_elem s q : table_ok s -> q ∈ queues s -> slot_ok q.
Proof. unfold table_ok. rewrite Forall_forall. auto. Qed.

Lemma table_ok_lookup s i q : table_ok s -> queues s !! i = Some q -> slot_ok q.
Proof.
  intros H L. eapply table_ok_elem; eauto.
  eapply list_elem_of_lookup_2; eauto.
Qed.

Lemma slot_ok_located q :
  slot_ok q -> bIs_Active q = true ->
  exists a, MemoryBlockPtr q = Some a /\ 0 <= a /\ 0 <= AllocatedSize q.
Proof.
  unfold slot_ok. intros H Ha. rewrite Ha in H.
  destruct H as ((a & Hp & Hle) & _ & ? & ? & _).
  exists a. repeat split; auto. lia.
Qed.

Lemma meta_with_location q p : meta (with_location q p) = meta q.
Proof. reflexivity. Qed.

Lemma meta_insert_same (qs : list byte_queue) i q q' :
  qs !! i = Some q -> meta q' = meta q ->
  map meta (<[i:=q']> qs) = map meta qs.
Proof.
  intros L E. rewrite list_fmap_insert, E.
  apply list_insert_id. rewrite list_lookup_fmap, L. reflexivity.
Qed.

Lemma set_location_ok q a s u s' :
  table_ok s -> bIs_Active q = true -> 0 <= a ->
  set_location q (Some a) s = Done u s' ->
  table_ok s' /\ map meta (queues s') = map meta (queues s).
Proof.
  intros Hok Hact Hle H. apply set_location_Done in H as [L ->]. simpl.
  split.
  - unfold table_ok. simpl. apply Forall_insert; [exact Hok|].
    apply slot_ok_with_location; auto. eapply table_ok_lookup; eauto.
  - eapply meta_insert_same; eauto.
Qed.

(** ** Compaction keeps the table well formed *)


Lemma table_ok_same_queues s s' :
  queues s' = queues s -> table_ok s -> table_ok s'.
Proof. unfold table_ok. intros ->. auto. Qed.

Lemma organize_step_ok next acc s r s' :
  slot_ok next -> anchor_ok (fst acc) -> table_ok s ->
  organize_step next acc s = Done r s' ->
  anchor_ok (fst r) /\ table_ok s'
  /\ map meta (queues s') = map meta (queues s).
Proof.
  intros Hn Ha Hok H. destruct acc as [previous flag]. simpl in Ha.
  unfold organize_step in H. destruct (bIs_Active next) eqn:Act.
  - bind_inv H as start s1 E.
    apply pointer_add_Done in E as (-> & a & Hp & ->).
    destruct Ha as (a' & Hp' & Hle & Hal). rewrite Hp in Hp'.
    injection Hp' as <-.
    destruct (negb (pointer_eqb (Some (a + AllocatedSize previous))
                                (MemoryBlockPtr next))) eqn:Eq.
    + bind_inv H as u1 s1 E1. bind_inv H as u2 s2 E2. done_inv H.
      apply relocate_bytes_queues in E1.
      assert (Hok' : table_ok s1) by (eapply table_ok_same_queues; eauto).
      pose proof (set_location_Done _ _ _ _ _ E2) as [L _].
      eapply set_location_ok in E2 as [Hok2 Hm]; eauto; [|lia].
      split; [|split; [exact Hok2|congruence]].
      simpl. exists (a + AllocatedSize previous). split; [reflexivity|].
      split; [lia|].
      pose proof (table_ok_lookup _ _ _ Hok' L) as Hs.
      apply slot_ok_located in Hs as (? & _ & _ & ?); auto.
    + done_inv H. simpl. split; [|auto].
      apply negb_false_iff, pointer_eqb_eq in Eq.
      apply slot_ok_located in Hn as (b & Hb & ? & ?); auto.
      exists b. auto.
  - done_inv H. simpl. auto.
Qed.

Lemma organize_loop_ok l : forall acc s r s',
  Forall slot_ok l -> anchor_ok (fst acc) -> table_ok s ->
  organize_loop l acc s = Done r s' ->
  table_ok s' /\ map meta (queues s') = map meta (queues s).
Proof.
  induction l as [|next l IH]; intros acc s r s' Hl Ha Hok H; simpl in H.
  - done_inv H. auto.
  - bind_inv H as acc' s1 E. inversion Hl as [|? ? Hn Hl']; subst.
    eapply organize_step_ok in E as (Ha' & Hok' & Hm); eauto.
    eapply IH in H as [Hok2 Hm2]; eauto. split; [exact Hok2|congruence].
Qed.

Lemma sorted_copy_ok s :
  table_ok s -> Forall slot_ok (reorganize_byte_queues (queues s)).
Proof.
  unfold table_ok. intros H.
  eapply Permutation_Forall; [symmetry; apply reorganize_byte_queues_perm|].
  exact H.
Qed.

Lemma try_organize_memory_ok s b s' :
  table_ok s -> try_organize_memory s = Done b s' ->
  table_ok s' /\ map meta (queues s') = map meta (queues s).
Proof.
  intros Hok H. unfold try_organize_memory, organize_sorted in H.
  bind_inv H as qs s1 E. done_inv E.
  pose proof (sorted_copy_ok _ Hok) as Hs.
  destruct (reorganize_byte_queues (queues s)) as [|first rest];
    [done_inv H|].
  inversion Hs as [|? ? Hf Hr]; subst.
  destruct (negb (bIs_Active first)) eqn:Act; [done_inv H; auto|].
  apply negb_false_iff in Act.
  bind_inv H as acc s1 E. bind_inv H as res s2 E0. done_inv H.
  destruct (negb (pointer_eqb (MemoryBlockPtr first) (Some 0))) eqn:Eq.
  - bind_inv E as u1 s3 E1. bind_inv E as u2 s4 E2. done_inv E.
    apply relocate_bytes_queues in E1.
    assert (Hok' : table_ok s3) by (eapply table_ok_same_queues; eauto).
    eapply set_location_ok in E2 as [Hok2 Hm]; eauto; [|lia].
    eapply organize_loop_ok in E0 as [Hok3 Hm3]; eauto.
    + split; [exact Hok3|congruence].
    + simpl. exists 0. split; [reflexivity|]. split; [lia|].
      apply slot_ok_located in Hf as (? & _ & _ & ?); auto.
  - done_inv E.
    eapply organize_loop_ok in E0; eauto. simpl.
    apply slot_ok_located in Hf as (b' & ? & ? & ?); auto. exists b'. auto.
Qed.

(** ** Queries *)

Lemma get_first_queue_Done s r s' :
  get_first_queue s = Done r s' ->
  s' = s /\ r = List.find bIs_Active (reorganize_byte_queues (queues s)).
Proof.
  unfold get_first_queue. intros H.
  bind_inv H as qs s1 E. done_inv E. done_inv H. auto.
Qed.

Lemma get_next_queue_Done p s r s' :
  get_next_queue p s = Done r s' ->
  s' = s /\ r = next_queue_from p false 0 (queues s).
Proof.
  unfold get_next_queue. intros H.
  bind_inv H as qs s1 E. done_inv E. done_inv H. auto.
Qed.

Lemma get_last_queue_Done s r s' :
  get_last_queue s = Done r s' ->
  s' = s
  /\ r = option_map (fun q => find_queue q (queues s))
           (List.find bIs_Active (rev (reorganize_byte_queues (queues s)))).
Proof.
  unfold get_last_queue. intros H.
  bind_inv H as qs s1 E. done_inv E.
  destruct (List.find _ _); done_inv H; auto.
Qed.

Lemma sorted_copy_elem s q :
  q ∈ reorganize_byte_queues (queues s) -> q ∈ queues s.
Proof. intros H. rewrite <- reorganize_byte_queues_perm. exact H. Qed.


Lemma slot_end_ok s q p s1 s2 :
  table_ok s -> q ∈ queues s -> bIs_Active q = true ->
  pointer_add (MemoryBlockPtr q) (AllocatedSize q) s1 = Done p s2 ->
  s2 = s1 /\ exists a, p = Some a /\ 0 <= a.
Proof.
  intros Hok Hin Hact H. apply pointer_add_Done in H as (-> & a & Hp & ->).
  split; [reflexivity|]. eexists. split; [reflexivity|].
  pose proof (table_ok_elem _ _ Hok Hin) as Hs.
  apply slot_ok_located in Hs as (a' & Hp' & ? & ?); auto.
  rewrite Hp in Hp'. injection Hp' as <-. lia.
Qed.

(** The end of the slot [get_last_queue] designates. *)
Lemma tail_pointer_ok s last s1 lq s2 p s3 :
  table_ok s ->
  get_last_queue s = Done last s1 ->
  deref_queue last s1 = Done lq s2 ->
  pointer_add (MemoryBlockPtr lq) (AllocatedSize lq) s2 = Done p s3 ->
  s3 = s /\ exists a, p = Some a /\ 0 <= a.
Proof.
  intros Hok H1 H2 H3. apply get_last_queue_Done in H1 as [-> ->].
  destruct (List.find _ _) as [q|] eqn:F; simpl in H2; [|done_inv H2].
  done_inv H2. apply find_queue_lookup in H2 as ->.
  apply find_active_elem in F as [Hin Hact].
  apply list_elem_of_In, in_rev, list_elem_of_In, sorted_copy_elem in Hin.
  destruct (slot_end_ok _ _ _ _ _ Hok Hin Hact H3) as [-> ?]. auto.
Qed.

Lemma ends_in_arena_Done p n s b s' :
  ends_in_arena p n s = Done b s' -> s' = s.
Proof.
  unfold ends_in_arena. intros H. bind_inv H as e s1 E.
  apply pointer_add_Done in E as [-> _]. done_inv H. reflexivity.
Qed.

Lemma gap_scan_ok n l : forall queue s r s',
  table_ok s -> Forall (fun q => q ∈ queues s) l ->
  queue ∈ queues s -> bIs_Active queue = true ->
  gap_scan n queue l s = Done r s' ->
  s' = s
  /\ match r with
     | Some p => exists a, p = Some a /\ 0 <= a
     | None => True
     end.
Proof.
  induction l as [|t l IH]; intros queue s r s' Hok Hl Hq Hact H; simpl in H.
  - done_inv H. auto.
  - inversion Hl as [|? ? Ht Hl']; subst.
    destruct (negb (bIs_Active t)) eqn:Act; [done_inv H; auto|].
    apply negb_false_iff in Act.
    bind_inv H as e s1 E.
    destruct (slot_end_ok _ _ _ _ _ Hok Hq Hact E) as [-> (a & -> & Ha)].
    bind_inv H as gap s2 E'. apply pointer_diff_Done in E' as [-> _].
    destruct (gap >=? n).
    + done_inv H. eauto.
    + eapply IH; eauto.
Qed.

(** ** Placement keeps the table well formed *)

Lemma first_free_memory_ok n s p s' :
  table_ok s -> first_free_memory n s = Done p s' ->
  table_ok s' /\ map meta (queues s') = map meta (queues s)
  /\ placement_ok p.
Proof.
  intros Hok H. unfold first_free_memory in H.
  bind_inv H as first s1 E. apply get_first_queue_Done in E as [-> ->].
  destruct (List.find _ _) as [queue|] eqn:F.
  2:{ done_inv H. simpl. repeat split; auto. lia. }
  apply find_active_elem in F as [Hin Hact]. apply sorted_copy_elem in Hin.
  destruct (negb (pointer_eqb (Some 0) (MemoryBlockPtr queue))).
  - destruct (pointer_leb _ _).
    { done_inv H. simpl. repeat split; auto. lia. }
    bind_inv H as organized s1 E.
    apply try_organize_memory_ok in E as [Hok1 Hm1]; auto.
    destruct (negb organized); [done_inv H; simpl; auto|].
    bind_inv H as last s2 E1. bind_inv H as lq s3 E2.
    bind_inv H as start s4 E3.
    destruct (tail_pointer_ok _ _ _ _ _ _ _ Hok1 E1 E2 E3)
      as [-> (a & -> & Ha)].
    bind_inv H as fits s5 E4. apply ends_in_arena_Done in E4 as ->.
    destruct fits; done_inv H; simpl; auto.
  - bind_inv H as node s1 E. apply get_next_queue_Done in E as [-> ->].
    destruct (next_queue_from _ _ _ _).
    2:{ destruct (slot_end_ok _ _ _ _ _ Hok Hin Hact H) as [-> (a & -> & Ha)].
        simpl. auto. }
    bind_inv H as qs s1 E. done_inv E.
    bind_inv H as gap s1 E.
    eapply gap_scan_ok in E as [-> Hg]; eauto.
    2:{ apply Forall_forall. intros q Hq. apply sorted_copy_elem.
        eapply subseteq_drop. exact Hq. }
    destruct gap as [p'|].
    { done_inv H. destruct Hg as (a & -> & Ha). simpl. auto. }
    bind_inv H as last s2 E1. bind_inv H as lq s3 E2.
    bind_inv H as start s4 E3.
    destruct (tail_pointer_ok _ _ _ _ _ _ _ Hok E1 E2 E3)
      as [-> (a & -> & Ha)].
    bind_inv H as fits s5 E4. apply ends_in_arena_Done in E4 as ->.
    destruct fits; [done_inv H; simpl; auto|].
    bind_inv H as organized s1 E.
    apply try_organize_memory_ok in E as [Hok1 Hm1]; auto.
    destruct (negb organized); [done_inv H; simpl; auto|].
    bind_inv H as last2 s6 E5. bind_inv H as lq2 s7 E6.
    bind_inv H as start2 s8 E7.
    destruct (tail_pointer_ok _ _ _ _ _ _ _ Hok1 E5 E6 E7)
      as [-> (a2 & -> & Ha2)].
    bind_inv H as fits2 s9 E8. apply ends_in_arena_Done in E8 as ->.
    destruct fits2; done_inv H; simpl; auto.
Qed.

Lemma get_available_memory_start_ok h n s p s' :
  table_ok s -> get_available_memory_start h n s = Done p s' ->
  table_ok s' /\ map meta (queues s') = map meta (queues s)
  /\ exists a, p = Some a /\ 0 <= a.
Proof.
  intros Hok H. unfold get_available_memory_start in H.
  bind_inv H as queue s1 L. done_inv L.
  bind_inv H as node s1 E. apply get_next_queue_Done in E as [-> ->].
  destruct (next_queue_from _ _ _ _) as [i|].
  2:{ done_inv H. repeat split; auto. exists 0. split; [reflexivity|lia]. }
  bind_inv H as next s1 E. done_inv E.
  bind_inv H as gap s1 E'.
  apply pointer_diff_Done in E' as (-> & a & b & Ha & Hb & ->).
  destruct (a - b >=? n).
  { done_inv H. repeat split; auto. exists b. split; [exact Hb|].
    pose proof (table_ok_lookup _ _ _ Hok L) as Hs.
    destruct (bIs_Active queue) eqn:Act.
    - apply slot_ok_located in Hs as (b' & Hb' & ? & _); auto.
      rewrite Hb in Hb'. injection Hb' as <-. assumption.
    - unfold slot_ok in Hs. rewrite Act in Hs. subst queue. discriminate. }
  bind_inv H as last s1 E1.
  destruct last as [l|].
  2:{ apply get_last_queue_Done in E1 as [-> _]. done_inv H.
      repeat split; auto. exists 0. split; [reflexivity|lia]. }
  bind_inv H as lq s2 E2. bind_inv H as start s3 E3.
  change (read_queue l s1) with (deref_queue (Some l) s1) in E2.
  destruct (tail_pointer_ok _ _ _ _ _ _ _ Hok E1 E2 E3)
    as [-> (c & -> & Hc)].
  bind_inv H as fits s4 E4. apply ends_in_arena_Done in E4 as ->.
  destruct (negb fits); [|done_inv H; repeat split; eauto].
  bind_inv H as organized s4 E5.
  apply try_organize_memory_ok in E5 as [Hok1 Hm1]; auto.
  bind_inv H as u1 s5 E6.
  assert (s5 = s4) as ->
    by (destruct (negb organized); done_inv E6; reflexivity).
  bind_inv H as last2 s6 E7. bind_inv H as lq2 s7 E8.
  bind_inv H as start2 s8 E9.
  destruct (tail_pointer_ok _ _ _ _ _ _ _ Hok1 E7 E8 E9)
    as [-> (c2 & -> & Hc2)].
  bind_inv H as fits2 s9 E10. apply ends_in_arena_Done in E10 as ->.
  bind_inv H as u2 s10 E11.
  assert (s10 = s4) as ->
    by (destruct (negb fits2); done_inv E11; reflexivity).
  done_inv H. repeat split; eauto.
Qed.

(** ** The public operations keep the table well formed *)

Lemma uint_small x : 0 <= x < 2 ^ 32 -> uint x = x.
Proof. intros H. unfold uint. apply Z.mod_small. exact H. Qed.

Lemma table_ok_write i q s u s' :
  table_ok s -> slot_ok q -> write_queue i q s = Done u s' -> table_ok s'.
Proof.
  intros Hok Hq H. apply write_queue_Done in H as [_ ->].
  unfold table_ok. simpl. apply Forall_insert; assumption.
Qed.

Lemma slot_ok_empty : slot_ok empty_queue.
Proof. reflexivity. Qed.

Lemma slot_ok_fresh a :
  0 <= a -> slot_ok (mk_queue (Some a) DEFAULT_ALLOC_SIZE 0 true).
Proof.
  intros Ha. unfold slot_ok. simpl.
  unfold DEFAULT_ALLOC_SIZE, MEMORY_ALLOC_SIZE.
  split; [eauto|]. split; [exists 1; reflexivity|]. lia.
Qed.

Lemma table_ok_initial : table_ok initial_state.
Proof.
  unfold table_ok, initial_state, queues.
  apply Forall_forall. intros q Hq. apply elem_of_replicate in Hq as [-> _].
  apply slot_ok_empty.
Qed.

Lemma create_queue_ok s h s' :
  table_ok s -> create_queue s = Done h s' -> table_ok s'.
Proof.
  intros Hok H. unfold create_queue in H.
  bind_inv H as start s1 E.
  apply first_free_memory_ok in E as (Hok1 & _ & Hp); auto.
  bind_inv H as u s2 E1.
  destruct start as [a|]; [|done_inv E1]. done_inv E1. simpl in Hp.
  bind_inv H as result s3 E2.
  assert (Hok3 : table_ok s3).
  { unfold add_byte_queue in E2. bind_inv E2 as qs s4 E3. done_inv E3.
    destruct (first_inactive 0 (queues _)) as [i|]; [|done_inv E2; auto].
    bind_inv E2 as u2 s4 E4. done_inv E2.
    eapply table_ok_write; eauto. apply slot_ok_fresh. exact Hp. }
  destruct result as [r|]; [|done_inv H].
  bind_inv H as u3 s5 E5. done_inv H.
  eapply table_ok_write; eauto. apply slot_ok_fresh. exact Hp.
Qed.

Lemma destroy_queue_ok h clear s u s' :
  table_ok s -> destroy_queue h clear s = Done u s' -> table_ok s'.
Proof.
  intros Hok H. unfold destroy_queue in H.
  bind_inv H as queue s1 L. done_inv L.
  bind_inv H as u1 s2 E.
  assert (Hq : queues s2 = queues s).
  { destruct clear; [|done_inv E; reflexivity].
    eapply for_loop_queues in E; eauto. intros. eapply store_queues; eauto. }
  eapply table_ok_write; [|apply slot_ok_empty|exact H].
  eapply table_ok_same_queues; eauto.
Qed.

Lemma dequeue_byte_ok h s b s' :
  table_ok s -> dequeue_byte h s = Done b s' -> table_ok s'.
Proof.
  intros Hok H. unfold dequeue_byte in H.
  bind_inv H as queue s1 L. done_inv L.
  pose proof (table_ok_lookup _ _ _ Hok L) as Hs.
  bind_inv H as u1 s2 E.
  destruct (Size queue =? 0) eqn:Z0; [done_inv E|]. done_inv E.
  apply Z.eqb_neq in Z0.
  bind_inv H as removed s3 E1. apply load_queues in E1.
  bind_inv H as u2 s4 E2.
  eapply for_loop_queues in E2.
  2:{ intros i t u t' Hb. bind_inv Hb as v t1 Hl.
      apply load_queues in Hl. apply store_queues in Hb. congruence. }
  bind_inv H as u3 s5 E3. apply store_queues in E3.
  bind_inv H as u4 s6 E4. done_inv H.
  eapply table_ok_write; [| |exact E4].
  { eapply table_ok_same_queues; [|exact Hok]. congruence. }
  unfold slot_ok in *. simpl.
  destruct (bIs_Active queue) eqn:Act.
  2:{ subst queue. simpl in Z0. congruence. }
  destruct Hs as (Hp & (k & Hk) & Hs0 & [Hlo Hhi] & Hb).
  unfold DEFAULT_ALLOC_SIZE, MEMORY_ALLOC_SIZE in *.
  rewrite (uint_small (Size queue - 1)) by lia.
  rewrite (uint_small (AllocatedSize queue - 32)) by lia.
  split; [exact Hp|].
  destruct (Size queue - 1 <=? AllocatedSize queue - 32) eqn:Sh.
  - apply Z.leb_le in Sh. split; [exists (k - 1); lia|]. lia.
  - apply Z.leb_gt in Sh. split; [exists k; lia|]. lia.
Qed.

(** Growth asked for a slot without a location finds the arena base. *)
Lemma growth_placement_without_location h n s q p s' :
  queues s !! h = Some q -> MemoryBlockPtr q = None ->
  get_available_memory_start h n s = Done p s' -> p = Some 0.
Proof.
  intros L Hp H. unfold get_available_memory_start in H.
  bind_inv H as queue s1 L'. done_inv L'. rewrite L in L'.
  injection L' as <-.
  bind_inv H as node s1 E. apply get_next_queue_Done in E as [-> ->].
  destruct (next_queue_from _ _ _ _) as [i|]; [|done_inv H; reflexivity].
  bind_inv H as next s1 E. done_inv E.
  bind_inv H as gap s1 E'.
  apply pointer_diff_Done in E' as (_ & a & b & _ & Hb & _). congruence.
Qed.

Lemma relocate_bytes_from_null a n clear s u s' :
  relocate_bytes None (Some a) n clear s = Done u s' -> False.
Proof.
  unfold relocate_bytes. simpl. intros H. bind_inv H as x s1 E.
  apply memmove_Done in E as (d & b & _ & Hb & _). discriminate.
Qed.

Lemma meta_lookup (qs qs' : list byte_queue) i q q' :
  map meta qs' = map meta qs -> qs !! i = Some q -> qs' !! i = Some q' ->
  meta q' = meta q.
Proof.
  intros Hm L L'.
  assert (H : map meta qs' !! i = map meta qs !! i)
    by (rewrite Hm; reflexivity).
  rewrite !list_lookup_fmap, L, L' in H. simpl in H. congruence.
Qed.

Lemma lookup_write_same (qs : list byte_queue) i q x :
  qs !! i = Some x -> <[i:=q]> qs !! i = Some q.
Proof. intros L. apply list_lookup_insert_eq. eapply lookup_lt_Some; eauto. Qed.

(** The first part of [enqueue_byte]: afterwards the slot has room for
    one more byte. *)
Lemma enqueue_room h queue s u s' :
  table_ok s -> queues s !! h = Some queue -> bIs_Active queue = true ->
  (if uint (Size queue + 1) >? AllocatedSize queue then
     let lastPosition := MemoryBlockPtr queue in
     let lastSize := AllocatedSize queue in
     let grown := uint (AllocatedSize queue + DEFAULT_ALLOC_SIZE) in
     let* _ := write_queue h (mk_queue (MemoryBlockPtr queue) grown
                                       (Size queue) (bIs_Active queue)) in
     let* p := get_available_memory_start h grown in
     let* moved := read_queue h in
     let* _ := write_queue h (with_location moved p) in
     relocate_bytes lastPosition p lastSize true
   else ret tt) s = Done u s' ->
  table_ok s'
  /\ exists q, queues s' !! h = Some q /\ bIs_Active q = true
       /\ Size q = Size queue /\ Size queue + 1 <= AllocatedSize q.
Proof.
  intros Hok L Act H.
  pose proof (table_ok_lookup _ _ _ Hok L) as Hs.
  unfold slot_ok in Hs. rewrite Act in Hs.
  destruct Hs as (Hp & (k & Hk) & Hs0 & [Hlo Hhi] & Hb).
  unfold DEFAULT_ALLOC_SIZE, MEMORY_ALLOC_SIZE in *.
  rewrite (uint_small (Size queue + 1)) in H by lia.
  destruct (Size queue + 1 >? AllocatedSize queue) eqn:G.
  - apply Z.gtb_lt in G.
    rewrite (uint_small (AllocatedSize queue + 32)) in H by lia.
    cbv zeta in H.
    bind_inv H as u1 s1 E1.
    assert (Hok1 : table_ok s1).
    { eapply table_ok_write; [exact Hok| |exact E1].
      unfold slot_ok. simpl. rewrite Act.
      unfold DEFAULT_ALLOC_SIZE, MEMORY_ALLOC_SIZE.
      split; [exact Hp|]. split; [exists (k + 1); lia|]. lia. }
    apply write_queue_Done in E1 as [_ ->].
    bind_inv H as p s2 E2.
    apply get_available_memory_start_ok in E2 as (Hok2 & Hm & a & -> & Ha);
      [|exact Hok1].
    bind_inv H as moved s3 E3. done_inv E3.
    simpl in Hm.
    pose proof (meta_lookup _ _ _ _ _ Hm (lookup_write_same _ _ _ _ L) E3)
      as Hmeta.
    unfold meta in Hmeta. simpl in Hmeta. injection Hmeta as HA HS HB.
    bind_inv H as u2 s3 E4.
    assert (Hok3 : table_ok s3).
    { eapply table_ok_write; [exact Hok2| |exact E4].
      apply slot_ok_with_location; [|congruence|exact Ha].
      exact (table_ok_lookup _ _ _ Hok2 E3). }
    apply write_queue_Done in E4 as [_ ->].
    apply relocate_bytes_queues in H. simpl in H.
    split.
    { unfold table_ok in *. rewrite H. exact Hok3. }
    exists (with_location moved (Some a)). rewrite H.
    split; [eapply lookup_write_same; eauto|]. simpl.
    repeat split; [congruence|congruence|lia].
  - done_inv H. split; [exact Hok|]. exists queue.
    repeat split; auto. rewrite Z.gtb_ltb in G. apply Z.ltb_ge in G. lia.
Qed.

Lemma enqueue_byte_ok h byte s u s' :
  table_ok s -> enqueue_byte h byte s = Done u s' -> table_ok s'.
Proof.
  intros Hok H. unfold enqueue_byte in H.
  bind_inv H as queue s1 L. done_inv L.
  pose proof (table_ok_lookup _ _ _ Hok L) as Hs.
  bind_inv H as u1 s1 E.
  destruct (Bool.bool_dec (bIs_Active queue) true) as [Act|Act].
  2:{ exfalso. apply not_true_is_false in Act.
      unfold slot_ok in Hs. rewrite Act in Hs. subst queue.
      simpl in E. change (uint (0 + 1) >? 0) with true in E. cbv iota in E.
      bind_inv E as u2 s2 E1. apply write_queue_Done in E1 as [_ ->].
      bind_inv E as p s3 E2.
      eapply growth_placement_without_location in E2 as Hp;
        [|simpl; eapply lookup_write_same; eauto|reflexivity].
      subst p.
      bind_inv E as moved s4 E3. bind_inv E as u3 s5 E4.
      eapply relocate_bytes_from_null; eauto. }
  eapply enqueue_room in E as (Hok1 & q & Lq & Actq & Sq & Room); eauto.
  bind_inv H as queue2 s2 L2. done_inv L2. rewrite Lq in L2.
  injection L2 as <-.
  bind_inv H as u2 s2 E2.
  apply store_Done in E2 as (a & Hp & Hin & ->).
  eapply table_ok_write; [| |exact H].
  { eapply table_ok_same_queues; [|exact Hok1]. reflexivity. }
  pose proof (table_ok_lookup _ _ _ Hok1 Lq) as Hq.
  unfold slot_ok in *. simpl. rewrite Actq in *.
  destruct Hq as ((a' & Hp' & Ha') & Hdiv & Hs0 & [Hlo Hhi] & Hb).
  rewrite Hp in Hp'. injection Hp' as <-.
  unfold in_arena, DEFAULT_ALLOC_SIZE, MEMORY_ALLOC_SIZE in *.
  apply andb_true_iff in Hin as [_ Hin]. apply Z.ltb_lt in Hin.
  rewrite (uint_small (Size q + 1)) by lia.
  split; [eauto|]. split; [exact Hdiv|]. lia.
Qed.

(** ** Every sequence of calls keeps the table well formed *)

Lemma step_ok o s r s' : table_ok s -> step o s = Done r s' -> table_ok s'.
Proof.
  intros Hok H. destruct o; simpl in H; bind_inv H as x s1 E; done_inv H.
  - eapply create_queue_ok; eauto.
  - eapply destroy_queue_ok; eauto.
  - eapply enqueue_byte_ok; eauto.
  - eapply dequeue_byte_ok; eauto.
  - eapply try_organize_memory_ok; eauto.
Qed.

Lemma run_ok ops : forall s r s',
  table_ok s -> run ops s = Done r s' -> table_ok s'.
Proof.
  induction ops as [|o ops IH]; intros s r s' Hok H; simpl in H.
  - done_inv H. exact Hok.
  - bind_inv H as x s1 E. bind_inv H as xs s2 E'. done_inv H.
    eapply IH; [|exact E']. eapply step_ok; eauto.
Qed.


(** ** The flag of compaction counts block moves *)


Lemma store_move_count p i v s u s' :
  store p i v s = Done u s' -> move_count s' = move_count s.
Proof. intros H. apply store_Done in H as (a & _ & _ & ->). reflexivity. Qed.

Lemma for_loop_move_count body n :
  (forall i s u s', body i s = Done u s' -> move_count s' = move_count s) ->
  forall from s u s',
    for_loop n from body s = Done u s' -> move_count s' = move_count s.
Proof.
  intros Hbody. induction n as [|n IH]; intros from s u s' H; simpl in H.
  - done_inv H. reflexivity.
  - bind_inv H as x s1 E. apply IH in H. apply Hbody in E. congruence.
Qed.

Lemma relocate_bytes_move_count old new n clear s u s' :
  pointer_eqb new old = false ->
  relocate_bytes old new n clear s = Done u s' ->
  move_count s' = S (move_count s).
Proof.
  unfold relocate_bytes. intros -> H. bind_inv H as x s1 E.
  apply memmove_Done in E as (d & a & _ & _ & _ & Ht).
  assert (Hs1 : move_count s1 = S (move_count s)).
  { unfold move_count. rewrite Ht. simpl. rewrite length_app. simpl. lia. }
  destruct clear.
  - eapply for_loop_move_count in H; [congruence|].
    intros. eapply store_move_count; eauto.
  - done_inv H. exact Hs1.
Qed.

Lemma set_location_move_count q p s u s' :
  set_location q p s = Done u s' -> move_count s' = move_count s.
Proof. intros H. apply set_location_Done in H as [_ ->]. reflexivity. Qed.

Lemma pointer_eqb_sym p q : pointer_eqb p q = pointer_eqb q p.
Proof.
  destruct p as [a|], q as [b|]; simpl; try reflexivity. apply Z.eqb_sym.
Qed.


Lemma organize_step_flag next previous flag s r s' :
  organize_step next (previous, flag) s = Done r s' ->
  quiet_or_moved flag s (snd r) s'.
Proof.
  unfold organize_step. intros H.
  destruct (bIs_Active next); [|done_inv H; left; auto].
  bind_inv H as start s1 E. apply pointer_add_Done in E as (-> & a & _ & ->).
  destruct (negb (pointer_eqb _ _)) eqn:Eq; [|done_inv H; left; auto].
  apply negb_true_iff in Eq.
  bind_inv H as u1 s1 E1. bind_inv H as u2 s2 E2. done_inv H.
  apply relocate_bytes_move_count in E1; [|exact Eq].
  apply set_location_move_count in E2. right. simpl. split; [reflexivity|lia].
Qed.

Lemma quiet_or_moved_trans f0 s0 f1 s1 f2 s2 :
  quiet_or_moved f0 s0 f1 s1 -> quiet_or_moved f1 s1 f2 s2 ->
  quiet_or_moved f0 s0 f2 s2.
Proof.
  unfold quiet_or_moved.
  intros [[-> ->]|[-> H1]] [[-> ->]|[-> H2]]; auto.
  right. split; [reflexivity|lia].
Qed.

Lemma organize_loop_flag l : forall previous flag s r s',
  organize_loop l (previous, flag) s = Done r s' ->
  quiet_or_moved flag s (snd r) s'.
Proof.
  induction l as [|next l IH]; intros previous flag s r s' H; simpl in H.
  - done_inv H. left. auto.
  - bind_inv H as acc s1 E. apply organize_step_flag in E.
    destruct acc as [previous' flag']. apply IH in H.
    eapply quiet_or_moved_trans; eauto.
Qed.

Lemma try_organize_memory_with_flag sort s b s' :
  try_organize_memory_with sort s = Done b s' -> quiet_or_moved false s b s'.
Proof.
  unfold try_organize_memory_with, organize_sorted. intros H.
  bind_inv H as qs s1 E. done_inv E.
  destruct (sort (queues s)) as [|first rest]; [done_inv H|].
  destruct (negb (bIs_Active first)); [done_inv H; left; auto|].
  bind_inv H as acc s1 E. bind_inv H as res s2 E0. done_inv H.
  destruct acc as [previous flag]. apply organize_loop_flag in E0.
  eapply quiet_or_moved_trans; [|exact E0].
  destruct (negb (pointer_eqb _ _)) eqn:Eq.
  - apply negb_true_iff in Eq.
    bind_inv E as u1 s3 E1. bind_inv E as u2 s4 E2.
    apply ret_Done in E as [E ->]. injection E as -> ->.
    apply relocate_bytes_move_count in E1;
      [|rewrite pointer_eqb_sym; exact Eq].
    apply set_location_move_count in E2. right. split; [reflexivity|lia].
  - apply ret_Done in E as [E ->]. injection E as -> ->. left. auto.
Qed.

Lemma try_organize_memory_flag s b s' :
  try_organize_memory s = Done b s' -> quiet_or_moved false s b s'.
Proof. exact (try_organize_memory_with_flag reorganize_byte_queues s b s'). Qed.

(** ** What compaction leaves in the table *)

Lemma with_location_same q p : MemoryBlockPtr q = p -> with_location q p = q.
Proof. intros <-. destruct q. reflexivity. Qed.

Lemma insert_Permutation (qs : list byte_queue) i x y before after :
  qs !! i = Some y ->
  Permutation qs (before ++ y :: after) ->
  Permutation (<[i:=x]> qs) (before ++ x :: after).
Proof.
  intros L H.
  assert (Hlt : (i < length qs)%nat) by (eapply lookup_lt_Some; eauto).
  rewrite insert_take_drop by exact Hlt.
  rewrite <- (take_drop_middle qs i y L) in H.
  apply Permutation_app_inv in H. apply Permutation_elt. exact H.
Qed.

Lemma organize_loop_pack l : forall previous flag s r s' a before,
  MemoryBlockPtr previous = Some a ->
  organize_loop l (previous, flag) s = Done r s' ->
  Permutation (queues s) (before ++ l) ->
  Permutation (queues s')
              (before ++ pack_from (a + AllocatedSize previous) l).
Proof.
  induction l as [|next l IH]; intros previous flag s r s' a before Hp H Hperm;
    simpl in H.
  - done_inv H. exact Hperm.
  - bind_inv H as acc s1 E. unfold organize_step in E. simpl.
    destruct (bIs_Active next).
    + bind_inv E as start s2 E1.
      apply pointer_add_Done in E1 as (-> & a' & Hp' & ->).
      rewrite Hp in Hp'. injection Hp' as <-.
      destruct (negb (pointer_eqb _ _)) eqn:Eq.
      * bind_inv E as u1 s3 E1. bind_inv E as u2 s4 E2.
        apply ret_Done in E as [-> ->].
        apply relocate_bytes_queues in E1.
        apply set_location_Done in E2 as [L ->]. rewrite E1 in L.
        eapply (IH _ _ _ _ _ _ (before ++ [with_location next _])) in H.
        -- rewrite <- app_assoc in H. exact H.
        -- reflexivity.
        -- simpl. rewrite <- app_assoc. simpl. rewrite E1.
           eapply insert_Permutation; eauto.
      * apply ret_Done in E as [-> ->].
        apply negb_false_iff, pointer_eqb_eq in Eq.
        rewrite (with_location_same next) by (symmetry; exact Eq).
        eapply (IH _ _ _ _ _ _ (before ++ [next])) in H.
        -- rewrite <- app_assoc in H. exact H.
        -- symmetry. exact Eq.
        -- rewrite <- app_assoc. exact Hperm.
    + apply ret_Done in E as [-> ->].
      eapply (IH _ _ _ _ _ _ (before ++ [next])) in H.
      * rewrite <- app_assoc in H. exact H.
      * exact Hp.
      * rewrite <- app_assoc. exact Hperm.
Qed.

Lemma try_organize_memory_with_pack sort s b s' first rest :
  (forall l, Permutation (sort l) l) ->
  try_organize_memory_with sort s = Done b s' ->
  sort (queues s) = first :: rest ->
  bIs_Active first = true ->
  Permutation (queues s') (pack_from 0 (first :: rest)).
Proof.
  unfold try_organize_memory_with, organize_sorted. intros Hsort H Hs Act.
  bind_inv H as qs s1 E. done_inv E. rewrite Hs, Act in H. simpl in H.
  bind_inv H as acc s1 E. bind_inv H as res s2 E0. done_inv H.
  simpl. rewrite Act.
  assert (Hperm : Permutation (queues s) ([] ++ first :: rest)).
  { simpl. rewrite <- Hs. symmetry. apply Hsort. }
  destruct (negb (pointer_eqb _ _)) eqn:Eq.
  - bind_inv E as u1 s3 E1. bind_inv E as u2 s4 E2.
    apply ret_Done in E as [-> ->].
    apply relocate_bytes_queues in E1.
    apply set_location_Done in E2 as [L ->]. rewrite E1 in L.
    eapply (organize_loop_pack _ _ _ _ _ _ _ [with_location first (Some 0)])
      in E0; [exact E0|reflexivity|].
    simpl. rewrite E1.
    apply (insert_Permutation _ _ _ _ [] rest L Hperm).
  - apply ret_Done in E as [-> ->].
    apply negb_false_iff, pointer_eqb_eq in Eq.
    rewrite (with_location_same first) by exact Eq.
    eapply (organize_loop_pack _ _ _ _ _ _ _ [first]) in E0;
      [exact E0|exact Eq|exact Hperm].
Qed.

Lemma try_organize_memory_pack s b s' first rest :
  try_organize_memory s = Done b s' ->
  reorganize_byte_queues (queues s) = first :: rest ->
  bIs_Active first = true ->
  Permutation (queues s') (pack_from 0 (first :: rest)).
Proof.
  apply (try_organize_memory_with_pack reorganize_byte_queues).
  exact reorganize_byte_queues_perm.
Qed.

(** ** A packed table is left alone *)

Lemma packed_from_pack l : forall a, packed_from a (pack_from a l).
Proof.
  induction l as [|q l IH]; intros a; simpl; [exact I|].
  destruct (bIs_Active q) eqn:Act; simpl; rewrite Act; auto.
Qed.

Lemma packed_from_active l : forall a,
  packed_from a l <-> packed_from a (List.filter bIs_Active l).
Proof.
  induction l as [|q l IH]; intros a; simpl; [reflexivity|].
  destruct (bIs_Active q) eqn:Act; simpl; [rewrite Act|]; rewrite IH;
    reflexivity.
Qed.

Lemma organize_loop_packed l : forall previous flag s a,
  MemoryBlockPtr previous = Some a ->
  packed_from (a + AllocatedSize previous) l ->
  exists previous',
    organize_loop l (previous, flag) s = Done (previous', flag) s.
Proof.
  induction l as [|next l IH]; intros previous flag s a Hp Hl; simpl.
  - eexists. reflexivity.
  - simpl in Hl. unfold bind, organize_step.
    destruct (bIs_Active next).
    + destruct Hl as [Hn Hl]. rewrite Hp. simpl. unfold bind, ret. simpl.
      rewrite Hn. simpl. rewrite Z.eqb_refl. simpl.
      apply (IH next flag s _ Hn Hl).
    + simpl. apply (IH previous flag s _ Hp Hl).
Qed.

Lemma try_organize_memory_with_packed sort s :
  sort (queues s) <> [] -> packed_from 0 (sort (queues s)) ->
  try_organize_memory_with sort s = Done false s.
Proof.
  intros Hne Hp.
  unfold try_organize_memory_with, organize_sorted, bind, get_queues.
  destruct (sort (queues s)) as [|first rest]; [congruence|].
  simpl in Hp. destruct (bIs_Active first); simpl; [|reflexivity].
  destruct Hp as [Hf Hr]. rewrite Hf. simpl. unfold ret at 1.
  destruct (organize_loop_packed rest first false s 0 Hf Hr) as [p ->].
  reflexivity.
Qed.

Lemma try_organize_memory_packed s :
  reorganize_byte_queues (queues s) <> [] ->
  packed_from 0 (reorganize_byte_queues (queues s)) ->
  try_organize_memory s = Done false s.
Proof. exact (try_organize_memory_with_packed reorganize_byte_queues s). Qed.

(** ** The sorted copy is sorted *)

Lemma queue_before_asym x y : queue_before x y = true -> not_after x y.
Proof.
  unfold not_after, queue_before.
  destruct (bIs_Active x), (bIs_Active y); simpl; try discriminate; auto.
  - destruct (MemoryBlockPtr x), (MemoryBlockPtr y); simpl;
      try discriminate; auto.
    rewrite Z.ltb_lt, Z.ltb_ge. lia.
  - destruct (MemoryBlockPtr x), (MemoryBlockPtr y); simpl;
      try discriminate; auto.
    rewrite Z.ltb_lt, Z.ltb_ge. lia.
Qed.

Lemma not_after_trans x y z : not_after x y -> not_after y z -> not_after x z.
Proof.
  unfold not_after, queue_before.
  destruct (bIs_Active x), (bIs_Active y), (bIs_Active z); simpl;
    try discriminate; auto;
    destruct (MemoryBlockPtr x), (MemoryBlockPtr y), (MemoryBlockPtr z);
    simpl; try discriminate; auto;
    rewrite !Z.ltb_ge; lia.
Qed.

Lemma insert_queue_sorted q l :
  StronglySorted not_after l -> StronglySorted not_after (insert_queue q l).
Proof.
  induction l as [|x r IH]; intros H; simpl.
  - repeat constructor.
  - apply StronglySorted_inv in H as [Hr Hx].
    destruct (queue_before x q) eqn:B.
    + constructor; [apply IH; exact Hr|].
      eapply Permutation_Forall; [symmetry; apply insert_queue_perm|].
      constructor; [apply queue_before_asym; exact B|exact Hx].
    + constructor; [constructor; assumption|].
      constructor; [exact B|].
      eapply Forall_impl; [exact Hx|]. intros z Hz.
      eapply not_after_trans; [exact B|exact Hz].
Qed.

Lemma reorganize_byte_queues_sorted l :
  StronglySorted not_after (reorganize_byte_queues l).
Proof.
  induction l as [|q r IH]; simpl; [constructor|].
  apply insert_queue_sorted. exact IH.
Qed.

Lemma filter_sorted {A} (R : A -> A -> Prop) f l :
  StronglySorted R l -> StronglySorted R (List.filter f l).
Proof.
  induction l as [|x l IH]; intros H; simpl; [constructor|].
  apply StronglySorted_inv in H as [Hl Hx].
  destruct (f x); [|auto]. constructor; [auto|].
  apply Forall_forall. intros y Hy.
  apply list_elem_of_In, filter_In in Hy as [Hy _].
  rewrite Forall_forall in Hx. apply Hx, list_elem_of_In. exact Hy.
Qed.

Lemma filter_Permutation_bool {A} (f : A -> bool) l l' :
  Permutation l l' -> Permutation (List.filter f l) (List.filter f l').
Proof.
  induction 1 as [|x l l' _ IH|x y l|l l' l'' _ IH1 _ IH2]; simpl.
  - constructor.
  - destruct (f x); [constructor|]; exact IH.
  - destruct (f x), (f y); try reflexivity. apply perm_swap.
  - etransitivity; eauto.
Qed.

(** ** Two orderings of the same active slots *)

Lemma below_not_after x y :
  bIs_Active x = true -> bIs_Active y = true ->
  below x y -> not_after y x -> False.
Proof.
  unfold below, not_after, queue_before. intros -> ->. simpl. congruence.
Qed.

Lemma sorted_active_unique l1 : forall l2,
  Forall (fun q => bIs_Active q = true) l1 ->
  StronglySorted below l1 -> StronglySorted not_after l2 ->
  Permutation l1 l2 -> l1 = l2.
Proof.
  induction l1 as [|x l1 IH]; intros l2 Hact H1 H2 Hperm.
  - apply Permutation_nil in Hperm. congruence.
  - destruct l2 as [|y l2];
      [symmetry in Hperm; apply Permutation_nil in Hperm; discriminate|].
    apply StronglySorted_inv in H1 as [H1 Hx].
    apply StronglySorted_inv in H2 as [H2 Hy].
    inversion Hact as [|? ? Ax Hact']; subst.
    assert (Hxy : x = y).
    { assert (Hx2 : In x (y :: l2))
        by (eapply Permutation_in; [exact Hperm|left; reflexivity]).
      assert (Hy1 : In y (x :: l1))
        by (eapply Permutation_in; [symmetry; exact Hperm|left; reflexivity]).
      destruct Hx2 as [->|Hx2]; [reflexivity|].
      destruct Hy1 as [->|Hy1]; [reflexivity|].
      exfalso. rewrite Forall_forall in Hx, Hy, Hact'.
      apply list_elem_of_In in Hx2, Hy1.
      eapply (below_not_after x y); auto. }
    subst y. f_equal. apply Permutation_cons_inv in Hperm. apply IH; auto.
Qed.

(** ** Packing slots of positive capacity orders them strictly *)

Lemma pack_from_lower l : forall a,
  Forall (fun q => bIs_Active q = true -> 0 <= AllocatedSize q) l ->
  Forall (fun q => bIs_Active q = true ->
                   exists c, MemoryBlockPtr q = Some c /\ a <= c)
         (pack_from a l).
Proof.
  induction l as [|q l IH]; intros a H; simpl; [constructor|].
  inversion H as [|? ? Hq Hl]; subst.
  destruct (bIs_Active q) eqn:Act.
  - constructor.
    + intros _. exists a. split; [reflexivity|lia].
    + eapply Forall_impl; [apply IH; exact Hl|].
      intros x Hx Ax. destruct (Hx Ax) as (c & Hc & Hle).
      exists c. split; [exact Hc|]. specialize (Hq eq_refl). lia.
  - constructor; [congruence|]. apply IH. exact Hl.
Qed.

Lemma pack_from_strict l : forall a,
  Forall (fun q => bIs_Active q = true -> 0 < AllocatedSize q) l ->
  StronglySorted below (List.filter bIs_Active (pack_from a l)).
Proof.
  induction l as [|q l IH]; intros a H; simpl; [constructor|].
  inversion H as [|? ? Hq Hl]; subst.
  destruct (bIs_Active q) eqn:Act; simpl; rewrite Act; [|auto].
  constructor; [auto|]. specialize (Hq eq_refl).
  apply Forall_forall. intros x Hx.
  apply list_elem_of_In, filter_In in Hx as [Hx Ax].
  assert (Hlow : Forall (fun z => bIs_Active z = true ->
                           exists c, MemoryBlockPtr z = Some c
                                     /\ a + AllocatedSize q <= c)
                        (pack_from (a + AllocatedSize q) l)).
  { apply pack_from_lower. eapply Forall_impl; [exact Hl|].
    intros z Hz Az. specialize (Hz Az). lia. }
  rewrite Forall_forall in Hlow.
  destruct (Hlow x) as (c & Hc & Hle);
    [apply list_elem_of_In; exact Hx|exact Ax|].
  unfold below. simpl. rewrite Hc. simpl. apply Z.ltb_lt. lia.
Qed.

Lemma filter_active_all l :
  Forall (fun q => bIs_Active q = true) (List.filter bIs_Active l).
Proof.
  apply Forall_forall. intros q Hq.
  apply list_elem_of_In, filter_In in Hq as [_ Hq]. exact Hq.
Qed.

(** ** Compaction twice in a row *)

Lemma try_organize_memory_with_twice sort s b s' :
  (forall l, Permutation (sort l) l) ->
  (forall l, StronglySorted not_after (sort l)) ->
  (forall q, q ∈ queues s -> bIs_Active q = true -> 0 < AllocatedSize q) ->
  try_organize_memory_with sort s = Done b s' ->
  try_organize_memory_with sort s' = Done false s'.
Proof.
  intros Hperm Hsorted Hpos H.
  destruct (sort (queues s)) as [|first rest] eqn:Hs.
  { unfold try_organize_memory_with, organize_sorted, bind, get_queues in H.
    rewrite Hs in H. discriminate H. }
  destruct (bIs_Active first) eqn:Act.
  2:{ unfold try_organize_memory_with, organize_sorted, bind, get_queues in H.
      rewrite Hs, Act in H. simpl in H. injection H as <- <-.
      unfold try_organize_memory_with, organize_sorted, bind, get_queues.
      rewrite Hs, Act. reflexivity. }
  pose proof (try_organize_memory_with_pack _ _ _ _ _ _ Hperm H Hs Act)
    as Hpacked.
  set (packed := pack_from 0 (first :: rest)) in *.
  assert (Hperm2 : Permutation packed (sort (queues s'))).
  { rewrite Hperm. symmetry. exact Hpacked. }
  assert (Hpos' : Forall (fun q => bIs_Active q = true -> 0 < AllocatedSize q)
                         (first :: rest)).
  { apply Forall_forall. intros q Hq. apply Hpos.
    rewrite <- Hs in Hq. rewrite <- (Hperm (queues s)). exact Hq. }
  assert (Heq : List.filter bIs_Active packed
                = List.filter bIs_Active (sort (queues s'))).
  { apply sorted_active_unique.
    - apply filter_active_all.
    - apply pack_from_strict. exact Hpos'.
    - apply filter_sorted, Hsorted.
    - apply filter_Permutation_bool. exact Hperm2. }
  apply try_organize_memory_with_packed.
  - intros Hnil. rewrite Hnil in Hperm2.
    apply Permutation_sym, Permutation_nil in Hperm2.
    unfold packed in Hperm2. simpl in Hperm2. rewrite Act in Hperm2.
    discriminate Hperm2.
  - apply (proj2 (packed_from_active _ _)). rewrite <- Heq.
    apply (proj1 (packed_from_active _ _)). apply packed_from_pack.
Qed.

Lemma try_organize_memory_twice s b s' :
  (forall q, q ∈ queues s -> bIs_Active q = true -> 0 < AllocatedSize q) ->
  try_organize_memory s = Done b s' ->
  try_organize_memory s' = Done false s'.
Proof.
  apply (try_organize_memory_with_twice reorganize_byte_queues).
  - exact reorganize_byte_queues_perm.
  - exact reorganize_byte_queues_sorted.
Qed.


(** ** Which calls end in which signal handler *)

Lemma bind_Abort {A B} (m : M A) (f : A -> M B) s k :
  bind m f s = Abort k ->
  m s = Abort k \/ exists a s1, m s = Done a s1 /\ f a s1 = Abort k.
Proof.
  unfold bind. destruct (m s) as [a s1|k'|]; try discriminate.
  - intros H. right. exists a, s1. auto.
  - intros H. left. injection H as ->. reflexivity.
Qed.

Lemma never_aborts_bind {A B} (m : M A) (f : A -> M B) :
  never_aborts m -> (forall a, never_aborts (f a)) -> never_aborts (bind m f).
Proof.
  intros Hm Hf s k H. apply bind_Abort in H as [H|(a & s1 & _ & H)].
  - exact (Hm _ _ H).
  - exact (Hf _ _ _ H).
Qed.

Lemma aborts_only_bind {A B} sig (m : M A) (f : A -> M B) :
  aborts_only sig m -> (forall a, aborts_only sig (f a)) ->
  aborts_only sig (bind m f).
Proof.
  intros Hm Hf s k H. apply bind_Abort in H as [H|(a & s1 & _ & H)].
  - exact (Hm _ _ H).
  - exact (Hf _ _ _ H).
Qed.

Lemma never_aborts_only {A} sig (m : M A) : never_aborts m -> aborts_only sig m.
Proof. intros H s k E. destruct (H _ _ E). Qed.

Lemma never_aborts_ret {A} (a : A) : never_aborts (ret a).
Proof. intros s k. discriminate. Qed.

Lemma never_aborts_undefined {A} : never_aborts (@undefined A).
Proof. intros s k. discriminate. Qed.

Lemma never_aborts_get_queues : never_aborts get_queues.
Proof. intros s k. discriminate. Qed.

Lemma never_aborts_read_queue i : never_aborts (read_queue i).
Proof. intros s k. unfold read_queue. destruct (_ !! _); discriminate. Qed.

Lemma never_aborts_write_queue i q : never_aborts (write_queue i q).
Proof. intros s k. unfold write_queue. destruct (_ !! _); discriminate. Qed.

Lemma never_aborts_load p i : never_aborts (load p i).
Proof.
  intros s k. unfold load. destruct p; [|discriminate].
  destruct (in_arena _); [|discriminate]. destruct (_ !! _); discriminate.
Qed.

Lemma never_aborts_store p i v : never_aborts (store p i v).
Proof.
  intros s k. unfold store. destruct p; [|discriminate].
  destruct (in_arena _); discriminate.
Qed.

Lemma never_aborts_memmove dst src n : never_aborts (memmove dst src n).
Proof.
  intros s k. unfold memmove. destruct dst, src; try discriminate.
  destruct (_ && _); discriminate.
Qed.

Lemma never_aborts_pointer_add p n : never_aborts (pointer_add p n).
Proof. destruct p; intros s k; discriminate. Qed.

Lemma never_aborts_pointer_diff p q : never_aborts (pointer_diff p q).
Proof. destruct p, q; intros s k; discriminate. Qed.

Lemma never_aborts_for_loop body n :
  (forall i, never_aborts (body i)) ->
  forall from, never_aborts (for_loop n from body).
Proof.
  intros Hb. induction n as [|n IH]; intros from; simpl.
  - apply never_aborts_ret.
  - apply never_aborts_bind; auto.
Qed.

Create HintDb quiet.
#[local] Hint Resolve never_aborts_ret never_aborts_undefined
  never_aborts_get_queues never_aborts_read_queue never_aborts_write_queue
  never_aborts_load never_aborts_store never_aborts_memmove
  never_aborts_pointer_add never_aborts_pointer_diff : quiet.

(** Proves [never_aborts m] or [aborts_only sig m] along the structure
    of [m]. *)
Ltac quiet :=
  repeat first
    [ solve [auto with quiet]
    | apply never_aborts_only; solve [auto with quiet]
    | apply never_aborts_bind; [|intros ?]
    | apply aborts_only_bind; [|intros ?]
    | apply never_aborts_for_loop; intros ?
    | match goal with
      | |- never_aborts (if ?c then _ else _) => destruct c
      | |- aborts_only _ (if ?c then _ else _) => destruct c
      | |- never_aborts (match ?x with _ => _ end) => destruct x
      | |- aborts_only _ (match ?x with _ => _ end) => destruct x
      | |- never_aborts (let '(_, _) := ?x in _) => destruct x
      end
    | apply never_aborts_only ].

Lemma never_aborts_relocate_bytes old new n clear :
  never_aborts (relocate_bytes old new n clear).
Proof. unfold relocate_bytes. quiet. Qed.

Lemma never_aborts_set_location q p : never_aborts (set_location q p).
Proof. unfold set_location. quiet. Qed.

#[local] Hint Resolve never_aborts_relocate_bytes never_aborts_set_location
  : quiet.

Lemma never_aborts_organize_loop l :
  forall acc, never_aborts (organize_loop l acc).
Proof.
  induction l as [|next l IH]; intros acc; simpl; [quiet|].
  apply never_aborts_bind; [|auto].
  unfold organize_step. destruct acc. quiet.
Qed.

Lemma never_aborts_try_organize_memory : never_aborts try_organize_memory.
Proof.
  unfold try_organize_memory, organize_sorted.
  pose proof never_aborts_organize_loop. quiet.
Qed.

Lemma never_aborts_get_first_queue : never_aborts get_first_queue.
Proof. unfold get_first_queue. quiet. Qed.

Lemma never_aborts_get_next_queue p : never_aborts (get_next_queue p).
Proof. unfold get_next_queue. quiet. Qed.

Lemma never_aborts_get_last_queue : never_aborts get_last_queue.
Proof. unfold get_last_queue. quiet. Qed.

Lemma never_aborts_deref_queue h : never_aborts (deref_queue h).
Proof. unfold deref_queue. quiet. Qed.

Lemma never_aborts_ends_in_arena p n : never_aborts (ends_in_arena p n).
Proof. unfold ends_in_arena. quiet. Qed.

#[local] Hint Resolve never_aborts_try_organize_memory
  never_aborts_get_first_queue never_aborts_get_next_queue
  never_aborts_get_last_queue never_aborts_deref_queue
  never_aborts_ends_in_arena : quiet.

Lemma never_aborts_gap_scan n l :
  forall queue, never_aborts (gap_scan n queue l).
Proof.
  induction l as [|t l IH]; intros queue; simpl; [quiet|].
  destruct (negb (bIs_Active t)); [quiet|].
  apply never_aborts_bind; [quiet|]. intros e.
  apply never_aborts_bind; [quiet|]. intros gap.
  destruct (gap >=? n); [quiet|apply IH].
Qed.

Lemma never_aborts_first_free_memory n : never_aborts (first_free_memory n).
Proof.
  unfold first_free_memory. pose proof never_aborts_gap_scan. quiet.
Qed.

Lemma never_aborts_add_byte_queue p n : never_aborts (add_byte_queue p n).
Proof. unfold add_byte_queue. quiet. Qed.

Lemma aborts_only_on_out_of_memory {A} :
  aborts_only SIGABRT (@on_out_of_memory A).
Proof. intros s k H. injection H as <-. reflexivity. Qed.

#[local] Hint Resolve never_aborts_first_free_memory
  never_aborts_add_byte_queue aborts_only_on_out_of_memory : quiet.

Lemma aborts_only_get_available_memory_start h n :
  aborts_only SIGABRT (get_available_memory_start h n).
Proof. unfold get_available_memory_start. quiet. Qed.

Lemma never_aborts_destroy_queue h clear : never_aborts (destroy_queue h clear).
Proof. unfold destroy_queue. quiet. Qed.

Lemma aborts_only_create_queue : aborts_only SIGABRT create_queue.
Proof. unfold create_queue. quiet. Qed.

Lemma aborts_only_enqueue_byte h byte :
  aborts_only SIGABRT (enqueue_byte h byte).
Proof.
  unfold enqueue_byte. pose proof aborts_only_get_available_memory_start.
  quiet.
Qed.

(** [dequeue_byte] ends in a signal handler exactly on an empty queue, and
    the handler is the one of the illegal operation. *)
Lemma dequeue_byte_Abort h s k :
  dequeue_byte h s = Abort k <->
  k = SIGILL /\ exists q, queues s !! h = Some q /\ Size q = 0.
Proof.
  unfold dequeue_byte. split.
  - intros H. apply bind_Abort in H as [H|(q & s1 & L & H)];
      [destruct (never_aborts_read_queue _ _ _ H)|].
    apply read_queue_Done in L as [L ->].
    apply bind_Abort in H as [H|(u & s2 & E & H)].
    + destruct (Size q =? 0) eqn:Z0; [|discriminate H].
      injection H as <-. apply Z.eqb_eq in Z0. eauto.
    + exfalso.
      lazymatch type of H with
      | ?m _ = Abort _ => assert (Hq : never_aborts m) by quiet
      end.
      exact (Hq _ _ H).
  - intros (-> & q & L & Z0). unfold bind, read_queue. rewrite L, Z0.
    reflexivity.
Qed.

(** [create_queue] and [enqueue_byte] end in no handler but the
    out-of-memory one, [dequeue_byte] in none but the illegal-operation
    one, [destroy_queue] and compaction in none. *)
Lemma signals_of_the_operations o s k :
  step o s = Abort k ->
  match o with
  | Create | Enqueue _ _ => k = SIGABRT
  | Dequeue h => k = SIGILL /\ exists q, queues s !! h = Some q /\ Size q = 0
  | Destroy _ _ | Compact => False
  end.
Proof.
  destruct o; simpl; intros H;
    apply bind_Abort in H as [H|(a & s1 & _ & H)]; try discriminate H.
  - eapply aborts_only_create_queue; eauto.
  - eapply never_aborts_destroy_queue; eauto.
  - eapply aborts_only_enqueue_byte; eauto.
  - apply dequeue_byte_Abort. exact H.
  - eapply never_aborts_try_organize_memory; eauto.
Qed.


(** ** Growth without a successor in the table *)

(** Whenever no active slot follows the queue in the table,
    [get_available_memory_start] answers with the arena base and changes
    nothing. *)
Lemma growth_placement_without_successor h n s q :
  queues s !! h = Some q ->
  next_queue_from (MemoryBlockPtr q) false 0 (queues s) = None ->
  get_available_memory_start h n s = Done (Some 0) s.
Proof.
  intros L Hn. unfold get_available_memory_start, bind, read_queue.
  rewrite L. unfold get_next_queue, bind, get_queues. rewrite Hn. reflexivity.
Qed.

(** ** The table keeps its 64 slots *)

Lemma keeps_length_bind {A B} (m : M A) (f : A -> M B) :
  keeps_length m -> (forall a, keeps_length (f a)) -> keeps_length (bind m f).
Proof.
  intros Hm Hf s b s' H. bind_inv H as a s1 E.
  apply Hm in E. apply Hf in H. congruence.
Qed.

Lemma keeps_length_same {A} (m : M A) :
  (forall s a s', m s = Done a s' -> queues s' = queues s) -> keeps_length m.
Proof. intros H s a s' E. apply H in E. congruence. Qed.

Lemma keeps_length_ret {A} (a : A) : keeps_length (ret a).
Proof. apply keeps_length_same. intros s b s' H. done_inv H. reflexivity. Qed.

Lemma keeps_length_fails {A} (m : M A) :
  (forall s a s', m s <> Done a s') -> keeps_length m.
Proof. intros H s a s' E. destruct (H _ _ _ E). Qed.

Lemma keeps_length_get_queues : keeps_length get_queues.
Proof. apply keeps_length_same. intros s b s' H. done_inv H. reflexivity. Qed.

Lemma keeps_length_read_queue i : keeps_length (read_queue i).
Proof. apply keeps_length_same. intros s b s' H. done_inv H. reflexivity. Qed.

Lemma keeps_length_write_queue i q : keeps_length (write_queue i q).
Proof.
  intros s a s' H. apply write_queue_Done in H as [_ ->]. simpl.
  apply length_insert.
Qed.

Lemma keeps_length_load p i : keeps_length (load p i).
Proof. apply keeps_length_same. intros. eapply load_queues; eauto. Qed.

Lemma keeps_length_store p i v : keeps_length (store p i v).
Proof. apply keeps_length_same. intros. eapply store_queues; eauto. Qed.

Lemma keeps_length_relocate_bytes old new n clear :
  keeps_length (relocate_bytes old new n clear).
Proof.
  apply keeps_length_same. intros. eapply relocate_bytes_queues; eauto.
Qed.

Lemma keeps_length_pointer_add p n : keeps_length (pointer_add p n).
Proof.
  apply keeps_length_same. intros s a s' H.
  apply pointer_add_Done in H as [-> _]. reflexivity.
Qed.

Lemma keeps_length_pointer_diff p q : keeps_length (pointer_diff p q).
Proof.
  apply keeps_length_same. intros s a s' H.
  apply pointer_diff_Done in H as [-> _]. reflexivity.
Qed.

Lemma keeps_length_undefined {A} : keeps_length (@undefined A).
Proof. apply keeps_length_fails. intros s a s'. discriminate. Qed.

Lemma keeps_length_on_out_of_memory {A} : keeps_length (@on_out_of_memory A).
Proof. apply keeps_length_fails. intros s a s'. discriminate. Qed.

Lemma keeps_length_on_illegal_operation {A} :
  keeps_length (@on_illegal_operation A).
Proof. apply keeps_length_fails. intros s a s'. discriminate. Qed.

Lemma keeps_length_for_loop body n :
  (forall i, keeps_length (body i)) ->
  forall from, keeps_length (for_loop n from body).
Proof.
  intros Hb. induction n as [|n IH]; intros from; simpl.
  - apply keeps_length_ret.
  - apply keeps_length_bind; auto.
Qed.

Create HintDb table_length.
#[local] Hint Resolve keeps_length_ret keeps_length_get_queues
  keeps_length_read_queue keeps_length_write_queue keeps_length_load
  keeps_length_store keeps_length_relocate_bytes keeps_length_pointer_add
  keeps_length_pointer_diff keeps_length_undefined
  keeps_length_on_out_of_memory keeps_length_on_illegal_operation
  : table_length.

(** Proves [keeps_length m] along the structure of [m]. *)
Ltac table_length :=
  repeat first
    [ solve [auto with table_length]
    | apply keeps_length_bind; [|intros ?]
    | apply keeps_length_for_loop; intros ?
    | match goal with
      | |- keeps_length (if ?c then _ else _) => destruct c
      | |- keeps_length (match ?x with _ => _ end) => destruct x
      end ].

Lemma keeps_length_set_location q p : keeps_length (set_location q p).
Proof. unfold set_location. table_length. Qed.

#[local] Hint Resolve keeps_length_set_location : table_length.

Lemma keeps_length_organize_loop l :
  forall acc, keeps_length (organize_loop l acc).
Proof.
  induction l as [|next l IH]; intros acc; simpl; [table_length|].
  apply keeps_length_bind; [|auto].
  unfold organize_step. destruct acc. table_length.
Qed.

Lemma keeps_length_try_organize_memory : keeps_length try_organize_memory.
Proof.
  unfold try_organize_memory, organize_sorted.
  pose proof keeps_length_organize_loop. table_length.
Qed.

Lemma keeps_length_get_first_queue : keeps_length get_first_queue.
Proof. unfold get_first_queue. table_length. Qed.

Lemma keeps_length_get_next_queue p : keeps_length (get_next_queue p).
Proof. unfold get_next_queue. table_length. Qed.

Lemma keeps_length_get_last_queue : keeps_length get_last_queue.
Proof. unfold get_last_queue. table_length. Qed.

Lemma keeps_length_deref_queue h : keeps_length (deref_queue h).
Proof. unfold deref_queue. table_length. Qed.

Lemma keeps_length_ends_in_arena p n : keeps_length (ends_in_arena p n).
Proof. unfold ends_in_arena. table_length. Qed.

#[local] Hint Resolve keeps_length_try_organize_memory
  keeps_length_get_first_queue keeps_length_get_next_queue
  keeps_length_get_last_queue keeps_length_deref_queue
  keeps_length_ends_in_arena : table_length.

Lemma keeps_length_gap_scan n l :
  forall queue, keeps_length (gap_scan n queue l).
Proof.
  induction l as [|t l IH]; intros queue; simpl; [table_length|].
  destruct (negb (bIs_Active t)); [table_length|].
  apply keeps_length_bind; [table_length|]. intros e.
  apply keeps_length_bind; [table_length|]. intros gap.
  destruct (gap >=? n); [table_length|apply IH].
Qed.

Lemma keeps_length_first_free_memory n : keeps_length (first_free_memory n).
Proof.
  unfold first_free_memory. pose proof keeps_length_gap_scan. table_length.
Qed.

Lemma keeps_length_get_available_memory_start h n :
  keeps_length (get_available_memory_start h n).
Proof. unfold get_available_memory_start. table_length. Qed.

Lemma keeps_length_add_byte_queue p n : keeps_length (add_byte_queue p n).
Proof. unfold add_byte_queue. table_length. Qed.

#[local] Hint Resolve keeps_length_first_free_memory
  keeps_length_get_available_memory_start keeps_length_add_byte_queue
  : table_length.

Lemma keeps_length_step o : keeps_length (step o).
Proof.
  destruct o; simpl.
  - unfold create_queue. table_length.
  - unfold destroy_queue. table_length.
  - unfold enqueue_byte. table_length.
  - unfold dequeue_byte. table_length.
  - table_length.
Qed.

Lemma keeps_length_run ops : keeps_length (run ops).
Proof.
  induction ops as [|o ops IH]; simpl; [table_length|].
  pose proof (keeps_length_step o). table_length.
Qed.

(** ** The invariants that every sequence of calls keeps *)

Lemma slot_ok_I3 q :
  slot_ok q ->
  (AllocatedSize q mod DEFAULT_ALLOC_SIZE =? 0)
  && (0 <=? AllocatedSize q) && (0 <=? Size q)
  && (Size q <=? AllocatedSize q) = true.
Proof.
  unfold slot_ok. destruct (bIs_Active q).
  - intros (_ & (k & Hk) & Hs & [Hlo Hhi] & _).
    unfold DEFAULT_ALLOC_SIZE in *.
    rewrite !andb_true_iff, Z.eqb_eq, !Z.leb_le.
    repeat split; try lia. rewrite Hk. apply Z.mod_mul. lia.
  - intros ->. reflexivity.
Qed.

Lemma slot_ok_I4 q :
  slot_ok q -> bIs_Active q || queue_eqb q empty_queue = true.
Proof.
  unfold slot_ok. destruct (bIs_Active q); [reflexivity|].
  intros ->. reflexivity.
Qed.

(** After any sequence of calls that returned, I3, I4 and I5 hold. *)
Lemma run_keeps_I3_I4_I5 ops r s :
  run ops initial_state = Done r s ->
  I3 s = true /\ I4 s = true /\ I5 s = true.
Proof.
  intros H.
  pose proof (run_ok _ _ _ _ table_ok_initial H) as Hok.
  unfold table_ok in Hok. rewrite Forall_forall in Hok.
  split; [|split].
  - unfold I3. apply forallb_forall. intros q Hq.
    apply slot_ok_I3, Hok, list_elem_of_In, Hq.
  - unfold I4. apply forallb_forall. intros q Hq.
    apply slot_ok_I4, Hok, list_elem_of_In, Hq.
  - unfold I5, active_queues. apply Nat.leb_le.
    etransitivity; [apply filter_length_le|].
    apply keeps_length_run in H. rewrite H.
    unfold initial_state, queues. rewrite length_replicate. reflexivity.
Qed.

(** ** What [get_next_queue] returns *)

(** Once the slot of the argument has been passed, the result is the first
    active slot that follows. *)
Lemma next_queue_from_found p l : forall i n,
  next_queue_from p true i l = Some n ->
  exists k qn, n = (i + k)%nat /\ l !! k = Some qn /\ bIs_Active qn = true
    /\ forall m q, (m < k)%nat -> l !! m = Some q -> bIs_Active q = false.
Proof.
  induction l as [|x l IH]; intros i n H; simpl in H; [discriminate|].
  destruct (bIs_Active x) eqn:Act.
  - injection H as <-. exists 0%nat, x.
    split; [lia|]. split; [reflexivity|]. split; [exact Act|].
    intros m q Hm. lia.
  - apply IH in H as (k & qn & -> & L & Aq & Hbefore).
    exists (S k), qn.
    split; [lia|]. split; [exact L|]. split; [exact Aq|].
    intros [|m] q Hm Lq; simpl in Lq.
    + injection Lq as <-. exact Act.
    + eapply Hbefore; eauto. lia.
Qed.

(** [get_next_queue] finds the first slot of the table whose memory
    location is the one of its argument, and returns the first active
    slot after it in the table, whatever the addresses of the slots. *)
Lemma next_queue_from_table_order p l : forall i n,
  next_queue_from p false i l = Some n ->
  exists j k q qn,
    l !! j = Some q /\ MemoryBlockPtr q = p
    /\ (forall m q', (m < j)%nat -> l !! m = Some q' -> MemoryBlockPtr q' <> p)
    /\ n = (i + j + 1 + k)%nat
    /\ l !! (j + 1 + k)%nat = Some qn /\ bIs_Active qn = true
    /\ (forall m q', (j < m < j + 1 + k)%nat -> l !! m = Some q' ->
                     bIs_Active q' = false).
Proof.
  induction l as [|x l IH]; intros i n H; simpl in H; [discriminate|].
  destruct (pointer_eqb (MemoryBlockPtr x) p) eqn:E.
  - apply pointer_eqb_eq in E.
    apply next_queue_from_found in H as (k & qn & -> & L & Aq & Hbefore).
    exists 0%nat, k, x, qn.
    split; [reflexivity|]. split; [exact E|].
    split; [intros m q' Hm; lia|]. split; [lia|].
    split; [exact L|]. split; [exact Aq|].
    intros m q' [Hlo Hhi] Lq. destruct m as [|m]; [lia|]. simpl in Lq.
    eapply Hbefore; eauto. lia.
  - apply IH in H as (j & k & q & qn & Lj & Hp & Hfirst & -> & Ln & Aq & Hmid).
    exists (S j), k, q, qn.
    split; [exact Lj|]. split; [exact Hp|].
    split; [|split; [lia|split; [exact Ln|split; [exact Aq|]]]].
    + intros [|m] q' Hm Lq; simpl in Lq.
      * injection Lq as <-. intros Heq. apply pointer_eqb_eq in Heq.
        congruence.
      * eapply Hfirst; eauto. lia.
    + intros [|m] q' [Hlo Hhi] Lq; [lia|]. simpl in Lq.
      eapply Hmid; eauto. lia.
Qed.

Lemma get_next_queue_table_order p s n s' :
  get_next_queue p s = Done (Some n) s' ->
  exists j q qn,
    (j < n)%nat /\ queues s !! j = Some q /\ MemoryBlockPtr q = p
    /\ queues s !! n = Some qn /\ bIs_Active qn = true
    /\ (forall m q', (j < m < n)%nat -> queues s !! m = Some q' ->
                     bIs_Active q' = false).
Proof.
  intros H. apply get_next_queue_Done in H as [_ H]. symmetry in H.
  apply next_queue_from_table_order in H
    as (j & k & q & qn & Lj & Hp & _ & -> & Ln & Aq & Hmid).
  exists j, q, qn. simpl in *.
  split; [lia|]. split; [exact Lj|]. split; [exact Hp|].
  split; [exact Ln|]. split; [exact Aq|].
  intros m q' Hm. apply Hmid. lia.
Qed.

(** ** The last read of [dequeue_byte] *)

Lemma reads_cons i e t : reads i t = true -> reads i (e :: t) = true.
Proof. unfold reads. simpl. intros ->. apply orb_true_r. Qed.

Lemma store_reads p i v j s u s' :
  store p i v s = Done u s' -> reads j (trace s) = true ->
  reads j (trace s') = true.
Proof.
  intros H Hr. apply store_Done in H as (a & _ & _ & ->).
  cbn [trace]. apply reads_cons. exact Hr.
Qed.

Lemma load_reads p i j s v s' :
  load p i s = Done v s' -> reads j (trace s) = true ->
  reads j (trace s') = true.
Proof.
  intros H Hr. apply load_Done in H as (a & _ & _ & _ & ->).
  cbn [trace]. apply reads_cons. exact Hr.
Qed.

Lemma load_reads_index a i s v s' :
  load (Some a) i s = Done v s' -> reads (a + i) (trace s') = true.
Proof.
  intros H. apply load_Done in H as (a' & Ha & _ & _ & ->).
  injection Ha as <-. cbn [trace]. unfold reads. cbn [existsb].
  rewrite Z.eqb_refl. reflexivity.
Qed.

(** The shift loop of [dequeue_byte] over [n] bytes from index [from]
    reads index [uint (from + n)]. *)
Lemma shift_loop_reads a n : forall from s u s',
  for_loop (S n) from
    (fun i => let* v := load (Some a) (uint (i + 1)) in store (Some a) i v) s
  = Done u s' ->
  reads (a + uint (from + Z.of_nat n + 1)) (trace s') = true.
Proof.
  induction n as [|n IH]; intros from s u s' H.
  - simpl in H. bind_inv H as u1 s1 E. done_inv H.
    bind_inv E as v s2 E1. apply load_reads_index in E1.
    replace (from + Z.of_nat 0 + 1) with (from + 1) by lia.
    exact (store_reads _ _ _ _ _ _ _ E E1).
  - change (for_loop (S (S n)) from ?b) with
      (let* _ := b from in for_loop (S n) (from + 1) b) in H.
    bind_inv H as u1 s1 E. apply IH in H.
    replace (from + Z.of_nat (S n) + 1) with (from + 1 + Z.of_nat n + 1)
      by lia.
    exact H.
Qed.

(** Every [dequeue_byte] that returns has read the element at index
    [Size] of the queue: one past the bytes the queue holds, and one past
    its allocated range when the queue is full. *)
Lemma dequeue_byte_reads_index_of_size h s b s' q a :
  queues s !! h = Some q -> MemoryBlockPtr q = Some a ->
  0 <= Size q < 2 ^ 32 ->
  dequeue_byte h s = Done b s' ->
  reads (a + Size q) (trace s') = true.
Proof.
  intros L Hp Hs H. unfold dequeue_byte in H.
  bind_inv H as queue s1 L'. done_inv L'. rewrite L in L'.
  injection L' as <-. rewrite Hp in H.
  bind_inv H as u1 s1 E.
  destruct (Size q =? 0) eqn:Z0; [done_inv E|]. done_inv E.
  apply Z.eqb_neq in Z0.
  bind_inv H as removed s2 E1. bind_inv H as u2 s3 E2.
  bind_inv H as u3 s4 E3. bind_inv H as u4 s5 E4. done_inv H.
  apply write_queue_Done in E4 as [_ ->]. cbn [trace].
  eapply store_reads; [exact E3|].
  destruct (Z.to_nat (Size q)) as [|n] eqn:N; [lia|].
  apply shift_loop_reads in E2.
  replace (0 + Z.of_nat n + 1) with (Size q) in E2 by lia.
  rewrite uint_small in E2 by exact Hs. exact E2.
Qed.

(** ** Tables that [std::sort] can order in one way only *)

Lemma pairwise_In {A} (r : A -> A -> bool) l :
  (forall x y, r x y = r y x) -> pairwise r l = true ->
  forall x y, In x l -> In y l -> x = y \/ r x y = true.
Proof.
  intros Hsym. induction l as [|a l IH]; intros H x y Hx Hy; [destruct Hx|].
  simpl in H. apply andb_true_iff in H as [Ha Hl].
  rewrite forallb_forall in Ha.
  destruct Hx as [<-|Hx], Hy as [<-|Hy]; auto.
  right. rewrite Hsym. auto.
Qed.

Lemma queue_eqb_sym a b : queue_eqb a b = queue_eqb b a.
Proof.
  destruct (queue_eqb a b) eqn:E, (queue_eqb b a) eqn:E'; try reflexivity.
  - apply queue_eqb_eq in E as ->.
    rewrite (proj2 (queue_eqb_eq b b) eq_refl) in E'. discriminate.
  - apply queue_eqb_eq in E' as ->.
    rewrite (proj2 (queue_eqb_eq a a) eq_refl) in E. discriminate.
Qed.

Lemma no_ties_In l x y :
  no_ties l = true -> In x l -> In y l ->
  queue_before x y = false -> queue_before y x = false -> x = y.
Proof.
  intros H Hx Hy Hxy Hyx. unfold no_ties in H.
  eapply pairwise_In in H as [H|H]; eauto.
  - rewrite Hxy, Hyx in H. simpl in H. apply queue_eqb_eq. exact H.
  - intros a b. rewrite (orb_comm (queue_before a b)). f_equal.
    apply queue_eqb_sym.
Qed.

(** Two orderings of the slots of a table without ties are the same. *)
Lemma sorted_unique l1 : forall l2,
  (forall x y, In x l1 -> In y l1 ->
               queue_before x y = false -> queue_before y x = false ->
               x = y) ->
  StronglySorted not_after l1 -> StronglySorted not_after l2 ->
  Permutation l1 l2 -> l1 = l2.
Proof.
  induction l1 as [|x l1 IH]; intros l2 Hties H1 H2 Hperm.
  - apply Permutation_nil in Hperm. congruence.
  - destruct l2 as [|y l2];
      [symmetry in Hperm; apply Permutation_nil in Hperm; discriminate|].
    apply StronglySorted_inv in H1 as [H1 Hx].
    apply StronglySorted_inv in H2 as [H2 Hy].
    assert (Hx2 : In x (y :: l2))
      by (eapply Permutation_in; [exact Hperm|left; reflexivity]).
    assert (Hy1 : In y (x :: l1))
      by (eapply Permutation_in; [symmetry; exact Hperm|left; reflexivity]).
    assert (Hxy : x = y).
    { destruct Hx2 as [->|Hx2]; [reflexivity|].
      destruct Hy1 as [->|Hy1]; [reflexivity|].
      rewrite Forall_forall in Hx, Hy.
      apply Hties; [left; reflexivity|right; exact Hy1| |].
      - apply Hy, list_elem_of_In, Hx2.
      - apply Hx, list_elem_of_In, Hy1. }
    subst y. f_equal. apply Permutation_cons_inv in Hperm.
    apply IH; auto. intros a b Ha Hb. apply Hties; right; assumption.
Qed.

(** On a table without ties every sort returns what
    [reorganize_byte_queues] returns. *)
Lemma any_sort_agrees sort l :
  sorts_by_comparison sort -> no_ties l = true ->
  sort l = reorganize_byte_queues l.
Proof.
  intros (Hperm & Hsorted & _) Hties. apply sorted_unique.
  - intros x y Hx Hy. apply (no_ties_In l); [exact Hties| |].
    + eapply Permutation_in; [apply Hperm|exact Hx].
    + eapply Permutation_in; [apply Hperm|exact Hy].
  - apply Hsorted.
  - apply reorganize_byte_queues_sorted.
  - rewrite Hperm. symmetry. apply reorganize_byte_queues_perm.
Qed.

Lemma try_organize_memory_with_agrees sort s :
  sorts_by_comparison sort -> no_ties (queues s) = true ->
  try_organize_memory_with sort s = try_organize_memory s.
Proof.
  intros Hsort Hties.
  unfold try_organize_memory_with, try_organize_memory, bind, get_queues.
  rewrite (any_sort_agrees sort _ Hsort Hties). reflexivity.
Qed.

(** The instance of the model. *)
Lemma try_organize_memory_instance :
  try_organize_memory = try_organize_memory_with reorganize_byte_queues.
Proof. reflexivity. Qed.

(** ** Two active slots at one memory location *)

Lemma not_after_inactive_tail x y :
  not_after x y -> bIs_Active x = false -> bIs_Active y = false.
Proof.
  unfold not_after, queue_before. intros H Hx. rewrite Hx in H.
  destruct (bIs_Active y); [discriminate H|reflexivity].
Qed.

Lemma filter_nothing {A} (f : A -> bool) l :
  Forall (fun x => f x = false) l -> List.filter f l = [].
Proof.
  induction 1 as [|x l Hx _ IH]; simpl; [reflexivity|]. rewrite Hx. exact IH.
Qed.

Lemma filter_everything {A} (f : A -> bool) l :
  Forall (fun x => f x = true) l -> List.filter f l = l.
Proof.
  induction 1 as [|x l Hx _ IH]; simpl; [reflexivity|]. rewrite Hx, IH.
  reflexivity.
Qed.

(** A sorted list is its active slots followed by its inactive ones. *)
Lemma sorted_active_then_inactive l :
  StronglySorted not_after l ->
  l = List.filter bIs_Active l
        ++ List.filter (fun q => negb (bIs_Active q)) l.
Proof.
  induction l as [|x l IH]; intros H; simpl; [reflexivity|].
  apply StronglySorted_inv in H as [Hl Hx].
  destruct (bIs_Active x) eqn:Act; simpl.
  - f_equal. apply IH. exact Hl.
  - assert (Hin : Forall (fun q => bIs_Active q = false) l).
    { eapply Forall_impl; [exact Hx|]. intros y Hy.
      eapply not_after_inactive_tail; eauto. }
    rewrite filter_nothing by exact Hin. simpl. f_equal. symmetry.
    apply filter_everything. eapply Forall_impl; [exact Hin|].
    intros y ->. reflexivity.
Qed.

Lemma Permutation_blank l rest :
  Forall (fun q => q = empty_queue) rest -> Permutation l rest -> l = rest.
Proof.
  intros Hrest Hperm.
  assert (Hl : Forall (fun q => q = empty_queue) l)
    by (eapply Permutation_Forall; [symmetry; exact Hperm|exact Hrest]).
  apply Permutation_length in Hperm. revert rest Hrest Hperm.
  induction Hl as [|x l -> _ IH]; intros rest Hrest Hlen.
  - destruct rest; [reflexivity|discriminate].
  - destruct Hrest as [|y rest -> Hrest]; [discriminate|].
    f_equal. apply IH; [exact Hrest|]. simpl in Hlen. lia.
Qed.

(** A table of two active slots followed by blank slots is returned by
    every sort with its two active slots in one of the two orders. *)
Lemma sort_of_two_active sort x y rest :
  sorts_by_comparison sort ->
  bIs_Active x = true -> bIs_Active y = true ->
  Forall (fun q => q = empty_queue) rest ->
  sort (x :: y :: rest) = x :: y :: rest
  \/ sort (x :: y :: rest) = y :: x :: rest.
Proof.
  intros (Hperm & Hsorted & _) Ax Ay Hrest.
  pose proof (sorted_active_then_inactive _ (Hsorted (x :: y :: rest))) as E.
  assert (Hin : Forall (fun q => bIs_Active q = false) rest)
    by (eapply Forall_impl; [exact Hrest|]; intros q ->; reflexivity).
  assert (Hact : Permutation (List.filter bIs_Active (sort (x :: y :: rest)))
                             [x; y]).
  { rewrite (filter_Permutation_bool _ _ _ (Hperm _)). simpl.
    rewrite Ax, Ay, filter_nothing by exact Hin. reflexivity. }
  assert (Hblank : List.filter (fun q => negb (bIs_Active q))
                     (sort (x :: y :: rest)) = rest).
  { apply Permutation_blank; [exact Hrest|].
    rewrite (filter_Permutation_bool _ _ _ (Hperm _)). simpl.
    rewrite Ax, Ay. simpl. rewrite filter_everything; [reflexivity|].
    eapply Forall_impl; [exact Hin|]. intros q ->. reflexivity. }
  rewrite Hblank in E. symmetry in Hact.
  apply Permutation_length_2_inv in Hact as [Hact|Hact];
    rewrite Hact in E; auto.
Qed.

(** ** The sort of the model is one of the sorts [std::sort] may be *)

Lemma queue_before_through f x y :
  (forall q, MemoryBlockPtr (f q) = MemoryBlockPtr q
             /\ bIs_Active (f q) = bIs_Active q) ->
  queue_before (f x) (f y) = queue_before x y.
Proof.
  intros Hf. unfold queue_before.
  destruct (Hf x) as [-> ->], (Hf y) as [-> ->]. reflexivity.
Qed.

Lemma insert_queue_through f q l :
  (forall q, MemoryBlockPtr (f q) = MemoryBlockPtr q
             /\ bIs_Active (f q) = bIs_Active q) ->
  insert_queue (f q) (map f l) = map f (insert_queue q l).
Proof.
  intros Hf. induction l as [|x l IH]; simpl; [reflexivity|].
  rewrite (queue_before_through f _ _ Hf).
  destruct (queue_before _ _); simpl; rewrite ?IH; reflexivity.
Qed.

Lemma reorganize_byte_queues_sorts_by_comparison :
  sorts_by_comparison reorganize_byte_queues.
Proof.
  split; [exact reorganize_byte_queues_perm|].
  split; [exact reorganize_byte_queues_sorted|].
  intros f l Hf. induction l as [|q l IH]; simpl; [reflexivity|].
  rewrite IH. apply insert_queue_through. exact Hf.
Qed.

(** ** A second compaction that moves a slot *)

Lemma map_blank (f : byte_queue -> byte_queue) rest :
  Forall (fun q => q = empty_queue) rest -> f empty_queue = empty_queue ->
  map f rest = rest.
Proof.
  intros Hrest Hf. induction Hrest as [|q rest -> _ IH]; simpl;
    [reflexivity|]. rewrite IH, Hf. reflexivity.
Qed.

(** Two tables with two active slots at one memory location each, the
    slots of the second having the memory locations and the activity of
    the slots of the first, position by position: a sort that leaves the
    tie of the second table in table order leaves the tie of the first
    one in table order. *)
Lemma same_tie_same_order sort x y x' y' rest :
  sorts_by_comparison sort ->
  MemoryBlockPtr x' = MemoryBlockPtr x -> bIs_Active x' = bIs_Active x ->
  MemoryBlockPtr y' = MemoryBlockPtr y -> bIs_Active y' = bIs_Active y ->
  x <> y ->
  Forall (fun q => q = empty_queue) rest ->
  x <> empty_queue -> y <> empty_queue ->
  sort (x :: y :: rest) = x :: y :: rest ->
  sort (x' :: y' :: rest) = x' :: y' :: rest.
Proof.
  intros (_ & _ & Hnat) Hpx Hax Hpy Hay Hxy Hrest Hx Hy Hkeep.
  set (f := fun q => if queue_eqb q x then x'
                     else if queue_eqb q y then y' else q).
  assert (Hfx : f x = x').
  { unfold f. rewrite (proj2 (queue_eqb_eq x x) eq_refl). reflexivity. }
  assert (Hfy : f y = y').
  { unfold f. destruct (queue_eqb y x) eqn:E.
    - apply queue_eqb_eq in E. congruence.
    - rewrite (proj2 (queue_eqb_eq y y) eq_refl). reflexivity. }
  assert (Hfrest : map f rest = rest).
  { apply map_blank; [exact Hrest|]. unfold f.
    destruct (queue_eqb empty_queue x) eqn:E;
      [apply queue_eqb_eq in E; congruence|].
    destruct (queue_eqb empty_queue y) eqn:E';
      [apply queue_eqb_eq in E'; congruence|]. reflexivity. }
  assert (Hf : forall q, MemoryBlockPtr (f q) = MemoryBlockPtr q
                         /\ bIs_Active (f q) = bIs_Active q).
  { intros q. unfold f. destruct (queue_eqb q x) eqn:E.
    - apply queue_eqb_eq in E as ->. auto.
    - destruct (queue_eqb q y) eqn:E'; [|auto].
      apply queue_eqb_eq in E' as ->. auto. }
  specialize (Hnat f (x :: y :: rest) Hf).
  rewrite Hkeep in Hnat. simpl in Hnat.
  rewrite Hfx, Hfy, Hfrest in Hnat. exact Hnat.
Qed.

Lemma blank_slots n :
  Forall (fun q => q = empty_queue) (replicate n empty_queue).
Proof.
  apply Forall_forall. intros q Hq. apply elem_of_replicate in Hq as [-> _].
  reflexivity.
Qed.

(** ** The claims *)

(** *** Invariants along call sequences *)

(** Claim C1, evaluated at a failing input.  After two [create_queue]
    calls, 32 bytes for each queue and a 33rd byte for the second one, no
    call has terminated the program and every handle was live, yet both
    active slots start at offset 0: I1 does not hold. *)
Theorem nonoverlap_broken_by_growth_of_last_slot :
  exists r s, run grow_last_slot initial_state = Done r s
    /\ handles_live grow_last_slot initial_state = true
    /\ layout s = [(Some 0, 32, 32); (Some 0, 64, 33)]
    /\ I1 s = false.
Proof.
  do 2 eexists. split; [vm_compute; reflexivity|].
  repeat split; vm_compute; reflexivity.
Qed.

(** The same invariant fails without the last slot being involved: the
    first queue has a successor in the table, the slot at offset 96, and
    grows in place over the slot at offset 32, which the table lists later. *)
Example nonoverlap_broken_by_table_order :
  exists r s, run grow_towards_later_slot initial_state = Done r s
    /\ handles_live grow_towards_later_slot initial_state = true
    /\ layout s = [(Some 0, 64, 33); (Some 96, 64, 33); (Some 64, 32, 0);
                   (Some 32, 32, 0)]
    /\ I1 s = false.
Proof.
  do 2 eexists. split; [vm_compute; reflexivity|].
  repeat split; vm_compute; reflexivity.
Qed.

(** I2 fails as well: behind a queue that fills the arena,
    [create_queue] places a new queue at offset 2048. *)
Example bounds_broken_by_create_behind_full_arena :
  exists r s, run create_behind_full_arena initial_state = Done r s
    /\ handles_live create_behind_full_arena initial_state = true
    /\ layout s = [(Some 0, 2048, 2017); (Some 2048, 32, 0)]
    /\ I2 s = false.
Proof.
  do 2 eexists. split; [vm_compute; reflexivity|].
  repeat split; vm_compute; reflexivity.
Qed.

(** *** First in, first out *)

(** Claim C2, evaluated at a failing input.  The only byte ever enqueued
    on the first queue is 7; after the second queue has received 33 bytes,
    [dequeue_byte] on the first queue returns 101, the first byte of the
    second queue. *)
Theorem fifo_broken_by_growth_of_last_slot :
  exists r s, run read_after_neighbour_grew initial_state = Done r s
    /\ handles_live read_after_neighbour_grew initial_state = true
    /\ enqueued 0 read_after_neighbour_grew = [7]
    /\ dequeued 0 read_after_neighbour_grew r = [101].
Proof.
  do 2 eexists. split; [vm_compute; reflexivity|].
  repeat split; vm_compute; reflexivity.
Qed.

(** Bytes are also lost when growth has to compact the table: the first
    queue has a successor in the table, no room at the tail, and the
    compaction it triggers runs with the grown capacity already written to
    its slot.  Only bytes of value 3 were enqueued on handle 2, and
    [dequeue_byte] returns 2. *)
Example fifo_broken_by_compaction_during_growth :
  exists r s, run grow_with_compaction initial_state = Done r s
    /\ handles_live grow_with_compaction initial_state = true
    /\ enqueued 2 grow_with_compaction = replicate 32 3
    /\ dequeued 2 grow_with_compaction r = [2].
Proof.
  do 2 eexists. split; [vm_compute; reflexivity|].
  repeat split; vm_compute; reflexivity.
Qed.

(** *** Compaction keeps the bytes of every queue *)

(** Claim C3, evaluated at a failing input.  The state satisfies I1 to I5
    and its lowest slot, handle 1, holds the 40 bytes 1..40 at offset 32.
    Compaction moves it to the arena base and leaves the slots contiguous,
    but the bytes of handle 1 are no longer the same: the last eight are
    zero. *)
Theorem compaction_loses_bytes_of_first_slot :
  exists s s', state_after long_queue_behind_gap = Some s
    /\ I1 s && I2 s && I3 s && I4 s && I5 s = true
    /\ layout s = [(Some 32, 64, 40); (Some 96, 32, 0)]
    /\ try_organize_memory s = Done true s'
    /\ layout s' = [(Some 0, 64, 40); (Some 64, 32, 0)]
    /\ contents 1 s = Some (map Z.of_nat (seq 1 40))
    /\ contents 1 s' = Some (map Z.of_nat (seq 1 32) ++ replicate 8 0).
Proof.
  do 2 eexists. split; [vm_compute; reflexivity|].
  split; [vm_compute; reflexivity|].
  split; [vm_compute; reflexivity|].
  split; [vm_compute; reflexivity|].
  repeat split; vm_compute; reflexivity.
Qed.

(** *** Fatal termination *)

(** Claim C4, evaluated at a failing input.  After [Test_FillQueues] all
    64 slots are active and their capacities add up to the whole arena; a
    further [enqueue_byte] on the last queue of the table needs 64 bytes,
    which no placement can provide, and returns normally. *)
Theorem enqueue_on_full_arena_returns :
  exists s s', state_after Test_FillQueues = Some s
    /\ length (active_queues s) = MAX_QUEUE_COUNT
    /\ sum_allocated s = MEMORY_ALLOC_SIZE
    /\ I1 s && I2 s && I3 s && I4 s && I5 s = true
    /\ enqueue_byte 63 5 s = Done tt s'
    /\ I1 s' = false.
Proof.
  do 2 eexists. split; [vm_compute; reflexivity|].
  split; [vm_compute; reflexivity|].
  split; [vm_compute; reflexivity|].
  split; [vm_compute; reflexivity|].
  split; vm_compute; reflexivity.
Qed.

(** *** Growth of a queue that no active slot follows in the table *)

(** Claim C5, evaluated at a failing input.  The second of two queues is
    at offset 32 and no active slot follows it; asked where 64 bytes for it
    can go, [get_available_memory_start] answers with the arena base, not
    with the queue's own address. *)
Theorem growth_placement_of_last_slot_is_arena_base :
  exists s, state_after ([Create; Create] ++ enqueue_run 1 101 32) = Some s
    /\ layout s = [(Some 0, 32, 0); (Some 32, 32, 32)]
    /\ option_map MemoryBlockPtr (queues s !! 1%nat) = Some (Some 32)
    /\ next_queue_from (Some 32) false 0 (queues s) = None
    /\ get_available_memory_start 1 64 s = Done (Some 0) s.
Proof.
  eexists. split; [vm_compute; reflexivity|].
  repeat split; vm_compute; reflexivity.
Qed.

(** *** The order of the queries *)

(** Claim C6, evaluated at a failing input.  The three active slots are
    at offsets 0, 96 and 64 in table order.  For the slot at offset 0,
    [get_next_queue] answers with table position 1, the slot at offset 96,
    although the slot at offset 64 is the one with the smallest larger
    address. *)
Theorem next_queue_follows_table_order :
  exists s, state_after second_moved_to_tail = Some s
    /\ layout s = [(Some 0, 32, 0); (Some 96, 64, 33); (Some 64, 32, 0)]
    /\ get_next_queue (Some 0) s = Done (Some 1%nat) s.
Proof.
  eexists. split; [vm_compute; reflexivity|].
  split; vm_compute; reflexivity.
Qed.

(** *** Capacity and length *)

(** Claim C7.  After any sequence of calls that returned, the capacity of
    every active queue is the smallest multiple of the growth unit that is
    at least its length, or its length is exactly one growth unit below
    its capacity; the length is never lower than that. *)
Theorem capacity_brackets_length ops r s h q :
  run ops initial_state = Done r s ->
  queues s !! h = Some q -> bIs_Active q = true ->
  (smallest_capacity_for (Size q) (AllocatedSize q)
   \/ Size q = AllocatedSize q - DEFAULT_ALLOC_SIZE)
  /\ AllocatedSize q - DEFAULT_ALLOC_SIZE <= Size q.
Proof.
  intros Hrun L Act.
  pose proof (run_ok _ _ _ _ table_ok_initial Hrun) as Hok.
  pose proof (table_ok_lookup _ _ _ Hok L) as Hs.
  unfold slot_ok in Hs. rewrite Act in Hs.
  destruct Hs as (_ & (k & Hk) & _ & [Hlo Hhi] & _).
  split; [|exact Hlo].
  destruct (Z.eq_dec (Size q) (AllocatedSize q - DEFAULT_ALLOC_SIZE)) as [E|N];
    [right; exact E|left].
  unfold smallest_capacity_for. split; [exists k; exact Hk|].
  split; [exact Hhi|]. intros m (j & Hj) Hm.
  unfold DEFAULT_ALLOC_SIZE in *. lia.
Qed.

(** The theorem at work: one queue, 33 bytes in, one byte out. *)
Lemma capacity_brackets_length_witness :
  exists r s q,
    run (Create :: enqueue_run 0 1 33 ++ [Dequeue 0]) initial_state = Done r s
    /\ queues s !! 0%nat = Some q
    /\ bIs_Active q = true
    /\ (smallest_capacity_for (Size q) (AllocatedSize q)
        \/ Size q = AllocatedSize q - DEFAULT_ALLOC_SIZE)
    /\ AllocatedSize q - DEFAULT_ALLOC_SIZE <= Size q.
Proof.
  do 3 eexists. split; [vm_compute; reflexivity|].
  split; [vm_compute; reflexivity|].
  split; [reflexivity|].
  eapply (capacity_brackets_length
            (Create :: enqueue_run 0 1 33 ++ [Dequeue 0]) _ _ 0%nat _);
    [vm_compute; reflexivity|vm_compute; reflexivity|reflexivity].
Defined.

(** *** The flag of compaction and a second call *)

(** Claim C8 fails on the code, whatever order [std::sort] gives two
    slots at one memory location.  Two states are reached by calls that
    all returned, and both satisfy I1 to I5.  In the first the queue of
    the second slot has been emptied to capacity 0 and lies below the
    queue of the first slot; in the second the queue of the first slot
    has been emptied to capacity 0 and lies below the other.  On either
    state the first compaction returns true and leaves both queues at
    offset 0: a tie for the comparison.  A sort that returns the tie of
    the second table in table order returns the tie of the first table in
    table order, since the two tables look the same through the
    comparison; the second compaction then moves the slot of capacity 0
    of the first table behind the other slot and returns true.  A sort
    that returns the tie of the second table in the other order makes the
    second compaction of that table move the slot of capacity 0 behind
    the other slot and return true.  (That the sort sees the slots
    through the comparison only is needed here: a sort that told slots at
    one memory location apart by their capacity could put the slot of
    capacity 0 first in both tables.) *)
Lemma second_compaction_moves_empty_slot :
  exists sA sB,
    state_after empty_slot_below = Some sA
    /\ state_after empty_slot_first = Some sB
    /\ I1 sA && I2 sA && I3 sA && I4 sA && I5 sA = true
    /\ I1 sB && I2 sB && I3 sB && I4 sB && I5 sB = true
    /\ layout sA = [(Some 64, 64, 33); (Some 32, 0, 0)]
    /\ layout sB = [(Some 0, 0, 0); (Some 32, 32, 0)]
    /\ forall sort, sorts_by_comparison sort ->
         (exists s1 s2,
            try_organize_memory_with sort sA = Done true s1
            /\ try_organize_memory_with sort s1 = Done true s2
            /\ layout s1 = [(Some 0, 64, 33); (Some 0, 0, 0)]
            /\ layout s2 = [(Some 0, 64, 33); (Some 64, 0, 0)])
         \/ (exists s1 s2,
               try_organize_memory_with sort sB = Done true s1
               /\ try_organize_memory_with sort s1 = Done true s2
               /\ layout s1 = [(Some 0, 0, 0); (Some 0, 32, 0)]
               /\ layout s2 = [(Some 32, 0, 0); (Some 0, 32, 0)]).
Proof.
  do 2 eexists. split; [vm_compute; reflexivity|].
  split; [vm_compute; reflexivity|].
  split; [vm_compute; reflexivity|].
  split; [vm_compute; reflexivity|].
  split; [vm_compute; reflexivity|].
  split; [vm_compute; reflexivity|].
  intros sort Hsort.
  lazymatch goal with
  | |- (exists _ _, try_organize_memory_with _ ?a = _ /\ _)
       \/ (exists _ _, try_organize_memory_with _ ?b = _ /\ _) =>
      set (sA := a); set (sB := b)
  end.
  set (xA := mk_queue (Some 0) 64 33 true).
  set (yA := mk_queue (Some 0) 0 0 true).
  set (xB := mk_queue (Some 0) 0 0 true).
  set (yB := mk_queue (Some 0) 32 0 true).
  set (rest := replicate 62 empty_queue).
  assert (exists s1 s2,
            try_organize_memory sA = Done true s1
            /\ queues s1 = xA :: yA :: rest
            /\ organize_sorted (xA :: yA :: rest) s1 = Done true s2
            /\ layout s1 = [(Some 0, 64, 33); (Some 0, 0, 0)]
            /\ layout s2 = [(Some 0, 64, 33); (Some 64, 0, 0)])
    as (sA1 & sA2 & EA & QA & OA & LA).
  { do 2 eexists. split; [vm_compute; reflexivity|].
    split; [vm_compute; reflexivity|].
    split; [vm_compute; reflexivity|].
    split; vm_compute; reflexivity. }
  assert (exists s1 s2,
            try_organize_memory sB = Done true s1
            /\ queues s1 = xB :: yB :: rest
            /\ organize_sorted (yB :: xB :: rest) s1 = Done true s2
            /\ layout s1 = [(Some 0, 0, 0); (Some 0, 32, 0)]
            /\ layout s2 = [(Some 32, 0, 0); (Some 0, 32, 0)])
    as (sB1 & sB2 & EB & QB & OB & LB).
  { do 2 eexists. split; [vm_compute; reflexivity|].
    split; [vm_compute; reflexivity|].
    split; [vm_compute; reflexivity|].
    split; vm_compute; reflexivity. }
  destruct (sort_of_two_active sort xB yB rest Hsort eq_refl eq_refl
              (blank_slots 62)) as [Hkeep|Hswap].
  - left. exists sA1, sA2. split; [|split; [|exact LA]].
    + rewrite try_organize_memory_with_agrees;
        [exact EA|exact Hsort|vm_compute; reflexivity].
    + unfold try_organize_memory_with, bind, get_queues. rewrite QA.
      rewrite (same_tie_same_order sort xB yB xA yA rest Hsort);
        try reflexivity; try discriminate;
        [exact OA|apply blank_slots|exact Hkeep].
  - right. exists sB1, sB2. split; [|split; [|exact LB]].
    + rewrite try_organize_memory_with_agrees;
        [exact EB|exact Hsort|vm_compute; reflexivity].
    + unfold try_organize_memory_with, bind, get_queues.
      rewrite QB, Hswap. exact OB.
Qed.

Lemma positive_capacities_sound l :
  positive_capacities l = true ->
  forall q, In q l -> bIs_Active q = true -> 0 < AllocatedSize q.
Proof.
  unfold positive_capacities. rewrite forallb_forall. intros H q Hq Act.
  specialize (H q Hq). rewrite Act in H. simpl in H.
  apply Z.ltb_lt. exact H.
Qed.

(** Claim C8, as amended.  Compaction returns true exactly when it made a
    block move, and when it returns false it changed nothing; on a state
    whose active slots all have a positive capacity, a second call right
    after the first returns false and changes nothing. *)
Theorem compaction_flag_and_second_call s b s' :
  try_organize_memory s = Done b s' ->
  (b = true <-> (move_count s < move_count s')%nat)
  /\ (b = false -> s' = s)
  /\ ((forall q, In q (queues s) -> bIs_Active q = true ->
                 0 < AllocatedSize q) ->
      try_organize_memory s' = Done false s').
Proof.
  intros H. pose proof (try_organize_memory_flag _ _ _ H) as Hflag.
  split; [|split].
  - destruct Hflag as [[-> ->]|[-> Hlt]].
    + split; [discriminate|lia].
    + split; auto.
  - intros ->. destruct Hflag as [[-> _]|[Hb _]]; [reflexivity|discriminate].
  - intros Hpos. eapply try_organize_memory_twice; [|exact H].
    intros q Hq. apply Hpos, list_elem_of_In. exact Hq.
Qed.

(** The theorem at work: compaction closes the gap before the third queue,
    and a second call finds nothing to do. *)
Lemma compaction_flag_and_second_call_witness :
  exists s s', state_after gap_before_third = Some s
    /\ try_organize_memory s = Done true s'
    /\ (move_count s < move_count s')%nat
    /\ try_organize_memory s' = Done false s'.
Proof.
  do 2 eexists. split; [vm_compute; reflexivity|].
  split; [vm_compute; reflexivity|].
  lazymatch goal with
  | |- (move_count ?s < move_count ?s')%nat /\ _ =>
      destruct (compaction_flag_and_second_call s true s')
        as (Hb & _ & Htwice); [vm_compute; reflexivity|]
  end.
  split; [apply Hb; reflexivity|].
  apply Htwice. apply positive_capacities_sound. vm_compute. reflexivity.
Defined.

(** The amended claim holds whatever order the sort gives slots at one
    memory location. *)
Lemma compaction_flag_and_second_call_any_sort sort s b s' :
  (forall l, Permutation (sort l) l) ->
  (forall l, StronglySorted not_after (sort l)) ->
  try_organize_memory_with sort s = Done b s' ->
  (b = true <-> (move_count s < move_count s')%nat)
  /\ (b = false -> s' = s)
  /\ ((forall q, In q (queues s) -> bIs_Active q = true ->
                 0 < AllocatedSize q) ->
      try_organize_memory_with sort s' = Done false s').
Proof.
  intros Hperm Hsorted H.
  pose proof (try_organize_memory_with_flag _ _ _ _ H) as Hflag.
  split; [|split].
  - destruct Hflag as [[-> ->]|[-> Hlt]].
    + split; [discriminate|lia].
    + split; auto.
  - intros ->.
    destruct Hflag as [[-> _]|[Hb _]]; [reflexivity|discriminate].
  - intros Hpos.
    eapply try_organize_memory_with_twice;
      [exact Hperm|exact Hsorted| |exact H].
    intros q Hq. apply Hpos, list_elem_of_In. exact Hq.
Qed.

(** *** What compaction leaves behind *)

(** Claim C9, evaluated at a failing input.  Compaction moves the slot of
    handle 2 from offset 64 to offset 32.  Offset 64 belonged to its old
    range and lies in no active range afterwards, and still holds the
    byte 1. *)
Theorem compaction_leaves_old_bytes_of_later_slots :
  exists s s', state_after gap_before_third = Some s
    /\ I1 s && I2 s && I3 s && I4 s && I5 s = true
    /\ layout s = [(Some 0, 32, 0); (Some 64, 32, 32)]
    /\ try_organize_memory s = Done true s'
    /\ layout s' = [(Some 0, 32, 0); (Some 32, 32, 32)]
    /\ existsb (fun q => in_range q 64) (active_queues s) = true
    /\ existsb (fun q => in_range q 64) (active_queues s') = false
    /\ data s' !! 64%nat = Some 1.
Proof.
  do 2 eexists. split; [vm_compute; reflexivity|].
  split; [vm_compute; reflexivity|].
  split; [vm_compute; reflexivity|].
  split; [vm_compute; reflexivity|].
  repeat split; vm_compute; reflexivity.
Qed.

(** *** The indices [dequeue_byte] touches *)

(** Claim C10, evaluated at a failing input.  The queue occupies
    [[0, 32)] and holds 32 bytes; [dequeue_byte] reads index 32.  When
    the full queue is the one that ends at the end of the arena, that read
    is outside [data]. *)
Theorem dequeue_reads_past_allocated_range :
  (exists s b s', state_after one_full_queue = Some s
     /\ layout s = [(Some 0, 32, 32)]
     /\ dequeue_byte 0 (forget_trace s) = Done b s'
     /\ reads 32 (trace s') = true)
  /\ (exists s, state_after Test_FillQueues = Some s
        /\ option_map (fun q => (MemoryBlockPtr q, AllocatedSize q, Size q))
                      (queues s !! 63%nat) = Some (Some 2016, 32, 32)
        /\ dequeue_byte 63 s = Undef).
Proof.
  split.
  - do 3 eexists. split; [vm_compute; reflexivity|].
    split; [vm_compute; reflexivity|].
    split; vm_compute; reflexivity.
  - eexists. split; [vm_compute; reflexivity|].
    split; vm_compute; reflexivity.
Qed.

(** ** The functions one by one *)

(** *** The comparison of [reorganize_byte_queues] *)

Lemma pointer_ltb_leb p q : pointer_ltb q p = false <-> pointer_leb p q = true.
Proof.
  destruct p as [a|], q as [b|]; simpl; split; intros H;
    try discriminate; try reflexivity.
  - apply Z.leb_le. apply Z.ltb_ge in H. exact H.
  - apply Z.ltb_ge. apply Z.leb_le in H. exact H.
Qed.

Lemma pointer_leb_refl p : pointer_leb p p = true.
Proof. destruct p; simpl; [apply Z.leb_refl|reflexivity]. Qed.

(** Property X1.  The comparison handed to [std::sort] is a strict weak
    ordering, as [std::sort] requires: no slot comes before itself, the
    comparison is transitive, and so is being unordered either way. *)
Theorem queue_before_strict_weak_order :
  (forall x, queue_before x x = false)
  /\ (forall x y z, queue_before x y = true -> queue_before y z = true ->
                    queue_before x z = true)
  /\ (forall x y z, queue_before x y = false -> queue_before y x = false ->
                    queue_before y z = false -> queue_before z y = false ->
                    queue_before x z = false /\ queue_before z x = false).
Proof.
  unfold queue_before. split; [|split].
  - intros x. destruct (bIs_Active x), (MemoryBlockPtr x); simpl;
      try reflexivity; apply Z.ltb_irrefl.
  - intros x y z.
    destruct (bIs_Active x), (bIs_Active y), (bIs_Active z); simpl;
      try discriminate; auto;
      destruct (MemoryBlockPtr x), (MemoryBlockPtr y), (MemoryBlockPtr z);
      simpl; try discriminate; auto;
      rewrite !Z.ltb_lt; lia.
  - intros x y z.
    destruct (bIs_Active x), (bIs_Active y), (bIs_Active z); simpl;
      try discriminate; auto;
      destruct (MemoryBlockPtr x), (MemoryBlockPtr y), (MemoryBlockPtr z);
      simpl; try discriminate; auto;
      rewrite !Z.ltb_ge; lia.
Qed.

(** *** The shape of the sorted copy *)

Lemma not_after_not_above x y :
  not_after x y -> bIs_Active x = bIs_Active y -> not_above x y.
Proof.
  unfold not_after, queue_before, not_above. intros H E. rewrite E in H.
  rewrite Bool.eqb_reflx in H. simpl in H. apply pointer_ltb_leb. exact H.
Qed.

Lemma sorted_not_above f l :
  StronglySorted not_after l ->
  (forall x y, f x = true -> f y = true -> bIs_Active x = bIs_Active y) ->
  StronglySorted not_above (List.filter f l).
Proof.
  intros H Hf. induction l as [|x l IH]; simpl; [constructor|].
  apply StronglySorted_inv in H as [Hl Hx].
  destruct (f x) eqn:Fx; [|auto]. constructor; [auto|].
  apply Forall_forall. intros y Hy.
  apply list_elem_of_In, filter_In in Hy as [Hy Fy].
  rewrite Forall_forall in Hx.
  apply not_after_not_above; [apply Hx, list_elem_of_In, Hy|auto].
Qed.

(** Property X2.  [reorganize_byte_queues] returns the slots it was given,
    the active ones first and then the inactive ones, each group in
    ascending order of memory location. *)
Theorem reorganize_byte_queues_sorts l :
  exists active inactive,
    reorganize_byte_queues l = active ++ inactive
    /\ Permutation (active ++ inactive) l
    /\ Forall (fun q => bIs_Active q = true) active
    /\ Forall (fun q => bIs_Active q = false) inactive
    /\ StronglySorted not_above active
    /\ StronglySorted not_above inactive.
Proof.
  pose proof (reorganize_byte_queues_sorted l) as Hs.
  exists (List.filter bIs_Active (reorganize_byte_queues l)),
         (List.filter (fun q => negb (bIs_Active q))
                      (reorganize_byte_queues l)).
  split; [apply sorted_active_then_inactive; exact Hs|].
  split.
  { rewrite <- sorted_active_then_inactive by exact Hs.
    apply reorganize_byte_queues_perm. }
  split; [apply filter_active_all|].
  split.
  { apply Forall_forall. intros q Hq.
    apply list_elem_of_In, filter_In in Hq as [_ Hq].
    apply negb_true_iff. exact Hq. }
  split; apply sorted_not_above; try exact Hs.
  - intros x y -> ->. reflexivity.
  - intros x y Hx Hy. apply negb_true_iff in Hx, Hy. congruence.
Qed.

(** *** The lowest and the highest active slot *)

Lemma find_none_inactive l :
  List.find bIs_Active l = None ->
  forall q, q ∈ l -> bIs_Active q = false.
Proof.
  intros H q Hq. apply list_elem_of_In in Hq.
  exact (find_none _ _ H q Hq).
Qed.

Lemma sorted_find_lowest l q :
  StronglySorted not_after l -> List.find bIs_Active l = Some q ->
  Forall (fun y => bIs_Active y = true -> not_above q y) l.
Proof.
  induction l as [|x l IH]; intros Hs H; simpl in H; [discriminate|].
  apply StronglySorted_inv in Hs as [Hl Hx].
  destruct (bIs_Active x) eqn:Act.
  - injection H as <-. constructor.
    + intros _. apply pointer_leb_refl.
    + eapply Forall_impl; [exact Hx|]. intros y Hy Ay.
      apply not_after_not_above; [exact Hy|congruence].
  - constructor; [congruence|]. apply IH; assumption.
Qed.

Lemma find_app_bool {A} (f : A -> bool) l1 l2 :
  List.find f (l1 ++ l2)
  = match List.find f l1 with
    | Some x => Some x
    | None => List.find f l2
    end.
Proof.
  induction l1 as [|x l1 IH]; simpl; [reflexivity|].
  destruct (f x); [reflexivity|exact IH].
Qed.

Lemma sorted_find_highest l q :
  StronglySorted not_after l -> List.find bIs_Active (rev l) = Some q ->
  Forall (fun y => bIs_Active y = true -> not_above y q) l.
Proof.
  induction l as [|x l IH]; intros Hs H; [constructor|].
  apply StronglySorted_inv in Hs as [Hl Hx].
  simpl in H. rewrite find_app_bool in H.
  destruct (List.find bIs_Active (rev l)) as [q'|] eqn:F.
  - injection H as ->. constructor; [|apply IH; auto].
    intros Ax. apply find_active_elem in F as [Hin Aq].
    apply list_elem_of_In, in_rev in Hin.
    rewrite Forall_forall in Hx.
    apply not_after_not_above; [apply Hx, list_elem_of_In, Hin|congruence].
  - simpl in H. destruct (bIs_Active x) eqn:Act; [|discriminate].
    injection H as <-. constructor; [intros _; apply pointer_leb_refl|].
    apply Forall_forall. intros y Hy Ay.
    assert (Hy' : y ∈ rev l)
      by (apply list_elem_of_In, in_rev; rewrite rev_involutive;
          apply list_elem_of_In; exact Hy).
    rewrite (find_none_inactive _ F y Hy') in Ay. discriminate.
Qed.

(** [std::find] stops at the first slot that equals the one it looks
    for. *)
Lemma find_queue_first q l :
  q ∈ l ->
  l !! find_queue q l = Some q
  /\ forall j q', (j < find_queue q l)%nat -> l !! j = Some q' -> q' <> q.
Proof.
  induction l as [|x l IH]; intros Hin; [inversion Hin|]. simpl.
  destruct (queue_eqb x q) eqn:E.
  - apply queue_eqb_eq in E as ->. split; [reflexivity|]. intros j q' Hj. lia.
  - assert (Hx : x <> q).
    { intros ->. assert (queue_eqb q q = true) by (apply queue_eqb_eq; auto).
      congruence. }
    apply elem_of_cons in Hin as [->|Hin]; [congruence|].
    destruct (IH Hin) as [L Hfirst]. split; [exact L|].
    intros [|j] q' Hj Lq; simpl in Lq.
    + injection Lq as <-. exact Hx.
    + eapply Hfirst; eauto. lia.
Qed.

(** Property X3.  [get_first_queue] always returns and changes nothing;
    it returns [nullptr] when no slot is active, and otherwise a copy of
    an active slot of the table that no active slot lies below. *)
Theorem get_first_queue_lowest s :
  exists r, get_first_queue s = Done r s
    /\ match r with
       | None => forall q, q ∈ queues s -> bIs_Active q = false
       | Some q =>
           q ∈ queues s /\ bIs_Active q = true
           /\ forall q', q' ∈ queues s -> bIs_Active q' = true ->
                         not_above q q'
       end.
Proof.
  exists (List.find bIs_Active (reorganize_byte_queues (queues s))).
  split; [reflexivity|].
  destruct (List.find _ _) as [q|] eqn:F.
  - pose proof (sorted_find_lowest _ _ (reorganize_byte_queues_sorted _) F)
      as Hlow.
    apply find_active_elem in F as [Hin Act].
    split; [apply sorted_copy_elem; exact Hin|]. split; [exact Act|].
    intros q' Hq' Aq'. rewrite Forall_forall in Hlow. apply Hlow; [|exact Aq'].
    rewrite reorganize_byte_queues_perm. exact Hq'.
  - intros q Hq. apply (find_none_inactive _ F).
    rewrite reorganize_byte_queues_perm. exact Hq.
Qed.

(** Property X4.  [get_last_queue] always returns and changes nothing; it
    returns [nullptr] when no slot is active, and otherwise the first slot
    of the table that equals an active slot no active slot lies above. *)
Theorem get_last_queue_highest s :
  exists r, get_last_queue s = Done r s
    /\ match r with
       | None => forall q, q ∈ queues s -> bIs_Active q = false
       | Some i =>
           exists q,
             queues s !! i = Some q /\ bIs_Active q = true
             /\ (forall q', q' ∈ queues s -> bIs_Active q' = true ->
                            not_above q' q)
             /\ (forall j q', (j < i)%nat -> queues s !! j = Some q' ->
                              q' <> q)
       end.
Proof.
  unfold get_last_queue, bind, get_queues.
  destruct (List.find bIs_Active (rev (reorganize_byte_queues (queues s))))
    as [q|] eqn:F.
  - eexists. split; [reflexivity|]. exists q.
    pose proof (sorted_find_highest _ _ (reorganize_byte_queues_sorted _) F)
      as Hhigh.
    apply find_active_elem in F as [Hin Act].
    apply list_elem_of_In, in_rev, list_elem_of_In, sorted_copy_elem in Hin.
    destruct (find_queue_first _ _ Hin) as [L Hfirst].
    split; [exact L|]. split; [exact Act|]. split; [|exact Hfirst].
    intros q' Hq' Aq'. rewrite Forall_forall in Hhigh.
    apply Hhigh; [|exact Aq'].
    rewrite reorganize_byte_queues_perm. exact Hq'.
  - eexists. split; [reflexivity|]. intros q Hq.
    apply (find_none_inactive _ F).
    apply list_elem_of_In, in_rev. rewrite rev_involutive.
    apply list_elem_of_In. rewrite reorganize_byte_queues_perm. exact Hq.
Qed.

(** *** The slot after a given memory location *)

Lemma next_queue_from_found_none p l : forall i,
  next_queue_from p true i l = None ->
  forall m q, l !! m = Some q -> bIs_Active q = false.
Proof.
  induction l as [|x l IH]; intros i H m q L; simpl in H; [discriminate L|].
  destruct (bIs_Active x) eqn:Act; [discriminate H|].
  destruct m as [|m]; simpl in L.
  - injection L as <-. exact Act.
  - eapply IH; eauto.
Qed.

Lemma next_queue_from_none p l : forall i,
  next_queue_from p false i l = None ->
  (forall m q, l !! m = Some q -> MemoryBlockPtr q <> p)
  \/ exists j q,
       l !! j = Some q /\ MemoryBlockPtr q = p
       /\ (forall m q', (m < j)%nat -> l !! m = Some q' ->
                        MemoryBlockPtr q' <> p)
       /\ (forall m q', (j < m)%nat -> l !! m = Some q' ->
                        bIs_Active q' = false).
Proof.
  induction l as [|x l IH]; intros i H; simpl in H.
  - left. intros m q L. discriminate L.
  - destruct (pointer_eqb (MemoryBlockPtr x) p) eqn:E; simpl in H.
    + apply pointer_eqb_eq in E. right. exists 0%nat, x.
      split; [reflexivity|]. split; [exact E|].
      split; [intros m q' Hm; lia|].
      intros [|m] q' Hm L; [lia|]. simpl in L.
      eapply next_queue_from_found_none; eauto.
    + assert (Hx : MemoryBlockPtr x <> p).
      { intros Heq. apply pointer_eqb_eq in Heq. congruence. }
      destruct (IH _ H) as [Hnone|(j & q & L & Hp & Hfirst & Hafter)].
      * left. intros [|m] q L; simpl in L; [injection L as <-; exact Hx|].
        eapply Hnone; eauto.
      * right. exists (S j), q. split; [exact L|]. split; [exact Hp|].
        split.
        -- intros [|m] q' Hm Lq; simpl in Lq;
             [injection Lq as <-; exact Hx|].
           apply (Hfirst m q'); [lia|exact Lq].
        -- intros [|m] q' Hm Lq; [lia|]. simpl in Lq.
           apply (Hafter m q'); [lia|exact Lq].
Qed.

(** Property X5.  [get_next_queue] always returns and changes nothing.
    It looks for the first slot of the table, active or not, whose memory
    location is the one of its argument, and returns the first active slot
    behind it in the table; it returns [nullptr] when no slot has that
    memory location or no active slot comes behind the first one that
    has. *)
Theorem get_next_queue_first_active_behind p s :
  exists r, get_next_queue p s = Done r s
    /\ match r with
       | Some n =>
           exists j q qn,
             (j < n)%nat /\ queues s !! j = Some q /\ MemoryBlockPtr q = p
             /\ (forall m q', (m < j)%nat -> queues s !! m = Some q' ->
                              MemoryBlockPtr q' <> p)
             /\ queues s !! n = Some qn /\ bIs_Active qn = true
             /\ (forall m q', (j < m < n)%nat -> queues s !! m = Some q' ->
                              bIs_Active q' = false)
       | None =>
           (forall m q, queues s !! m = Some q -> MemoryBlockPtr q <> p)
           \/ exists j q,
                queues s !! j = Some q /\ MemoryBlockPtr q = p
                /\ (forall m q', (m < j)%nat -> queues s !! m = Some q' ->
                                 MemoryBlockPtr q' <> p)
                /\ (forall m q', (j < m)%nat -> queues s !! m = Some q' ->
                                 bIs_Active q' = false)
       end.
Proof.
  exists (next_queue_from p false 0 (queues s)). split; [reflexivity|].
  destruct (next_queue_from p false 0 (queues s)) as [n|] eqn:E.
  - apply next_queue_from_table_order in E
      as (j & k & q & qn & Lj & Hp & Hfirst & -> & Ln & Aq & Hmid).
    exists j, q, qn. simpl in *.
    split; [lia|]. split; [exact Lj|]. split; [exact Hp|].
    split; [exact Hfirst|]. split; [exact Ln|]. split; [exact Aq|].
    intros m q' Hm. apply Hmid. lia.
  - apply next_queue_from_none in E. exact E.
Qed.

(** *** The bytes of the arena after a move *)

(** Case analysis on the comparisons of a goal. *)
Ltac compare_all :=
  unfold in_block;
  repeat match goal with
         | |- context [?a <=? ?b] => destruct (Z.leb_spec a b)
         | |- context [?a <? ?b] => destruct (Z.ltb_spec a b)
         | |- context [?a =? ?b] => destruct (Z.eqb_spec a b)
         end;
  simpl; try reflexivity; try lia.

Lemma arena_size : Z.to_nat MEMORY_ALLOC_SIZE = 2048%nat.
Proof. reflexivity. Qed.

Lemma memmove_data d a n s :
  0 <= n -> 0 <= a -> a + n <= MEMORY_ALLOC_SIZE ->
  0 <= d -> d + n <= MEMORY_ALLOC_SIZE ->
  length (data s) = Z.to_nat MEMORY_ALLOC_SIZE ->
  exists s',
    memmove (Some d) (Some a) n s = Done tt s'
    /\ queues s' = queues s
    /\ length (data s') = length (data s)
    /\ forall k, 0 <= k < MEMORY_ALLOC_SIZE ->
         data s' !! Z.to_nat k
         = if in_block d n k then data s !! Z.to_nat (k - d + a)
           else data s !! Z.to_nat k.
Proof.
  intros Hn Ha Han Hd Hdn Hlen. unfold memmove.
  replace ((0 <=? a) && (a + n <=? MEMORY_ALLOC_SIZE)
           && (0 <=? d) && (d + n <=? MEMORY_ALLOC_SIZE)) with true
    by (symmetry; rewrite !andb_true_iff, !Z.leb_le; auto).
  eexists. split; [reflexivity|]. simpl. split; [reflexivity|].
  assert (Hblock : length (take (Z.to_nat n) (drop (Z.to_nat a) (data s)))
                   = Z.to_nat n).
  { rewrite length_take, length_drop, Hlen. lia. }
  assert (Htake : length (take (Z.to_nat d) (data s)) = Z.to_nat d).
  { rewrite length_take, Hlen. lia. }
  split.
  { rewrite !length_app, Htake, Hblock, length_drop, Hlen. lia. }
  intros k Hk. unfold in_block.
  destruct (Z.leb_spec d k) as [Hlo|Hlo]; simpl.
  - rewrite lookup_app_r by (rewrite Htake; lia). rewrite Htake.
    destruct (Z.ltb_spec k (d + n)) as [Hhi|Hhi].
    + rewrite lookup_app_l by (rewrite Hblock; lia).
      rewrite lookup_take_lt by lia. rewrite lookup_drop.
      f_equal. lia.
    + rewrite lookup_app_r by (rewrite Hblock; lia). rewrite Hblock.
      rewrite lookup_drop. f_equal. lia.
  - rewrite lookup_app_l by (rewrite Htake; lia).
    apply lookup_take_lt. lia.
Qed.

(** The loop [for (i = from; i < from + count; i++) p[i] = 0]. *)
Lemma clear_loop_data a : forall count from s,
  0 <= a + from -> a + from + Z.of_nat count <= MEMORY_ALLOC_SIZE ->
  length (data s) = Z.to_nat MEMORY_ALLOC_SIZE ->
  exists s',
    for_loop count from (fun i => store (Some a) i 0) s = Done tt s'
    /\ queues s' = queues s
    /\ length (data s') = length (data s)
    /\ forall k, 0 <= k < MEMORY_ALLOC_SIZE ->
         data s' !! Z.to_nat k
         = if in_block (a + from) (Z.of_nat count) k then Some 0
           else data s !! Z.to_nat k.
Proof.
  induction count as [|c IH]; intros from s Hlo Hhi Hlen.
  - exists s. split; [reflexivity|]. split; [reflexivity|].
    split; [reflexivity|]. intros k Hk. compare_all.
  - simpl for_loop. unfold bind, store at 1.
    replace (in_arena (a + from)) with true
      by (symmetry; unfold in_arena; rewrite andb_true_iff, Z.leb_le,
            Z.ltb_lt; lia).
    edestruct (IH (from + 1)) as (s' & E & Hq & Hl & Hd);
      [| | |rewrite E].
    + lia.
    + simpl. lia.
    + simpl. rewrite length_insert. exact Hlen.
    + exists s'. split; [reflexivity|]. split; [exact Hq|].
      split; [rewrite Hl; simpl; apply length_insert|].
      intros k Hk. rewrite (Hd k Hk). simpl.
      destruct (Z.eq_dec k (a + from)) as [->|Hne].
      * rewrite list_lookup_insert_eq by (rewrite Hlen; lia). compare_all.
      * rewrite list_lookup_insert_ne by lia. compare_all.
Qed.

(** Property X6.  [relocate_bytes] on two blocks inside the arena returns
    and leaves the slot table alone.  With equal locations it changes no
    byte.  Otherwise the destination block holds the bytes the source
    block held, also when the two blocks overlap, and no byte outside the
    destination has changed; with [clear] set, every byte of the source
    block is 0 afterwards, also where the source block overlaps the
    destination. *)
Theorem relocate_bytes_moves_block a d n clear s :
  0 <= n -> 0 <= a -> a + n <= MEMORY_ALLOC_SIZE ->
  0 <= d -> d + n <= MEMORY_ALLOC_SIZE ->
  length (data s) = Z.to_nat MEMORY_ALLOC_SIZE ->
  exists s',
    relocate_bytes (Some a) (Some d) n clear s = Done tt s'
    /\ queues s' = queues s
    /\ length (data s') = length (data s)
    /\ forall k, 0 <= k < MEMORY_ALLOC_SIZE ->
         data s' !! Z.to_nat k
         = if a =? d then data s !! Z.to_nat k
           else if clear && in_block a n k then Some 0
           else if in_block d n k then data s !! Z.to_nat (k - d + a)
           else data s !! Z.to_nat k.
Proof.
  intros Hn Ha Han Hd Hdn Hlen. unfold relocate_bytes. simpl.
  rewrite Z.eqb_sym. destruct (Z.eqb_spec a d) as [->|Hne].
  { exists s. auto. }
  destruct (memmove_data d a n s) as (s1 & E & Hq & Hl & Hdata); auto.
  unfold bind. rewrite E. destruct clear; simpl.
  - destruct (clear_loop_data a (Z.to_nat n) 0 s1)
      as (s2 & E2 & Hq2 & Hl2 & Hdata2); [lia|lia|congruence|].
    exists s2. split; [exact E2|]. split; [congruence|].
    split; [congruence|]. intros k Hk. rewrite (Hdata2 k Hk).
    rewrite Z2Nat.id, Z.add_0_r by lia.
    destruct (in_block a n k); [reflexivity|]. apply Hdata. exact Hk.
  - exists s1. split; [reflexivity|]. split; [exact Hq|].
    split; [exact Hl|]. exact Hdata.
Qed.

(** The theorem at work: the move compaction makes for a first slot of
    length 40 at offset 32. *)
Lemma relocate_bytes_moves_block_witness :
  exists s',
    relocate_bytes (Some 32) (Some 0) 40 true initial_state = Done tt s'
    /\ queues s' = queues initial_state
    /\ length (data s') = length (data initial_state)
    /\ forall k, 0 <= k < MEMORY_ALLOC_SIZE ->
         data s' !! Z.to_nat k
         = if 32 =? 0 then data initial_state !! Z.to_nat k
           else if true && in_block 32 40 k then Some 0
           else if in_block 0 40 k
                then data initial_state !! Z.to_nat (k - 0 + 32)
           else data initial_state !! Z.to_nat k.
Proof.
  apply (relocate_bytes_moves_block 32 0 40 true initial_state);
    try (unfold MEMORY_ALLOC_SIZE; lia).
  reflexivity.
Defined.

(** *** Relations between the state before and after a call *)

Section Preserved.
Variable R : state -> state -> Prop.
Hypothesis R_refl : forall s, R s s.
Hypothesis R_trans : forall s1 s2 s3, R s1 s2 -> R s2 s3 -> R s1 s3.

Lemma preserves_bind {A B} (m : M A) (f : A -> M B) :
  preserves R m -> (forall a, preserves R (f a)) -> preserves R (bind m f).
Proof.
  intros Hm Hf s b s' H. bind_inv H as a s1 E.
  apply Hm in E. apply Hf in H. eauto.
Qed.

Lemma preserves_same_state {A} (m : M A) :
  (forall s a s', m s = Done a s' -> s' = s) -> preserves R m.
Proof. intros H s a s' E. apply H in E as ->. apply R_refl. Qed.

Lemma preserves_ret {A} (a : A) : preserves R (ret a).
Proof.
  apply preserves_same_state. intros s b s' H. done_inv H. reflexivity.
Qed.

Lemma preserves_get_queues : preserves R get_queues.
Proof.
  apply preserves_same_state. intros s b s' H. done_inv H. reflexivity.
Qed.

Lemma preserves_read_queue i : preserves R (read_queue i).
Proof.
  apply preserves_same_state. intros s b s' H. done_inv H. reflexivity.
Qed.

Lemma preserves_pointer_add p n : preserves R (pointer_add p n).
Proof.
  apply preserves_same_state. intros s a s' H.
  apply pointer_add_Done in H as [-> _]. reflexivity.
Qed.

Lemma preserves_pointer_diff p q : preserves R (pointer_diff p q).
Proof.
  apply preserves_same_state. intros s a s' H.
  apply pointer_diff_Done in H as [-> _]. reflexivity.
Qed.

Lemma preserves_undefined {A} : preserves R (@undefined A).
Proof. intros s a s' H. discriminate H. Qed.

Lemma preserves_on_out_of_memory {A} : preserves R (@on_out_of_memory A).
Proof. intros s a s' H. discriminate H. Qed.

Lemma preserves_on_illegal_operation {A} :
  preserves R (@on_illegal_operation A).
Proof. intros s a s' H. discriminate H. Qed.

Lemma preserves_for_loop body n :
  (forall i, preserves R (body i)) ->
  forall from, preserves R (for_loop n from body).
Proof.
  intros Hb. induction n as [|n IH]; intros from; simpl.
  - apply preserves_ret.
  - apply preserves_bind; auto.
Qed.
End Preserved.

Create HintDb preserved.
#[local] Hint Resolve preserves_ret preserves_get_queues preserves_read_queue
  preserves_pointer_add preserves_pointer_diff preserves_undefined
  preserves_on_out_of_memory preserves_on_illegal_operation : preserved.

(** Proves [preserves R m] along the structure of [m]; the facts about
    [R] and about the calls that change the state are taken from the
    context and from the hints. *)
Ltac preserved :=
  repeat first
    [ solve [eauto with preserved]
    | apply preserves_bind; [solve [eauto with preserved]| |intros ?]
    | apply preserves_for_loop;
        [solve [eauto with preserved]|solve [eauto with preserved]|intros ?]
    | match goal with
      | |- preserves _ (if ?c then _ else _) => destruct c
      | |- preserves _ (match ?x with _ => _ end) => destruct x
      | |- preserves _ (let '(_, _) := ?x in _) => destruct x
      end ].

(** *** Compaction and placement change memory locations only *)

Lemma same_meta_refl s : same_meta s s.
Proof. reflexivity. Qed.

Lemma same_meta_trans s1 s2 s3 :
  same_meta s1 s2 -> same_meta s2 s3 -> same_meta s1 s3.
Proof. unfold same_meta. congruence. Qed.

#[local] Hint Resolve same_meta_refl same_meta_trans : preserved.

Lemma same_meta_same_queues {A} (m : M A) :
  (forall s a s', m s = Done a s' -> queues s' = queues s) ->
  preserves same_meta m.
Proof. intros H s a s' E. unfold same_meta. rewrite (H _ _ _ E). auto. Qed.

Lemma same_meta_relocate_bytes old new n clear :
  preserves same_meta (relocate_bytes old new n clear).
Proof.
  apply same_meta_same_queues. intros. eapply relocate_bytes_queues; eauto.
Qed.

Lemma same_meta_set_location q p : preserves same_meta (set_location q p).
Proof.
  intros s a s' H. apply set_location_Done in H as [L ->].
  unfold same_meta. simpl. eapply meta_insert_same; eauto.
Qed.

#[local] Hint Resolve same_meta_relocate_bytes same_meta_set_location
  : preserved.

Lemma same_meta_organize_loop l :
  forall acc, preserves same_meta (organize_loop l acc).
Proof.
  induction l as [|next l IH]; intros acc; simpl; [preserved|].
  apply preserves_bind; eauto with preserved.
  unfold organize_step. destruct acc. preserved.
Qed.

Lemma same_meta_try_organize_memory : preserves same_meta try_organize_memory.
Proof.
  unfold try_organize_memory, organize_sorted.
  pose proof same_meta_organize_loop. preserved.
Qed.

Lemma same_meta_get_first_queue : preserves same_meta get_first_queue.
Proof. unfold get_first_queue. preserved. Qed.

Lemma same_meta_get_next_queue p : preserves same_meta (get_next_queue p).
Proof. unfold get_next_queue. preserved. Qed.

Lemma same_meta_get_last_queue : preserves same_meta get_last_queue.
Proof. unfold get_last_queue. preserved. Qed.

Lemma same_meta_deref_queue h : preserves same_meta (deref_queue h).
Proof. unfold deref_queue. preserved. Qed.

Lemma same_meta_ends_in_arena p n : preserves same_meta (ends_in_arena p n).
Proof. unfold ends_in_arena. preserved. Qed.

#[local] Hint Resolve same_meta_try_organize_memory same_meta_get_first_queue
  same_meta_get_next_queue same_meta_get_last_queue same_meta_deref_queue
  same_meta_ends_in_arena : preserved.

Lemma same_meta_gap_scan n l :
  forall queue, preserves same_meta (gap_scan n queue l).
Proof.
  induction l as [|t l IH]; intros queue; simpl; [preserved|].
  destruct (negb (bIs_Active t)); [preserved|].
  apply preserves_bind; eauto with preserved. intros e.
  apply preserves_bind; eauto with preserved. intros gap.
  destruct (gap >=? n); [preserved|apply IH].
Qed.

Lemma same_meta_first_free_memory n :
  preserves same_meta (first_free_memory n).
Proof.
  unfold first_free_memory. pose proof same_meta_gap_scan. preserved.
Qed.

Lemma same_meta_get_available_memory_start h n :
  preserves same_meta (get_available_memory_start h n).
Proof. unfold get_available_memory_start. preserved. Qed.

Lemma same_meta_lookup s s' i q :
  same_meta s s' -> queues s !! i = Some q ->
  exists q', queues s' !! i = Some q' /\ meta q' = meta q.
Proof.
  unfold same_meta. intros Hm L.
  assert (H : map meta (queues s') !! i = map meta (queues s) !! i)
    by (rewrite Hm; reflexivity).
  rewrite !list_lookup_fmap, L in H. simpl in H.
  destruct (queues s' !! i) as [q'|]; [|discriminate H].
  exists q'. split; [reflexivity|]. simpl in H. congruence.
Qed.

(** *** Taking a slot of the table *)

Lemma first_inactive_Some l : forall i n,
  first_inactive i l = Some n ->
  exists k q,
    n = (i + k)%nat /\ l !! k = Some q /\ bIs_Active q = false
    /\ forall j q', (j < k)%nat -> l !! j = Some q' -> bIs_Active q' = true.
Proof.
  induction l as [|x l IH]; intros i n H; simpl in H; [discriminate|].
  destruct (bIs_Active x) eqn:Act; simpl in H.
  - apply IH in H as (k & q & -> & L & Aq & Hbefore).
    exists (S k), q. split; [lia|]. split; [exact L|]. split; [exact Aq|].
    intros [|j] q' Hj Lq; simpl in Lq; [congruence|].
    apply (Hbefore j q'); [lia|exact Lq].
  - injection H as <-. exists 0%nat, x.
    split; [lia|]. split; [reflexivity|]. split; [exact Act|].
    intros j q' Hj. lia.
Qed.

Lemma first_inactive_None l : forall i,
  first_inactive i l = None -> forall q, q ∈ l -> bIs_Active q = true.
Proof.
  induction l as [|x l IH]; intros i H q Hq; [inversion Hq|].
  simpl in H. destruct (bIs_Active x) eqn:Act; simpl in H; [|discriminate].
  apply elem_of_cons in Hq as [->|Hq]; [exact Act|]. eapply IH; eauto.
Qed.

(** Property X7.  [add_byte_queue] always returns and touches no byte of
    the arena.  Given [nullptr], or a table without an inactive slot, it
    returns [nullptr] and changes nothing; otherwise it returns the first
    inactive slot of the table, which it has made an empty active queue
    with the given location and capacity, every other slot being as
    before. *)
Theorem add_byte_queue_first_inactive ptr allocSize s :
  exists r s',
    add_byte_queue ptr allocSize s = Done r s'
    /\ data s' = data s
    /\ match r with
       | None =>
           s' = s
           /\ (ptr = None \/ forall q, q ∈ queues s -> bIs_Active q = true)
       | Some i =>
           ptr <> None
           /\ (exists q, queues s !! i = Some q /\ bIs_Active q = false)
           /\ (forall j q', (j < i)%nat -> queues s !! j = Some q' ->
                            bIs_Active q' = true)
           /\ queues s' = <[i := mk_queue ptr allocSize 0 true]> (queues s)
       end.
Proof.
  unfold add_byte_queue. destruct ptr as [a|].
  2:{ exists None, s. repeat split; auto. }
  unfold bind, get_queues.
  destruct (first_inactive 0 (queues s)) as [i|] eqn:F.
  - apply first_inactive_Some in F as (k & q & -> & L & Aq & Hbefore).
    simpl. unfold write_queue. rewrite L.
    eexists _, _. split; [reflexivity|]. simpl. split; [reflexivity|].
    split; [discriminate|]. split; [eauto|]. split; [exact Hbefore|].
    reflexivity.
  - exists None, s. repeat split; auto. right.
    eapply first_inactive_None; eauto.
Qed.

(** *** Creating a queue *)

Lemma all_active_meta s s' :
  same_meta s s' ->
  (forall q, q ∈ queues s -> bIs_Active q = true) ->
  forall q, q ∈ queues s' -> bIs_Active q = true.
Proof.
  intros Hm Hall q' Hq'. apply list_elem_of_lookup_1 in Hq' as [i L'].
  destruct (queues s !! i) as [q|] eqn:L.
  - destruct (same_meta_lookup _ _ _ _ Hm L) as (q2 & L2 & Hmeta).
    rewrite L' in L2. injection L2 as <-.
    unfold meta in Hmeta. injection Hmeta as _ _ ->.
    apply Hall. eapply list_elem_of_lookup_2; eauto.
  - exfalso. apply lookup_ge_None in L.
    apply lookup_lt_Some in L'.
    assert (Hlen : length (map meta (queues s'))
                   = length (map meta (queues s))) by (rewrite Hm; auto).
    rewrite !length_map in Hlen. lia.
Qed.

(** Property X8.  With every slot of the table in use, [create_queue]
    does not return: the call ends in the out-of-memory handler, or in
    undefined behaviour on the way there. *)
Theorem create_queue_on_full_table s :
  (forall q, q ∈ queues s -> bIs_Active q = true) ->
  create_queue s = Abort SIGABRT \/ create_queue s = Undef.
Proof.
  intros Hall.
  destruct (create_queue s) as [h s'|k|] eqn:H; [exfalso| |auto].
  2:{ left. f_equal. eapply aborts_only_create_queue; eauto. }
  unfold create_queue in H. bind_inv H as start s1 E.
  apply same_meta_first_free_memory in E.
  pose proof (all_active_meta _ _ E Hall) as Hall1.
  bind_inv H as u s2 E1.
  destruct start as [a|]; [|done_inv E1]. done_inv E1.
  bind_inv H as result s3 E2.
  destruct (add_byte_queue_first_inactive (Some a) DEFAULT_ALLOC_SIZE s1)
    as (r & s4 & E3 & _ & Hr).
  rewrite E2 in E3. injection E3 as <- <-.
  destruct result as [i|]; [|done_inv H].
  destruct Hr as (_ & (q & L & Aq) & _).
  rewrite (Hall1 q) in Aq; [discriminate|].
  eapply list_elem_of_lookup_2; eauto.
Qed.

(** The theorem at work: the table of [Test_FillQueues]. *)
Lemma create_queue_on_full_table_witness :
  exists s,
    state_after Test_FillQueues = Some s
    /\ (create_queue s = Abort SIGABRT \/ create_queue s = Undef).
Proof.
  eexists. split; [vm_compute; reflexivity|].
  apply create_queue_on_full_table.
  intros q Hq. apply list_elem_of_In in Hq.
  revert q Hq. apply forallb_forall. vm_compute. reflexivity.
Defined.

(** Property X9.  A [create_queue] that returns hands out the first slot
    of the table that was inactive; afterwards that slot is an empty
    queue of capacity [DEFAULT_ALLOC_SIZE] at a location that is not
    [nullptr], and every other slot has the capacity, the length and the
    activity it had. *)
Theorem create_queue_takes_first_inactive s h s' :
  create_queue s = Done h s' ->
  (exists q, queues s !! h = Some q /\ bIs_Active q = false)
  /\ (forall j q', (j < h)%nat -> queues s !! j = Some q' ->
                   bIs_Active q' = true)
  /\ (exists a, queues s' !! h
                = Some (mk_queue (Some a) DEFAULT_ALLOC_SIZE 0 true))
  /\ (forall j q, j <> h -> queues s !! j = Some q ->
        exists q', queues s' !! j = Some q' /\ meta q' = meta q).
Proof.
  intros H. unfold create_queue in H. bind_inv H as start s1 E.
  apply same_meta_first_free_memory in E.
  bind_inv H as u s2 E1.
  destruct start as [a|]; [|done_inv E1]. done_inv E1.
  bind_inv H as result s3 E2.
  destruct (add_byte_queue_first_inactive (Some a) DEFAULT_ALLOC_SIZE s1)
    as (r & s4 & E3 & _ & Hr).
  rewrite E2 in E3. injection E3 as <- <-.
  destruct result as [i|]; [|done_inv H].
  destruct Hr as (_ & (q1 & L1 & A1) & Hbefore & Hq).
  bind_inv H as u2 s5 E4. done_inv H.
  apply write_queue_Done in E4 as [_ ->]. simpl. rewrite Hq.
  assert (Hback : forall j q', queues s1 !! j = Some q' ->
            exists q, queues s !! j = Some q /\ meta q' = meta q).
  { intros j q' L'.
    destruct (queues s !! j) as [q|] eqn:L.
    - destruct (same_meta_lookup _ _ _ _ E L) as (q2 & L2 & Hm).
      exists q. split; [reflexivity|]. congruence.
    - exfalso. apply lookup_ge_None in L. apply lookup_lt_Some in L'.
      assert (Hlen : length (map meta (queues s1))
                     = length (map meta (queues s))) by (rewrite E; auto).
      rewrite !length_map in Hlen. lia. }
  split; [|split; [|split]].
  - destruct (Hback _ _ L1) as (q & L & Hm). exists q.
    split; [exact L|]. unfold meta in Hm. injection Hm as _ _ Hm. congruence.
  - intros j q' Hj L.
    destruct (same_meta_lookup _ _ _ _ E L) as (q2 & L2 & Hm).
    unfold meta in Hm. injection Hm as _ _ <-. eapply Hbefore; eauto.
  - exists a. rewrite list_insert_insert_eq.
    apply list_lookup_insert_eq. eapply lookup_lt_Some; eauto.
  - intros j q Hj L.
    destruct (same_meta_lookup _ _ _ _ E L) as (q2 & L2 & Hm).
    exists q2. split; [|exact Hm].
    rewrite !list_lookup_insert_ne by congruence. exact L2.
Qed.

(** The theorem at work: a third queue. *)
Lemma create_queue_takes_first_inactive_witness :
  exists s s',
    state_after [Create; Create] = Some s
    /\ create_queue s = Done 2%nat s'
    /\ (exists q, queues s !! 2%nat = Some q /\ bIs_Active q = false)
    /\ (forall j q', (j < 2)%nat -> queues s !! j = Some q' ->
                     bIs_Active q' = true)
    /\ (exists a, queues s' !! 2%nat
                  = Some (mk_queue (Some a) DEFAULT_ALLOC_SIZE 0 true))
    /\ (forall j q, j <> 2%nat -> queues s !! j = Some q ->
          exists q', queues s' !! j = Some q' /\ meta q' = meta q).
Proof.
  do 2 eexists. split; [vm_compute; reflexivity|].
  split; [vm_compute; reflexivity|].
  eapply create_queue_takes_first_inactive. vm_compute. reflexivity.
Defined.

(** *** Destroying a queue *)

(** Property X10.  [destroy_queue] on a slot of the table returns and
    leaves that slot blank and every other slot as it was.  Without
    [clear] no byte of the arena changes; with [clear], for a slot whose
    block lies in the arena, the bytes of the block are 0 afterwards and
    no other byte has changed.  Whether the slot was active is not
    looked at. *)
Theorem destroy_queue_blanks_slot h clear s q :
  queues s !! h = Some q ->
  length (data s) = Z.to_nat MEMORY_ALLOC_SIZE ->
  (clear = true ->
   exists a, MemoryBlockPtr q = Some a /\ 0 <= a /\ 0 <= AllocatedSize q
             /\ a + AllocatedSize q <= MEMORY_ALLOC_SIZE) ->
  exists s',
    destroy_queue h clear s = Done tt s'
    /\ queues s' = <[h := empty_queue]> (queues s)
    /\ forall k, 0 <= k < MEMORY_ALLOC_SIZE ->
         data s' !! Z.to_nat k
         = if clear && in_range q k then Some 0 else data s !! Z.to_nat k.
Proof.
  intros L Hlen Hc. unfold destroy_queue, bind, read_queue. rewrite L.
  destruct clear.
  - destruct (Hc eq_refl) as (a & Hp & Ha & Hn & Hhi). rewrite Hp.
    destruct (clear_loop_data a (Z.to_nat (AllocatedSize q)) 0 s)
      as (s1 & E & Hq & Hl & Hd); [lia|lia|exact Hlen|].
    rewrite E. unfold write_queue. rewrite Hq, L.
    eexists. split; [reflexivity|]. simpl. split; [reflexivity|].
    intros k Hk. rewrite (Hd k Hk). unfold in_range. rewrite Hp.
    rewrite Z2Nat.id, Z.add_0_r by lia. reflexivity.
  - unfold ret, write_queue. rewrite L.
    eexists. split; [reflexivity|]. simpl. auto.
Qed.

(** The theorem at work: the first queue of [Test_Organization] is
    destroyed with [clear]. *)
Lemma destroy_queue_blanks_slot_witness :
  exists s s',
    state_after (Create :: enqueue_run 0 1 32) = Some s
    /\ destroy_queue 0 true s = Done tt s'
    /\ queues s' = <[0%nat := empty_queue]> (queues s)
    /\ forall k, 0 <= k < MEMORY_ALLOC_SIZE ->
         data s' !! Z.to_nat k
         = if true && in_range (mk_queue (Some 0) 32 32 true) k then Some 0
           else data s !! Z.to_nat k.
Proof.
  eexists.
  destruct (destroy_queue_blanks_slot 0 true
              (mk_state
                 (mk_queue (Some 0) 32 32 true
                    :: replicate 63 empty_queue)
                 (map Z.of_nat (seq 1 32) ++ replicate 2016 0)
                 (map (fun i => Store (Z.of_nat i)) (rev (seq 0 32))))
              (mk_queue (Some 0) 32 32 true))
    as (s' & E & Hq & Hd).
  - reflexivity.
  - reflexivity.
  - intros _. exists 0. unfold MEMORY_ALLOC_SIZE. simpl.
    repeat split; lia.
  - exists s'. split; [vm_compute; reflexivity|].
    split; [exact E|]. split; [exact Hq|exact Hd].
Defined.

(** Property X11.  Destroying a queue a second time changes nothing:
    after a [destroy_queue] that returned, another [destroy_queue] on the
    same slot returns and leaves the state as it is, with or without
    [clear]. *)
Theorem destroy_queue_twice h clear clear' s u s' :
  destroy_queue h clear s = Done u s' ->
  destroy_queue h clear' s' = Done tt s'.
Proof.
  intros H. unfold destroy_queue in H.
  bind_inv H as queue s1 L. done_inv L.
  bind_inv H as u1 s2 E.
  apply write_queue_Done in H as [Hsome Hs'].
  assert (L' : queues s' !! h = Some empty_queue).
  { rewrite Hs'. simpl. apply list_lookup_insert_eq.
    apply lookup_lt_is_Some. exact Hsome. }
  unfold destroy_queue, bind, read_queue. rewrite L'. simpl.
  destruct clear'; simpl; unfold ret, write_queue; rewrite L';
    rewrite list_insert_id by exact L'; destruct s'; reflexivity.
Qed.

(** The theorem at work: a queue is created and destroyed. *)
Lemma destroy_queue_twice_witness :
  exists s s',
    state_after [Create] = Some s
    /\ destroy_queue 0 false s = Done tt s'
    /\ destroy_queue 0 true s' = Done tt s'.
Proof.
  do 2 eexists. split; [vm_compute; reflexivity|].
  split; [vm_compute; reflexivity|].
  eapply (destroy_queue_twice 0 false true
            (mk_state (mk_queue (Some 0) 32 0 true :: replicate 63 empty_queue)
                      (replicate 2048 0) []) tt).
  vm_compute. reflexivity.
Defined.

(** *** The table after compaction *)

Lemma pack_from_inactive l a :
  Forall (fun q => bIs_Active q = false) l -> pack_from a l = l.
Proof.
  induction 1 as [|q l Hq _ IH]; simpl; [reflexivity|].
  rewrite Hq, IH. reflexivity.
Qed.

Lemma packed_from_inactive l a :
  Forall (fun q => bIs_Active q = false) l -> packed_from a l.
Proof.
  induction 1 as [|q l Hq _ IH]; simpl; [exact I|]. rewrite Hq. exact IH.
Qed.

Lemma sorted_inactive_head first rest :
  StronglySorted not_after (first :: rest) -> bIs_Active first = false ->
  Forall (fun q => bIs_Active q = false) (first :: rest).
Proof.
  intros H Act. apply StronglySorted_inv in H as [_ H].
  constructor; [exact Act|]. eapply Forall_impl; [exact H|].
  intros y Hy. eapply not_after_inactive_tail; eauto.
Qed.

(** With active slots of positive capacity, the slots of a packed list
    are the sorted copy of every table that holds them. *)
Lemma packed_sorted_copy l qs :
  Forall (fun q => bIs_Active q = true -> 0 < AllocatedSize q) l ->
  Permutation qs (pack_from 0 l) ->
  packed_from 0 (reorganize_byte_queues qs).
Proof.
  intros Hpos Hperm.
  assert (Heq : List.filter bIs_Active (pack_from 0 l)
                = List.filter bIs_Active (reorganize_byte_queues qs)).
  { apply sorted_active_unique.
    - apply filter_active_all.
    - apply pack_from_strict. exact Hpos.
    - apply filter_sorted, reorganize_byte_queues_sorted.
    - apply filter_Permutation_bool.
      rewrite reorganize_byte_queues_perm. symmetry. exact Hperm. }
  apply (proj2 (packed_from_active _ _)). rewrite <- Heq.
  apply (proj1 (packed_from_active _ _)). apply packed_from_pack.
Qed.

(** Property X12.  When compaction returns, every slot has the capacity,
    the length and the activity it had; the table holds the slots of its
    sorted copy, the active ones placed one behind the other from the
    arena base on; and, if every active slot has a capacity above 0, the
    active slots in ascending order of memory location lie one behind the
    other from the arena base on, without a gap. *)
Theorem try_organize_memory_packs s b s' :
  try_organize_memory s = Done b s' ->
  same_meta s s'
  /\ Permutation (queues s')
                 (pack_from 0 (reorganize_byte_queues (queues s)))
  /\ ((forall q, q ∈ queues s -> bIs_Active q = true ->
                 0 < AllocatedSize q) ->
      packed_from 0 (reorganize_byte_queues (queues s'))).
Proof.
  intros H. split; [exact (same_meta_try_organize_memory _ _ _ H)|].
  assert (Hperm : Permutation (queues s')
            (pack_from 0 (reorganize_byte_queues (queues s)))).
  { pose proof (reorganize_byte_queues_sorted (queues s)) as Hs.
    destruct (reorganize_byte_queues (queues s)) as [|first rest] eqn:E.
    { unfold try_organize_memory, organize_sorted, bind, get_queues in H.
      rewrite E in H. discriminate H. }
    destruct (bIs_Active first) eqn:Act.
    - eapply try_organize_memory_pack; eauto.
    - unfold try_organize_memory, organize_sorted, bind, get_queues in H.
      rewrite E, Act in H. simpl in H. injection H as _ <-.
      rewrite pack_from_inactive by (apply sorted_inactive_head; auto).
      rewrite <- E. symmetry. apply reorganize_byte_queues_perm. }
  split; [exact Hperm|]. intros Hpos.
  eapply packed_sorted_copy; [|exact Hperm].
  apply Forall_forall. intros q Hq. apply Hpos.
  apply sorted_copy_elem. exact Hq.
Qed.

(** The theorem at work: [Test_Organization] up to the call of
    compaction. *)
Lemma try_organize_memory_packs_witness :
  exists s b s',
    state_after
      ([Create; Create; Create; Create; Create; Create]
         ++ interleaved [0; 1; 2; 3; 4; 5]%nat
         ++ [Destroy 0 true; Destroy 4 true; Destroy 3 true]) = Some s
    /\ try_organize_memory s = Done b s'
    /\ same_meta s s'
    /\ Permutation (queues s')
                   (pack_from 0 (reorganize_byte_queues (queues s)))
    /\ ((forall q, q ∈ queues s -> bIs_Active q = true ->
                   0 < AllocatedSize q) ->
        packed_from 0 (reorganize_byte_queues (queues s'))).
Proof.
  do 3 eexists. split; [vm_compute; reflexivity|].
  split; [vm_compute; reflexivity|].
  eapply try_organize_memory_packs. vm_compute. reflexivity.
Defined.

(** *** When compaction finds nothing to do *)

Lemma organize_loop_flag_stays l previous s r s' :
  organize_loop l (previous, true) s = Done r s' -> snd r = true.
Proof.
  intros H. apply organize_loop_flag in H as [[_ H]|[H _]]; exact H.
Qed.

Lemma organize_loop_quiet l : forall previous s r s' a,
  MemoryBlockPtr previous = Some a ->
  organize_loop l (previous, false) s = Done r s' -> snd r = false ->
  packed_from (a + AllocatedSize previous) l.
Proof.
  induction l as [|next l IH]; intros previous s r s' a Hp H Hr; simpl in H;
    [exact I|].
  bind_inv H as acc s1 E. unfold organize_step in E. simpl.
  destruct (bIs_Active next).
  - bind_inv E as start s2 E1.
    apply pointer_add_Done in E1 as (-> & a' & Hp' & ->).
    rewrite Hp in Hp'. injection Hp' as <-.
    destruct (negb (pointer_eqb _ _)) eqn:Eq.
    + bind_inv E as u1 s3 E1. bind_inv E as u2 s4 E2.
      apply ret_Done in E as [-> ->].
      apply organize_loop_flag_stays in H. congruence.
    + apply ret_Done in E as [-> ->].
      apply negb_false_iff, pointer_eqb_eq in Eq. symmetry in Eq.
      split; [exact Eq|]. eapply IH; eauto.
  - apply ret_Done in E as [-> ->]. eapply IH; eauto.
Qed.

(** Property X13.  On a table that is not empty, compaction returns
    [false] exactly when there is nothing to move: when the active slots,
    in the order of the sorted copy, already lie one behind the other
    from the arena base on (in particular when no slot is active).  It
    then returns with the state unchanged. *)
Theorem try_organize_memory_false_iff_packed s :
  queues s <> [] ->
  (packed_from 0 (reorganize_byte_queues (queues s)) ->
   try_organize_memory s = Done false s)
  /\ (forall s', try_organize_memory s = Done false s' ->
                 packed_from 0 (reorganize_byte_queues (queues s))).
Proof.
  intros Hne. split.
  - apply try_organize_memory_packed. intros Hnil. apply Hne.
    apply Permutation_nil. rewrite <- Hnil.
    apply reorganize_byte_queues_perm.
  - intros s' H.
    unfold try_organize_memory, organize_sorted in H.
    bind_inv H as qs s1 E. done_inv E.
    pose proof (reorganize_byte_queues_sorted (queues s)) as Hs.
    destruct (reorganize_byte_queues (queues s)) as [|first rest];
      [done_inv H|].
    destruct (bIs_Active first) eqn:Act; simpl in H;
      [|apply packed_from_inactive, sorted_inactive_head; auto].
    simpl. rewrite Act.
    bind_inv H as acc s1 E. bind_inv H as res s2 E0.
    apply ret_Done in H as [Hres ->].
    destruct (negb (pointer_eqb _ _)) eqn:Eq.
    + bind_inv E as u1 s3 E1. bind_inv E as u2 s4 E2.
      apply ret_Done in E as [-> ->].
      apply organize_loop_flag_stays in E0. congruence.
    + apply ret_Done in E as [-> ->].
      apply negb_false_iff, pointer_eqb_eq in Eq.
      split; [exact Eq|].
      eapply (organize_loop_quiet rest first _ _ _ 0); eauto.
Qed.

(** The theorem at work: three queues created one after the other. *)
Lemma try_organize_memory_false_iff_packed_witness :
  exists s,
    state_after [Create; Create; Create] = Some s
    /\ try_organize_memory s = Done false s
    /\ packed_from 0 (reorganize_byte_queues (queues s)).
Proof.
  eexists. split; [vm_compute; reflexivity|].
  lazymatch goal with
  | |- try_organize_memory ?s = _ /\ _ =>
      destruct (try_organize_memory_false_iff_packed s) as [H _];
        [discriminate|];
      assert (Hp : packed_from 0 (reorganize_byte_queues (queues s)))
        by (vm_compute; repeat split)
  end.
  split; [exact (H Hp)|exact Hp].
Defined.

(** *** Adding a byte to a queue that has room *)

Lemma in_arena_true a :
  0 <= a < MEMORY_ALLOC_SIZE -> in_arena a = true.
Proof.
  intros H. unfold in_arena. rewrite andb_true_iff, Z.leb_le, Z.ltb_lt. lia.
Qed.

Lemma contents_lookup h s q a :
  queues s !! h = Some q -> MemoryBlockPtr q = Some a ->
  contents h s = Some (take (Z.to_nat (Size q)) (drop (Z.to_nat a) (data s))).
Proof. intros L Hp. unfold contents. rewrite L, Hp. reflexivity. Qed.

(** Property X14.  [enqueue_byte] on a queue with room for one more byte
    (its length below its capacity, the byte behind its last one inside
    the arena) returns; it has written the byte behind the last one of
    the queue and nothing else into the arena, has raised the length of
    the queue by one and left every other slot alone: the queue holds the
    bytes it held, followed by the new one. *)
Theorem enqueue_byte_with_room h byte s q a :
  queues s !! h = Some q -> MemoryBlockPtr q = Some a ->
  0 <= a -> 0 <= Size q < AllocatedSize q ->
  a + Size q < MEMORY_ALLOC_SIZE ->
  length (data s) = Z.to_nat MEMORY_ALLOC_SIZE ->
  exists s',
    enqueue_byte h byte s = Done tt s'
    /\ queues s' = <[h := mk_queue (Some a) (AllocatedSize q) (Size q + 1)
                                   (bIs_Active q)]> (queues s)
    /\ data s' = <[Z.to_nat (a + Size q) := byte]> (data s)
    /\ contents h s' = option_map (fun l => l ++ [byte]) (contents h s).
Proof.
  intros L Hp Ha Hs Hhi Hlen.
  assert (Hu : uint (Size q + 1) = Size q + 1)
    by (apply uint_small; unfold MEMORY_ALLOC_SIZE in *; lia).
  unfold enqueue_byte, bind, read_queue. rewrite L, Hu.
  replace (Size q + 1 >? AllocatedSize q) with false
    by (symmetry; rewrite Z.gtb_ltb; apply Z.ltb_ge; lia).
  unfold ret. rewrite L, Hp. unfold store.
  rewrite in_arena_true by lia. unfold write_queue. simpl. rewrite L, ?Hu.
  eexists. split; [reflexivity|]. simpl. split; [reflexivity|].
  split; [reflexivity|].
  rewrite (contents_lookup _ _ _ _ L Hp). unfold contents. simpl.
  rewrite list_lookup_insert_eq by (eapply lookup_lt_Some; eauto). simpl.
  f_equal. apply list_eq. intros i.
  assert (Hold : length (take (Z.to_nat (Size q))
                           (drop (Z.to_nat a) (data s)))
                 = Z.to_nat (Size q)).
  { rewrite length_take, length_drop, Hlen. unfold MEMORY_ALLOC_SIZE in *.
    lia. }
  destruct (Nat.lt_total i (Z.to_nat (Size q))) as [Hi|[->|Hi]].
  - rewrite lookup_app_l by (rewrite Hold; exact Hi).
    rewrite !lookup_take_lt by lia. rewrite !lookup_drop.
    apply list_lookup_insert_ne. lia.
  - rewrite lookup_app_r by (rewrite Hold; lia). rewrite Hold, Nat.sub_diag.
    rewrite lookup_take_lt by lia. rewrite lookup_drop. simpl.
    replace (Z.to_nat a + Z.to_nat (Size q))%nat
      with (Z.to_nat (a + Size q)) by lia.
    apply list_lookup_insert_eq. rewrite Hlen.
    unfold MEMORY_ALLOC_SIZE in *. lia.
  - rewrite lookup_take_ge by lia.
    rewrite lookup_app_r by (rewrite Hold; lia). rewrite Hold.
    destruct (i - Z.to_nat (Size q))%nat eqn:D; [lia|reflexivity].
Qed.

(** The theorem at work: a second byte for a fresh queue. *)
Lemma enqueue_byte_with_room_witness :
  exists s s',
    state_after [Create; Enqueue 0 7] = Some s
    /\ enqueue_byte 0 9 s = Done tt s'
    /\ queues s' = <[0%nat := mk_queue (Some 0) 32 2 true]> (queues s)
    /\ data s' = <[1%nat := 9]> (data s)
    /\ contents 0 s' = option_map (fun l => l ++ [9]) (contents 0 s).
Proof.
  eexists.
  destruct (enqueue_byte_with_room 0 9
              (mk_state (mk_queue (Some 0) 32 1 true
                           :: replicate 63 empty_queue)
                        (7 :: replicate 2047 0) [Store 0])
              (mk_queue (Some 0) 32 1 true) 0)
    as (s' & E & Hq & Hd & Hc);
    [reflexivity|reflexivity|lia|simpl; lia|unfold MEMORY_ALLOC_SIZE; simpl; lia
    |reflexivity|].
  exists s'. split; [vm_compute; reflexivity|].
  split; [exact E|]. split; [exact Hq|]. split; [exact Hd|exact Hc].
Defined.

(** *** Taking the first byte of a queue *)

(** The loop [for (i = from; i < from + count; i++) p[i] = p[i + 1]]. *)
Lemma shift_loop_data a : forall count from s,
  0 <= from -> 0 <= a ->
  a + from + Z.of_nat count < MEMORY_ALLOC_SIZE ->
  length (data s) = Z.to_nat MEMORY_ALLOC_SIZE ->
  exists s',
    for_loop count from
      (fun i => let* v := load (Some a) (uint (i + 1)) in store (Some a) i v)
      s = Done tt s'
    /\ queues s' = queues s
    /\ length (data s') = length (data s)
    /\ forall k, 0 <= k < MEMORY_ALLOC_SIZE ->
         data s' !! Z.to_nat k
         = if in_block (a + from) (Z.of_nat count) k
           then data s !! Z.to_nat (k + 1)
           else data s !! Z.to_nat k.
Proof.
  induction count as [|c IH]; intros from s Hfrom Ha Hhi Hlen.
  - exists s. split; [reflexivity|]. split; [reflexivity|].
    split; [reflexivity|]. intros k Hk. compare_all.
  - simpl for_loop.
    assert (Hu : uint (from + 1) = from + 1)
      by (apply uint_small; unfold MEMORY_ALLOC_SIZE in *; lia).
    unfold bind at 1. unfold bind at 1. unfold load. rewrite Hu.
    rewrite in_arena_true by lia.
    destruct (lookup_lt_is_Some_2 (data s) (Z.to_nat (a + (from + 1))))
      as [v Hv]; [rewrite Hlen; lia|].
    rewrite Hv. unfold store. simpl. rewrite in_arena_true by lia.
    edestruct (IH (from + 1)) as (s' & E & Hq & Hl & Hd);
      [| | | |rewrite E].
    + lia.
    + exact Ha.
    + simpl. lia.
    + simpl. rewrite length_insert. exact Hlen.
    + exists s'. split; [reflexivity|]. split; [exact Hq|].
      split; [rewrite Hl; simpl; apply length_insert|].
      intros k Hk. rewrite (Hd k Hk). simpl.
      destruct (Z.eq_dec k (a + from)) as [->|Hne].
      * rewrite list_lookup_insert_eq by (rewrite Hlen; lia).
        replace (Z.to_nat (a + from + 1)) with (Z.to_nat (a + (from + 1)))
          by lia.
        rewrite <- Hv. compare_all.
      * destruct (in_block (a + (from + 1)) (Z.of_nat c) k) eqn:B.
        -- unfold in_block in B. apply andb_true_iff in B as [B1 B2].
           apply Z.leb_le in B1. apply Z.ltb_lt in B2.
           rewrite list_lookup_insert_ne by lia. compare_all.
        -- rewrite list_lookup_insert_ne by lia.
           unfold in_block in B. apply andb_false_iff in B.
           rewrite Z.leb_gt, Z.ltb_ge in B. compare_all.
Qed.

Lemma load_in_arena a i v s :
  0 <= a + i < MEMORY_ALLOC_SIZE -> data s !! Z.to_nat (a + i) = Some v ->
  load (Some a) i s
  = Done v (mk_state (queues s) (data s) (Load (a + i) :: trace s)).
Proof.
  intros Hin Hv. unfold load. rewrite in_arena_true, Hv by exact Hin.
  reflexivity.
Qed.

Lemma store_in_arena a i v s :
  0 <= a + i < MEMORY_ALLOC_SIZE ->
  store (Some a) i v s
  = Done tt (mk_state (queues s) (<[Z.to_nat (a + i) := v]> (data s))
                      (Store (a + i) :: trace s)).
Proof.
  intros Hin. unfold store. rewrite in_arena_true by exact Hin. reflexivity.
Qed.

(** Property X15.  [dequeue_byte] on a queue that holds a byte and whose
    bytes, with the one behind the last, lie inside the arena returns
    the first byte of the queue; the queue then holds the bytes that
    followed it, in their order, its length is one less, its capacity is
    one growth unit less if the new length fits, every other slot is as
    it was, and no byte outside the bytes of the queue has changed. *)
Theorem dequeue_byte_takes_first h s q a :
  queues s !! h = Some q -> MemoryBlockPtr q = Some a ->
  0 <= a -> 0 < Size q -> a + Size q < MEMORY_ALLOC_SIZE ->
  DEFAULT_ALLOC_SIZE <= AllocatedSize q < 2 ^ 32 ->
  length (data s) = Z.to_nat MEMORY_ALLOC_SIZE ->
  exists b rest s',
    contents h s = Some (b :: rest)
    /\ dequeue_byte h s = Done b s'
    /\ contents h s' = Some rest
    /\ queues s'
       = <[h := mk_queue (Some a)
                  (if Size q - 1 <=? AllocatedSize q - DEFAULT_ALLOC_SIZE
                   then AllocatedSize q - DEFAULT_ALLOC_SIZE
                   else AllocatedSize q)
                  (Size q - 1) (bIs_Active q)]> (queues s)
    /\ length (data s') = length (data s)
    /\ forall k, 0 <= k < MEMORY_ALLOC_SIZE -> in_block a (Size q) k = false ->
         data s' !! Z.to_nat k = data s !! Z.to_nat k.
Proof.
  intros L Hp Ha Hs Hhi Hcap Hlen.
  assert (Hm : MEMORY_ALLOC_SIZE = 2048) by reflexivity.
  assert (Hd : DEFAULT_ALLOC_SIZE = 32) by reflexivity.
  destruct (lookup_lt_is_Some_2 (data s) (Z.to_nat a)) as [b Hb];
    [rewrite Hlen; lia|].
  set (rest := take (Z.to_nat (Size q - 1)) (drop (S (Z.to_nat a)) (data s))).
  exists b, rest.
  assert (Hcontents : contents h s = Some (b :: rest)).
  { rewrite (contents_lookup _ _ _ _ L Hp). f_equal.
    rewrite (drop_S _ _ _ Hb).
    replace (Z.to_nat (Size q)) with (S (Z.to_nat (Size q - 1))) by lia.
    reflexivity. }
  unfold dequeue_byte, bind at 1, read_queue. rewrite L. cbv zeta.
  replace (Size q =? 0) with false by (symmetry; apply Z.eqb_neq; lia).
  unfold bind at 1, ret at 1. rewrite Hp.
  unfold bind at 1.
  rewrite (load_in_arena a 0 b) by (rewrite ?Z.add_0_r; auto; lia).
  match goal with
  | |- context [bind (for_loop _ _ _) _ ?s1] =>
      destruct (shift_loop_data a (Z.to_nat (Size q)) 0 s1)
        as (s2 & E2 & Hq2 & Hl2 & Hd2); [lia|lia|simpl; lia|exact Hlen|]
  end.
  unfold bind at 1. rewrite E2.
  rewrite (uint_small (Size q - 1)) by lia.
  rewrite (uint_small (AllocatedSize q - DEFAULT_ALLOC_SIZE)) by lia.
  unfold bind at 1. rewrite store_in_arena by lia.
  unfold bind at 1, write_queue. simpl. rewrite Hq2. simpl. rewrite L.
  eexists. split; [exact Hcontents|]. split; [reflexivity|].
  simpl in Hl2, Hd2.
  assert (Hdata : forall k, 0 <= k < MEMORY_ALLOC_SIZE ->
            <[Z.to_nat (a + (Size q - 1)) := 0]> (data s2) !! Z.to_nat k
            = if in_block a (Size q - 1) k then data s !! Z.to_nat (k + 1)
              else if k =? a + Size q - 1 then Some 0
              else data s !! Z.to_nat k).
  { intros k Hk. destruct (Z.eq_dec k (a + (Size q - 1))) as [->|Hne].
    - rewrite list_lookup_insert_eq by (rewrite Hl2, Hlen; lia).
      compare_all.
    - rewrite list_lookup_insert_ne by lia. rewrite (Hd2 k Hk).
      rewrite Z.add_0_r, Z2Nat.id by lia. compare_all. }
  split; [|split; [reflexivity|split]].
  - unfold contents. simpl.
    rewrite list_lookup_insert_eq by (eapply lookup_lt_Some; eauto). simpl.
    f_equal. apply list_eq. intros i. unfold rest.
    destruct (Nat.lt_ge_cases i (Z.to_nat (Size q - 1))) as [Hi|Hi].
    + rewrite !lookup_take_lt by exact Hi. rewrite !lookup_drop.
      replace (Z.to_nat a + i)%nat with (Z.to_nat (a + Z.of_nat i)) by lia.
      rewrite Hdata by lia.
      replace (in_block a (Size q - 1) (a + Z.of_nat i)) with true
        by (symmetry; unfold in_block; rewrite andb_true_iff, Z.leb_le,
              Z.ltb_lt; lia).
      f_equal. lia.
    + rewrite !lookup_take_ge by exact Hi. reflexivity.
  - simpl. rewrite length_insert. exact Hl2.
  - simpl. intros k Hk Hout. rewrite Hdata by exact Hk.
    revert Hout. compare_all.
Qed.

(** The theorem at work: the first of two bytes is taken. *)
Lemma dequeue_byte_takes_first_witness :
  exists s b rest s',
    state_after [Create; Enqueue 0 7; Enqueue 0 9] = Some s
    /\ contents 0 s = Some (b :: rest)
    /\ dequeue_byte 0 s = Done b s'
    /\ contents 0 s' = Some rest
    /\ b = 7 /\ rest = [9].
Proof.
  eexists.
  destruct (dequeue_byte_takes_first 0
              (mk_state (mk_queue (Some 0) 32 2 true
                           :: replicate 63 empty_queue)
                        (7 :: 9 :: replicate 2046 0) [Store 1; Store 0])
              (mk_queue (Some 0) 32 2 true) 0)
    as (b & rest & s' & Hc & E & Hc' & _);
    [reflexivity|reflexivity|lia|simpl; lia|unfold MEMORY_ALLOC_SIZE; simpl; lia
    |unfold DEFAULT_ALLOC_SIZE; simpl; lia|reflexivity|].
  exists b, rest, s'. split; [vm_compute; reflexivity|].
  split; [exact Hc|]. split; [exact E|]. split; [exact Hc'|].
  vm_compute in Hc. injection Hc as <- <-. split; reflexivity.
Defined.

(** *** A single queue is first in, first out *)

Lemma next_queue_from_behind_inactive p l : forall i,
  Forall (fun x => bIs_Active x = false) l ->
  next_queue_from p true i l = None.
Proof.
  induction l as [|x l IH]; intros i H; simpl; [reflexivity|].
  inversion H as [|? ? Hx Hl]; subst. rewrite Hx. simpl. apply IH. exact Hl.
Qed.

Lemma blank_slots_inactive n :
  Forall (fun x => bIs_Active x = false) (replicate n empty_queue).
Proof.
  eapply Forall_impl; [apply blank_slots|]. intros q ->. reflexivity.
Qed.

Lemma take_insert_snoc (l : list Z) n b :
  (n < length l)%nat -> take (S n) (<[n := b]> l) = take n l ++ [b].
Proof.
  intros Hn.
  rewrite (take_S_r _ _ b) by (apply list_lookup_insert_eq; exact Hn).
  rewrite take_insert_ge by lia. reflexivity.
Qed.

(** The last read of the shift loop is inside the arena when the loop
    returns. *)
Lemma shift_loop_in_arena a n : forall from s u s',
  for_loop (S n) from
    (fun i => let* v := load (Some a) (uint (i + 1)) in store (Some a) i v) s
  = Done u s' ->
  in_arena (a + uint (from + Z.of_nat n + 1)) = true.
Proof.
  induction n as [|n IH]; intros from s u s' H.
  - simpl in H. bind_inv H as u1 s1 E. bind_inv E as v s2 E1.
    apply load_Done in E1 as (a' & Ha' & Hin & _). injection Ha' as <-.
    replace (from + Z.of_nat 0 + 1) with (from + 1) by lia. exact Hin.
  - change (for_loop (S (S n)) from ?b) with
      (let* _ := b from in for_loop (S n) (from + 1) b) in H.
    bind_inv H as u1 s1 E. apply IH in H.
    replace (from + Z.of_nat (S n) + 1) with (from + 1 + Z.of_nat n + 1)
      by lia.
    exact H.
Qed.

Lemma dequeue_byte_in_arena h s b s' q a :
  queues s !! h = Some q -> MemoryBlockPtr q = Some a ->
  0 <= Size q < 2 ^ 32 ->
  dequeue_byte h s = Done b s' ->
  0 < Size q /\ in_arena (a + Size q) = true.
Proof.
  intros L Hp Hs H. unfold dequeue_byte in H.
  bind_inv H as queue s1 L'. done_inv L'. rewrite L in L'.
  injection L' as <-. rewrite Hp in H.
  bind_inv H as u1 s1 E.
  destruct (Size q =? 0) eqn:Z0; [done_inv E|]. done_inv E.
  apply Z.eqb_neq in Z0. split; [lia|].
  bind_inv H as removed s2 E1. bind_inv H as u2 s3 E2.
  destruct (Z.to_nat (Size q)) as [|n] eqn:N; [lia|].
  apply shift_loop_in_arena in E2.
  replace (0 + Z.of_nat n + 1) with (Size q) in E2 by lia.
  rewrite uint_small in E2 by exact Hs. exact E2.
Qed.

Lemma single_queue_enqueue s pending byte u s' :
  single_queue s pending -> enqueue_byte 0 byte s = Done u s' ->
  single_queue s' (pending ++ [byte]).
Proof.
  intros ((cap & Hq) & Hlen & Hc) H. unfold enqueue_byte in H.
  bind_inv H as queue s1 L. done_inv L. rewrite Hq in L.
  injection L as <-. cbn [MemoryBlockPtr AllocatedSize Size bIs_Active] in H.
  bind_inv H as u1 s1 E.
  assert (exists cap',
            queues s1 = mk_queue (Some 0) cap' (Z.of_nat (length pending)) true
                          :: replicate 63 empty_queue
            /\ data s1 = data s) as (cap' & Hq1 & Hd1).
  { destruct (uint _ >? _); [|done_inv E; eauto].
    cbv zeta in E. bind_inv E as u2 s2 E1.
    apply write_queue_Done in E1 as [_ ->]. rewrite Hq in E.
    cbn [list_insert insert] in E.
    bind_inv E as p s3 E2.
    erewrite growth_placement_without_successor in E2;
      [|reflexivity
       |cbn [queues MemoryBlockPtr next_queue_from negb andb pointer_eqb];
        rewrite Z.eqb_refl;
        apply next_queue_from_behind_inactive, blank_slots_inactive].
    injection E2 as <- <-.
    bind_inv E as moved s4 E3. done_inv E3. cbn [queues] in E3.
    injection E3 as <-.
    bind_inv E as u3 s5 E4. apply write_queue_Done in E4 as [_ ->].
    unfold relocate_bytes in E. cbn [pointer_eqb] in E.
    rewrite Z.eqb_refl in E. done_inv E. cbn [queues data list_insert insert].
    eexists. split; reflexivity. }
  bind_inv H as queue2 s2 L2. done_inv L2. rewrite Hq1 in L2.
  injection L2 as <-. cbn [MemoryBlockPtr AllocatedSize Size bIs_Active] in H.
  bind_inv H as u2 s2 E2.
  apply store_Done in E2 as (a & Ha & Hin & ->). injection Ha as <-.
  apply write_queue_Done in H as [_ ->]. cbn [queues data] in *.
  unfold in_arena in Hin. apply andb_true_iff in Hin as [_ Hin].
  apply Z.ltb_lt in Hin. unfold MEMORY_ALLOC_SIZE in *.
  rewrite Hd1, Hq1 in *. cbn [list_insert insert].
  assert (Hpend : take (length pending) (data s) = pending).
  { unfold contents in Hc. rewrite Hq in Hc. simpl in Hc.
    rewrite Nat2Z.id in Hc. injection Hc as Hc. exact Hc. }
  split; [|split].
  - exists cap'. rewrite uint_small by lia. rewrite length_app. simpl.
    do 2 f_equal. lia.
  - cbn [data]. rewrite length_insert. exact Hlen.
  - unfold contents. cbn [queues data lookup list_lookup MemoryBlockPtr Size].
    rewrite uint_small by lia. change (Z.to_nat 0) with 0%nat.
    rewrite drop_0. f_equal.
    replace (Z.to_nat (Z.of_nat (length pending) + 1))
      with (S (length pending)) by lia.
    replace (Z.to_nat (0 + Z.of_nat (length pending)))
      with (length pending) by lia.
    rewrite take_insert_snoc by lia. rewrite Hpend. reflexivity.
Qed.

Lemma single_queue_dequeue s pending b s' :
  single_queue s pending -> table_ok s -> dequeue_byte 0 s = Done b s' ->
  exists rest, pending = b :: rest /\ single_queue s' rest.
Proof.
  intros ((cap & Hq) & Hlen & Hc) Hok H.
  assert (L : queues s !! 0%nat
              = Some (mk_queue (Some 0) cap (Z.of_nat (length pending)) true))
    by (rewrite Hq; reflexivity).
  pose proof (table_ok_lookup _ _ _ Hok L) as Hslot.
  unfold slot_ok in Hslot.
  cbn [MemoryBlockPtr AllocatedSize Size bIs_Active] in Hslot.
  destruct Hslot as (_ & (k & Hk) & _ & [Hlo Hhi] & Hmax).
  unfold DEFAULT_ALLOC_SIZE, MEMORY_ALLOC_SIZE in *.
  destruct (dequeue_byte_in_arena 0 s b s' _ 0 L eq_refl)
    as [Hpos Hin]; [simpl; lia|exact H|].
  cbn [Size] in Hpos, Hin.
  unfold in_arena in Hin. apply andb_true_iff in Hin as [_ Hin].
  apply Z.ltb_lt in Hin. unfold MEMORY_ALLOC_SIZE in Hin.
  destruct (dequeue_byte_takes_first 0 s _ 0 L eq_refl)
    as (b0 & rest & s0 & Hc0 & E & Hc1 & Hq0 & Hl0 & _);
    [lia
    |cbn [Size]; lia
    |unfold MEMORY_ALLOC_SIZE; cbn [Size]; lia
    |unfold DEFAULT_ALLOC_SIZE; cbn [AllocatedSize]; lia
    |exact Hlen|].
  rewrite E in H. injection H as <- <-.
  rewrite Hc in Hc0. injection Hc0 as ->.
  exists rest. split; [reflexivity|].
  split; [|split; [rewrite Hl0; exact Hlen|exact Hc1]].
  eexists. rewrite Hq0, Hq. cbn [list_insert insert Size].
  do 2 f_equal. simpl length. lia.
Qed.

Lemma single_queue_run ops : forall s pending r s',
  single_queue s pending -> table_ok s ->
  forallb on_first_queue ops = true ->
  run ops s = Done r s' ->
  exists pending',
    single_queue s' pending'
    /\ pending ++ enqueued 0 ops = dequeued 0 ops r ++ pending'.
Proof.
  induction ops as [|o ops IH]; intros s pending r s' Hs Hok Hops H.
  - simpl in H. done_inv H. exists pending. split; [exact Hs|].
    simpl. apply app_nil_r.
  - simpl in Hops. apply andb_true_iff in Hops as [Ho Hops].
    cbn [run] in H. bind_inv H as x s1 E. bind_inv H as xs s2 E'.
    done_inv H.
    pose proof (step_ok _ _ _ _ Hok E) as Hok1.
    destruct o as [|h c|[|h] byte|[|h]|]; try discriminate Ho.
    + simpl in E. bind_inv E as u s3 E1. done_inv E.
      pose proof (single_queue_enqueue _ _ _ _ _ Hs E1) as Hs1.
      destruct (IH _ _ _ _ Hs1 Hok1 Hops E') as (pending' & Hs' & Heq).
      exists pending'. split; [exact Hs'|].
      simpl. rewrite <- Heq, <- app_assoc. reflexivity.
    + simpl in E. bind_inv E as b s3 E1. done_inv E.
      destruct (single_queue_dequeue _ _ _ _ Hs Hok E1)
        as (rest & -> & Hs1).
      destruct (IH _ _ _ _ Hs1 Hok1 Hops E') as (pending' & Hs' & Heq).
      exists pending'. split; [exact Hs'|].
      simpl. rewrite <- Heq. reflexivity.
Qed.

(** Property X16.  With one queue in the pool, created first and never
    destroyed, the pool is first in, first out: after any sequence of
    [enqueue_byte] and [dequeue_byte] calls on that queue that returned,
    the bytes handed to [enqueue_byte] are, in their order, the bytes
    [dequeue_byte] has returned followed by the bytes the queue still
    holds. *)
Theorem single_queue_is_fifo ops r s :
  forallb on_first_queue ops = true ->
  run (Create :: ops) initial_state = Done r s ->
  exists pending,
    contents 0 s = Some pending
    /\ enqueued 0 ops = dequeued 0 (Create :: ops) r ++ pending.
Proof.
  intros Hops H. cbn [run] in H.
  bind_inv H as x s1 E. bind_inv H as xs s2 E'. done_inv H.
  pose proof (step_ok _ _ _ _ table_ok_initial E) as Hok1.
  assert (Hs1 : single_queue s1 []).
  { vm_compute in E. injection E as _ <-.
    split; [exists 32; reflexivity|]. split; reflexivity. }
  destruct (single_queue_run _ _ _ _ _ Hs1 Hok1 Hops E')
    as (pending & (_ & _ & Hc) & Heq).
  exists pending. split; [exact Hc|].
  simpl in Heq. rewrite Heq.
  vm_compute in E. injection E as <- _. reflexivity.
Qed.

(** The theorem at work: 40 bytes in, three bytes out. *)
Lemma single_queue_is_fifo_witness :
  exists r s pending,
    run (Create :: enqueue_run 0 1 40 ++ [Dequeue 0; Dequeue 0; Dequeue 0])
        initial_state = Done r s
    /\ contents 0 s = Some pending
    /\ enqueued 0 (enqueue_run 0 1 40 ++ [Dequeue 0; Dequeue 0; Dequeue 0])
       = dequeued 0 (Create :: enqueue_run 0 1 40
                       ++ [Dequeue 0; Dequeue 0; Dequeue 0]) r
           ++ pending.
Proof.
  do 2 eexists.
  assert (H : run (Create :: enqueue_run 0 1 40
                     ++ [Dequeue 0; Dequeue 0; Dequeue 0]) initial_state
              = Done _ _) by (vm_compute; reflexivity).
  assert (Hops : forallb on_first_queue
                   (enqueue_run 0 1 40 ++ [Dequeue 0; Dequeue 0; Dequeue 0])
                 = true) by reflexivity.
  destruct (single_queue_is_fifo _ _ _ Hops H) as (pending & Hc & Heq).
  exists pending. split; [exact H|]. split; [exact Hc|exact Heq].
Defined.

(** *** Placement changes memory locations only *)

(** Property X17.  The two placement functions change the table through
    compaction only: when [first_free_memory] or
    [get_available_memory_start] returns, every slot has the capacity,
    the length and the activity it had before the call. *)
Theorem placement_changes_locations_only :
  (forall requested_size,
     preserves same_meta (first_free_memory requested_size))
  /\ (forall h size, preserves same_meta (get_available_memory_start h size)).
Proof.
  split.
  - exact same_meta_first_free_memory.
  - exact same_meta_get_available_memory_start.
Qed.

(** *** The first queue of an empty pool *)

(** Property X18.  On a table without an active slot, whatever the arena
    holds, [create_queue] returns the first slot of the table, as an
    empty queue of capacity [DEFAULT_ALLOC_SIZE] at the arena base, and
    changes nothing else. *)
Theorem create_queue_on_empty_pool s first rest :
  queues s = first :: rest ->
  (forall q, q ∈ queues s -> bIs_Active q = false) ->
  create_queue s
  = Done 0%nat
      (mk_state (mk_queue (Some 0) DEFAULT_ALLOC_SIZE 0 true :: rest)
                (data s) (trace s)).
Proof.
  intros Hq Hnone.
  assert (Hfind : List.find bIs_Active (reorganize_byte_queues (queues s))
                  = None).
  { destruct (List.find _ _) as [q|] eqn:F; [|reflexivity].
    apply find_active_elem in F as [Hin Act].
    apply sorted_copy_elem in Hin. rewrite (Hnone q Hin) in Act.
    discriminate. }
  assert (Hfirst : bIs_Active first = false)
    by (apply Hnone; rewrite Hq; left).
  unfold create_queue, bind, first_free_memory, bind, get_first_queue, bind,
    get_queues, ret. rewrite Hfind.
  unfold add_byte_queue, bind, get_queues. rewrite Hq. simpl.
  rewrite Hfirst. simpl. unfold write_queue, ret. rewrite Hq. simpl.
  reflexivity.
Qed.

(** The theorem at work: the pool as it starts. *)
Lemma create_queue_on_empty_pool_witness :
  create_queue initial_state
  = Done 0%nat
      (mk_state (mk_queue (Some 0) DEFAULT_ALLOC_SIZE 0 true
                   :: replicate 63 empty_queue)
                (data initial_state) (trace initial_state)).
Proof.
  apply (create_queue_on_empty_pool initial_state empty_queue
           (replicate 63 empty_queue)); [reflexivity|].
  intros q Hq. cbn [queues initial_state] in Hq.
  apply elem_of_replicate in Hq as [-> _]. reflexivity.
Defined.

(** *** A handle after [destroy_queue] *)

(** Property X19.  After [destroy_queue] the handle is dead for
    [dequeue_byte]: the slot is blank, its length is 0, and the call ends
    in the illegal-operation handler. *)
Theorem dequeue_after_destroy h clear s u s' :
  destroy_queue h clear s = Done u s' ->
  dequeue_byte h s' = Abort SIGILL.
Proof.
  intros H. unfold destroy_queue in H.
  bind_inv H as queue s1 L. done_inv L.
  bind_inv H as u1 s2 E.
  apply write_queue_Done in H as [Hsome Hs'].
  assert (L' : queues s' !! h = Some empty_queue).
  { rewrite Hs'. simpl. apply list_lookup_insert_eq.
    apply lookup_lt_is_Some. exact Hsome. }
  apply dequeue_byte_Abort. split; [reflexivity|].
  exists empty_queue. split; [exact L'|reflexivity].
Qed.

(** The theorem at work: a queue is created and destroyed. *)
Lemma dequeue_after_destroy_witness :
  exists s',
    destroy_queue 0 false
      (mk_state (mk_queue (Some 0) 32 0 true :: replicate 63 empty_queue)
                (replicate 2048 0) []) = Done tt s'
    /\ dequeue_byte 0 s' = Abort SIGILL.
Proof.
  eexists. split; [vm_compute; reflexivity|].
  eapply (dequeue_after_destroy 0 false
            (mk_state (mk_queue (Some 0) 32 0 true
                         :: replicate 63 empty_queue)
                      (replicate 2048 0) []) tt).
  vm_compute. reflexivity.
Defined.

(** *** Where an active queue lies and how much it holds *)

(** Property X20.  After any sequence of calls that returned, every
    active slot has a memory location that is not [nullptr] and not
    below the arena base, and a length between 0 and the size of the
    arena. *)
Theorem active_queue_is_located ops r s h q :
  run ops initial_state = Done r s ->
  queues s !! h = Some q -> bIs_Active q = true ->
  (exists a, MemoryBlockPtr q = Some a /\ 0 <= a)
  /\ 0 <= Size q <= MEMORY_ALLOC_SIZE.
Proof.
  intros Hrun L Act.
  pose proof (run_ok _ _ _ _ table_ok_initial Hrun) as Hok.
  pose proof (table_ok_lookup _ _ _ Hok L) as Hs.
  unfold slot_ok in Hs. rewrite Act in Hs.
  destruct Hs as (Hp & _ & Hs0 & _ & Hmax). auto.
Qed.

(** The theorem at work: the queue that growth moved onto the first
    one. *)
Lemma active_queue_is_located_witness :
  exists r s q,
    run grow_last_slot initial_state = Done r s
    /\ queues s !! 1%nat = Some q
    /\ bIs_Active q = true
    /\ (exists a, MemoryBlockPtr q = Some a /\ 0 <= a)
    /\ 0 <= Size q <= MEMORY_ALLOC_SIZE.
Proof.
  do 3 eexists. split; [vm_compute; reflexivity|].
  split; [vm_compute; reflexivity|].
  split; [reflexivity|].
  eapply (active_queue_is_located grow_last_slot _ _ 1%nat _);
    [vm_compute; reflexivity|vm_compute; reflexivity|reflexivity].
Defined.
